(** * Lithops: job construction, result delivery and cleanup

    A shallow embedding of [lithops/job/job.py] and of the
    [FunctionExecutor] class of [lithops/executors.py].

    Python objects that are shared and mutated (the [ResponseFuture]
    objects, the executor's [futures] list and [cleaned_jobs] set) live in
    an explicit store, the [World]; every method is a function of the
    world that returns either a value or the raised exception together
    with the world it leaves behind.  Calls to collaborators whose side
    effect matters (storage uploads, task submission, the cleaner process)
    are recorded, in order, in the world's [trace]. *)

From Stdlib Require Import ZArith Lia Ascii String DecimalString DecimalNat.
From stdpp Require Import gmap strings list.

Local Open Scope Z_scope.

(** ** Python values and operators *)

Module Py.

(** The values a numeric configuration entry can hold. *)
Inductive pyval :=
| PyNone
| PyBool (b : bool)
| PyInt (z : Z).

(** [bool(v)] *)
Definition truthy (v : pyval) : bool :=
  match v with
  | PyNone => false
  | PyBool b => b
  | PyInt z => negb (z =? 0)
  end.

(** The integer a value stands for in arithmetic ([True] is [1]). *)
Definition num (v : pyval) : Z :=
  match v with
  | PyNone => 0
  | PyBool b => if b then 1 else 0
  | PyInt z => z
  end.

(** [a or d] where [a] is [None] or an integer. *)
Definition or_int (a : option Z) (d : Z) : Z :=
  match a with
  | Some z => if z =? 0 then d else z
  | None => d
  end.

(** [needle in hay] on two [str]: substring test. *)
Fixpoint str_in (needle hay : string) : bool :=
  String.prefix needle hay ||
  match hay with
  | EmptyString => false
  | String _ rest => str_in needle rest
  end.

(** [s.count(c)] for a one-character [c]. *)
Fixpoint count_char (c : ascii) (s : string) : nat :=
  match s with
  | EmptyString => O
  | String a rest => (if Ascii.eqb a c then 1 else 0)%nat + count_char c rest
  end.

(** [str(n)] for a non-negative [int]. *)
Definition str_of_nat (n : nat) : string :=
  NilZero.string_of_uint (Nat.to_uint n).

Fixpoint zeros (k : nat) : string :=
  match k with
  | O => EmptyString
  | S k' => String "0" (zeros k')
  end.

(** [s.zfill(width)]: zeros go after a leading sign. *)
Definition zfill (width : nat) (s : string) : string :=
  let pad := zeros (width - String.length s) in
  match s with
  | String c rest =>
      if Ascii.eqb c "+" || Ascii.eqb c "-"
      then String c (pad +:+ rest)
      else pad +:+ s
  | EmptyString => pad
  end.

(** [int(s)] for a string of decimal digits. *)
Definition int_of_digits (s : string) : option nat :=
  Nat.of_uint <$> NilEmpty.uint_of_string s.

(** [s.replace(a, b)] for one-character [a] and [b]. *)
Fixpoint replace_char (a b : ascii) (s : string) : string :=
  match s with
  | EmptyString => EmptyString
  | String c rest =>
      String (if Ascii.eqb c a then b else c) (replace_char a b rest)
  end.

Definition bytes := list Init.Byte.byte.

Definition has_byte (n : N) (bs : bytes) : bool :=
  existsb (fun c => N.eqb (Byte.to_N c) n) bs.

(** Length of one byte inside [repr(bytes)], given the quote in use. *)
Definition repr_byte_len (quote : N) (c : Init.Byte.byte) : Z :=
  let n := Byte.to_N c in
  if (n =? quote)%N || (n =? 92)%N then 2
  else if (n =? 9)%N || (n =? 10)%N || (n =? 13)%N then 2
  else if (n <? 32)%N || (127 <=? n)%N then 4
  else 1.

(** [len(str(bs))] for [bs : bytes]: the text of the bytes literal
    with its escapes; the literal is double-quoted when [bs] holds a
    single quote (39) and no double quote (34). *)
Definition len_str_bytes (bs : bytes) : Z :=
  let quote := if has_byte 39 bs && negb (has_byte 34 bs) then 34%N else 39%N in
  3 + foldr (fun c acc => repr_byte_len quote c + acc) 0 bs.

(** [l[a:b]] *)
Definition slice {A} (l : list A) (a b : Z) : list A :=
  let n := Z.of_nat (length l) in
  let clamp i := if i <? 0 then Z.max 0 (i + n) else Z.min i n in
  let lo := clamp a in
  let hi := clamp b in
  take (Z.to_nat (hi - lo)) (drop (Z.to_nat lo) l).

End Py.

Import Py.

(** ** Futures, events and exceptions *)

(** A [ResponseFuture], as far as the executor reads or writes it. *)
Record Future (V : Type) := mkFuture {
  f_executor_id : string;
  f_job_id : string;
  f_job_key : string;
  f_call_id : nat;
  f_done : bool;
  f_success : bool;
  f_futures : list nat;        (* nested child futures, by reference *)
  f_produce_output : bool;     (* [_produce_output] *)
  f_read : bool;               (* [_read] *)
  f_return_val : V
}.
Arguments mkFuture {V}.
Arguments f_executor_id {V}.
Arguments f_job_id {V}.
Arguments f_job_key {V}.
Arguments f_call_id {V}.
Arguments f_done {V}.
Arguments f_success {V}.
Arguments f_futures {V}.
Arguments f_produce_output {V}.
Arguments f_read {V}.
Arguments f_return_val {V}.

Definition set_read {V} (b : bool) (f : Future V) : Future V :=
  mkFuture (f_executor_id f) (f_job_id f) (f_job_key f) (f_call_id f)
           (f_done f) (f_success f) (f_futures f) (f_produce_output f)
           b (f_return_val f).

Definition set_produce_output {V} (b : bool) (f : Future V) : Future V :=
  mkFuture (f_executor_id f) (f_job_id f) (f_job_key f) (f_call_id f)
           (f_done f) (f_success f) (f_futures f) b
           (f_read f) (f_return_val f).

(** Raised exceptions: instances of [Exception], which is what
    [except Exception] catches. *)
Inductive exn :=
| DataLimitExceeded (limit_bytes : Z) (* [Exception('... Total data exceeded maximum size of ...')] *)
| IndexError
| AttributeError                      (* an attribute that the object does not have *)
| OSError (errno : Z)                 (* raised by [open] or by [os.makedirs] *)
| ExternalError (msg : string).       (* an [Exception] raised by a collaborator *)

(** Side effects on the collaborators, in program order. *)
Inductive event :=
| EvSelectRuntime (job_id : string)                          (* [invoker.select_runtime] *)
| EvPutFunc (key : string) (payload : bytes)                 (* [internal_storage.put_func] *)
| EvPutData (key : string) (payload : bytes)                 (* [internal_storage.put_data] *)
| EvStoreLocal (dir key : string)                            (* the function file of [_store_func_and_modules] *)
| EvStoreModule (path : string) (data : bytes)               (* a module file of [_store_func_and_modules] *)
| EvRunJob (job_key : string) (total_calls : nat)            (* [invoker.run_job]: one Task per Call *)
| EvInvokerStop                                              (* [invoker.stop] *)
| EvMonitorStop (jobs : gset string)                         (* [job_monitor.stop] *)
| EvComputeClear (jobs : gset string)                        (* [compute_handler.clear] *)
| EvSaveCos (cs : list string)                               (* [save_data_to_clean({'cos_to_clean': ...})] *)
| EvSaveJobs (jobs : gset string) (clean_cloudobjects : bool)(* [save_data_to_clean({'jobs_to_clean': ...})] *)
| EvSpawnCleaner.                                            (* [sp.Popen(... lithops.scripts.cleaner)] *)

Definition is_upload (e : event) : bool :=
  match e with
  | EvPutFunc _ _ | EvPutData _ _ | EvStoreLocal _ _ | EvStoreModule _ _ => true
  | _ => false
  end.

(** A file written to the local runtime directory. *)
Definition is_local_store (e : event) : bool :=
  match e with
  | EvStoreLocal _ _ | EvStoreModule _ _ => true
  | _ => false
  end.

Definition is_run_job (e : event) : bool :=
  match e with
  | EvRunJob _ _ => true
  | _ => false
  end.

(** Number of Tasks handed to the compute backend so far. *)
Definition submission_count (t : list event) : nat :=
  foldr (fun e acc => match e with EvRunJob _ n => n + acc | _ => acc end)%nat O t.

(** ** Collaborators

    Code of the package that [job.py] and [executors.py] import and that
    is outside the modelled files: constants, key builders, the
    serializer, the partitioner and the wait engine. *)

Class Collaborators := {
  Func : Type;
  Data : Type;
  Val : Type;
  (* lithops.constants *)
  SERVERLESS : string;
  STANDALONE : string;
  LOCALHOST : string;
  MAX_AGG_DATA_SIZE : Z;
  JOBS_PREFIX : string;
  CUSTOM_RUNTIME_DIR : string;
  FAAS_BACKENDS : list string;
  (* lithops.storage.utils *)
  create_job_key : string -> string -> string;
  create_func_key : string -> string -> string -> string;
  create_agg_data_key : string -> string -> string -> string;
  func_key_suffix : string;
  (* lithops.job.serialize, pickle, hashlib *)
  function_name_of : Func -> string;
  dumps_data : Data -> bytes;
  pickle_func_module : Func -> list Data -> bytes;
  ext_runtime_uuid_of : Func -> list Data -> string;
  path_join : string -> string -> string;
  (* the function and module files of a customized runtime: what
     [func.__code__.co_filename] is ([None]: [func] has no [__code__]),
     the errno of the [OSError] that [open(path, 'rb').read()] raises,
     if any, the errno of the one that writing the file opened with
     [open(path, 'wb')] raises, if any, and the items of
     [create_module_data(mod_paths)] with their data decoded *)
  code_filename : Func -> option string;
  read_error : string -> option Z;
  write_error : string -> option Z;
  module_data_of : Func -> list Data -> list (string * bytes);
  (* os.path and os.makedirs: the errno of the [OSError] that
     [os.makedirs(path, exist_ok=True)] raises, if any, and of the one
     that the [n]-th [os.makedirs(path)] of the module loop raises *)
  path_dirname : string -> string;
  path_basename : string -> string;
  makedirs_exist_ok_error : string -> option Z;
  makedirs_error : nat -> string -> option Z;
  (* lithops.utils *)
  agg_data : list bytes -> bytes * list (Z * Z);
  verify_args : Func -> list Data -> exn + list Data;
  create_partitions : Func -> list Data -> option (list Data * list Z);
  futures_arg : list nat -> Data;   (* a tuple holding a list of futures, as call input *)
  future_arg : nat -> Data;         (* a future, as call input *)
  is_notebook : bool;
  (* lithops.future: the [_return_val] of a future that has no result yet *)
  none_val : Val;
  (* lithops.wait.wait(fs, download_results, throw_except, ...): updates
     the futures in place and may raise *)
  WaitOpts : Type;                  (* return_when, timeout, threadpool_size, wait_dur_sec *)
  default_wait_opts : WaitOpts;     (* ALL_COMPLETED, None, THREADPOOL_SIZE, WAIT_DUR_SEC *)
  ext_wait : (nat -> Future Val) -> list nat -> bool -> bool -> WaitOpts ->
             (nat -> Future Val) * option exn
}.

(** ** The world and the monad of methods *)

Record World `{Collaborators} := mkWorld {
  heap : nat -> Future Val;     (* the future objects, by reference *)
  next_ref : nat;               (* first reference not yet allocated *)
  trace : list event;
  futures : list nat;           (* [self.futures] *)
  cleaned_jobs : gset string;   (* [self.cleaned_jobs] *)
  total_jobs : nat;             (* [self.total_jobs] *)
  last_call : option string     (* [self.last_call] *)
}.
Arguments mkWorld {_}.

Section Monad.
Context `{Collaborators}.

(** A method: the outcome ([inl] is a raised exception) and the world
    it leaves, which keeps the mutations done before a raise. *)
Definition M (A : Type) : Type := World -> (exn + A) * World.

Definition ret {A} (a : A) : M A := fun w => (inr a, w).

Definition bind {A B} (m : M A) (k : A -> M B) : M B :=
  fun w =>
    match m w with
    | (inl e, w') => (inl e, w')
    | (inr a, w') => k a w'
    end.

Definition raise {A} (e : exn) : M A := fun w => (inl e, w).

Definition get : M World := fun w => (inr w, w).

Definition modify (f : World -> World) : M unit := fun w => (inr tt, f w).

Definition emit (e : event) : M unit :=
  modify (fun w => mkWorld (heap w) (next_ref w) (trace w ++ [e]) (futures w)
                           (cleaned_jobs w) (total_jobs w) (last_call w)).

(** [for x in l: body(x)] *)
Fixpoint for_each {A} (l : list A) (body : A -> M unit) : M unit :=
  match l with
  | [] => ret tt
  | x :: rest => bind (body x) (fun _ => for_each rest body)
  end.

(** [try: m  finally: fin] *)
Definition try_finally {A} (m : M A) (fin : M unit) : M A :=
  fun w =>
    match m w with
    | (r, w1) =>
        match fin w1 with
        | (inl e, w2) => (inl e, w2)
        | (inr _, w2) => (r, w2)
        end
    end.

(** [try: m  except Exception as e: handler(e)] *)
Definition try_except {A} (m : M A) (handler : exn -> M A) : M A :=
  fun w =>
    match m w with
    | (inl e, w1) => handler e w1
    | (inr a, w1) => (inr a, w1)
    end.

End Monad.

Global Instance M_ret `{Collaborators} : MRet M := @ret _.
Global Instance M_bind `{Collaborators} : MBind M := fun A B k m => bind m k.

(** ** [lithops/job/job.py] *)

(** The configuration entries the job builder reads. *)
Record Config := mkConfig {
  cfg_mode : string;                      (* [config['lithops']['mode']] *)
  cfg_backend : string;                   (* [config['lithops']['backend']] *)
  cfg_chunksize : Z;                      (* [config['lithops']['chunksize']] *)
  cfg_worker_processes : Z;               (* [config['lithops']['worker_processes']] *)
  cfg_execution_timeout : Z;              (* [config['lithops']['execution_timeout']] *)
  cfg_data_limit : option pyval;          (* [config['lithops']['data_limit']]; [None]: key absent *)
  cfg_invoke_pool_threads : option Z;     (* [config[backend].get('invoke_pool_threads')] *)
  cfg_runtime_memory : Z;                 (* [config[backend]['runtime_memory']] *)
  cfg_runtime_timeout : Z;                (* [config[backend]['runtime_timeout']] *)
  cfg_hard_dismantle_timeout : Z;         (* [config[STANDALONE]['hard_dismantle_timeout']] *)
  cfg_customized_runtime : bool           (* [config[mode].get('customized_runtime', False)] *)
}.

(** The job namespace.  An attribute the builder did not set is [None];
    an attribute that can itself hold Python's [None] is a nested option. *)
Record Job := mkJob {
  chunksize : Z;
  worker_processes : Z;
  execution_timeout : Z;
  executor_id : string;
  job_id : string;
  job_key : string;
  function_name : string;
  total_calls : nat;
  invoke_pool_threads : option Z;
  runtime_memory : option (option Z);
  runtime_timeout : option (option Z);
  func_key : string;
  ext_runtime_uuid : option string;
  local_tmp_dir : option string;
  data_key : option string;               (* always set; [None] is Python's [None] *)
  data_byte_ranges : option (list (Z * Z)); (* always set; [None] is Python's [None] *)
  data_byte_strs : option (list bytes);
  data_size_bytes : Z;                    (* [metadata['data_size_bytes']] *)
  func_module_size_bytes : Z;             (* [metadata['func_module_size_bytes']] *)
  parts_per_object : option (list Z)
}.

Definition with_parts_per_object (ppo : list Z) (j : Job) : Job :=
  mkJob (chunksize j) (worker_processes j) (execution_timeout j) (executor_id j)
        (job_id j) (job_key j) (function_name j) (total_calls j)
        (invoke_pool_threads j) (runtime_memory j) (runtime_timeout j)
        (func_key j) (ext_runtime_uuid j) (local_tmp_dir j) (data_key j)
        (data_byte_ranges j) (data_byte_strs j) (data_size_bytes j)
        (func_module_size_bytes j) (Some ppo).

Inductive mode_kind := ModeServerless | ModeStandalone | ModeLocalhost | ModeOther.

Section JobBuilder.
Context `{Collaborators}.

(** The branch of [if mode == SERVERLESS ... elif mode in STANDALONE ...
    elif mode == LOCALHOST] that [mode] takes. *)
Definition mode_branch (mode : string) : mode_kind :=
  if String.eqb mode SERVERLESS then ModeServerless
  else if str_in mode STANDALONE then ModeStandalone
  else if String.eqb mode LOCALHOST then ModeLocalhost
  else ModeOther.

(** Lines 161-179: the budget of the job, as
    [(invoke_pool_threads, runtime_memory, runtime_timeout, execution_timeout)]. *)
Definition resolve_budget (config : Config)
    (runtime_memory_arg execution_timeout_arg invoke_pool_threads_arg : option Z)
    : option Z * option (option Z) * option (option Z) * Z :=
  let execution_timeout0 := or_int execution_timeout_arg (cfg_execution_timeout config) in
  match mode_branch (cfg_mode config) with
  | ModeServerless =>
      let ipt := or_int invoke_pool_threads_arg
                        (default 1 (cfg_invoke_pool_threads config)) in
      let mem := or_int runtime_memory_arg (cfg_runtime_memory config) in
      let rt := cfg_runtime_timeout config in
      (Some ipt, Some (Some mem), Some (Some rt),
       if rt <=? execution_timeout0 then rt - 5 else execution_timeout0)
  | ModeStandalone =>
      let rt := cfg_hard_dismantle_timeout config in
      (None, Some None, None,
       if rt <=? execution_timeout0 then rt - 10 else execution_timeout0)
  | ModeLocalhost =>
      (None, Some None, Some execution_timeout_arg, execution_timeout0)
  | ModeOther =>
      (None, None, None, execution_timeout0)
  end.

(** Lines 214-219: the limit in force. *)
Definition data_limit_of (config : Config) : pyval :=
  match cfg_data_limit config with
  | Some v => v
  | None => PyInt MAX_AGG_DATA_SIZE
  end.

(** [sum(len(x) for x in data_strs)] *)
Definition total_size (data_strs : list bytes) : Z :=
  foldr (fun x acc => Z.of_nat (length x) + acc) 0 data_strs.

(** [data_limit and data_size_bytes > data_limit*1024**2] *)
Definition exceeds_data_limit (config : Config) (data_strs : list bytes) : bool :=
  let data_limit := data_limit_of config in
  truthy data_limit && (num data_limit * 1024 ^ 2 <? total_size data_strs).

(** Line 226: [upload_data], read from [data_strs[0]] only. *)
Definition upload_data (config : Config) (chunksize : Z) (first : bytes) : bool :=
  negb ((len_str_bytes first * chunksize <? 8 * 1204)
        && bool_decide (cfg_backend config ∈ FAAS_BACKENDS)).

(** Lines 295-310: the directory to make for the module file
    [m_filename] and the path of the file written there. *)
Definition module_file (job_tmp_dir m_filename : string) : string * string :=
  let modules_path := job_tmp_dir +:+ "/" +:+ "modules" in
  let m_path := path_dirname m_filename in
  let m_path :=
    match m_path with
    | String c rest => if Ascii.eqb c "/" then rest else m_path
    | EmptyString => m_path
    end in
  let to_make := path_join modules_path m_path in
  (to_make, path_join to_make (path_basename m_filename)).

(** The loop of lines 297-313 over the module files that are left;
    [n] counts the iterations done. *)
Fixpoint store_modules (job_tmp_dir : string) (n : nat)
    (module_data : list (string * bytes)) : M unit :=
  match module_data with
  | [] => mret tt
  | (m_filename, m_data) :: rest =>
      let '(to_make, full_filename) := module_file job_tmp_dir m_filename in
      (match makedirs_error n to_make with
       | Some errno => if errno =? 17 then mret tt else raise (OSError errno)
       | None => mret tt
       end);;
      (match write_error full_filename with
       | Some errno => raise (OSError errno)
       | None => emit (EvStoreModule full_filename m_data)
       end);;
      store_modules job_tmp_dir (S n) rest
  end.

Definition _store_func_and_modules (job_tmp_dir func_key : string)
    (module_data : list (string * bytes)) : M unit :=
  (match makedirs_exist_ok_error job_tmp_dir with
   | Some errno => raise (OSError errno)
   | None => mret tt
   end);;
  (match write_error (path_join job_tmp_dir func_key) with
   | Some errno => raise (OSError errno)
   | None => emit (EvStoreLocal job_tmp_dir func_key)
   end);;
  store_modules job_tmp_dir 0 module_data.

Definition _create_job (config : Config) (executor_id job_id : string)
    (func : Func) (iterdata : list Data)
    (runtime_memory execution_timeout : option Z)
    (chunksize worker_processes invoke_pool_threads : option Z) : M Job :=
  let j_chunksize := or_int chunksize (cfg_chunksize config) in
  let j_worker_processes := or_int worker_processes (cfg_worker_processes config) in
  let j_job_key := create_job_key executor_id job_id in
  let '(j_ipt, j_mem, j_rt, j_execution_timeout) :=
    resolve_budget config runtime_memory execution_timeout invoke_pool_threads in
  let data_strs := dumps_data <$> iterdata in
  let func_module_str := pickle_func_module func iterdata in
  if exceeds_data_limit config data_strs
  then raise (DataLimitExceeded (num (data_limit_of config) * 1024 ^ 2))
  else
    match data_strs with
    | [] => raise IndexError
    | first :: _ =>
        let upload_function := negb (cfg_customized_runtime config) in
        fk ← (if upload_function
               then
                 let func_key := create_func_key JOBS_PREFIX executor_id job_id in
                 emit (EvPutFunc func_key func_module_str);;
                 mret (func_key, None, None)
               else
                 match code_filename func with
                 | None => raise AttributeError
                 | Some function_file =>
                     match read_error function_file with
                     | Some errno => raise (OSError errno)
                     | None =>
                         let uuid := ext_runtime_uuid_of func iterdata in
                         let dir := path_join CUSTOM_RUNTIME_DIR uuid in
                         _store_func_and_modules dir func_key_suffix
                                                 (module_data_of func iterdata);;
                         mret (func_key_suffix, Some uuid, Some dir)
                     end
                 end);
        dk ← (if upload_data config j_chunksize first
               then
                 let data_key := create_agg_data_key JOBS_PREFIX executor_id job_id in
                 let '(data_bytes, ranges) := agg_data data_strs in
                 emit (EvPutData data_key data_bytes);;
                 mret (Some data_key, Some ranges, None)
               else
                 mret (None, None, Some data_strs));
        let '(j_func_key, j_uuid, j_dir) := fk in
        let '(j_data_key, j_ranges, j_strs) := dk in
        mret (mkJob j_chunksize j_worker_processes j_execution_timeout
                   executor_id job_id j_job_key (function_name_of func)
                   (length iterdata) j_ipt j_mem j_rt j_func_key j_uuid j_dir
                   j_data_key j_ranges j_strs (total_size data_strs)
                   (Z.of_nat (length func_module_str)) None)
    end.

(** Lines 56-67 of [create_map_job]: the checked input, partitioned
    with its per-object counts when the function processes objects. *)
Definition map_job_input (map_function : Func) (iterdata : list Data)
    : exn + (list Data * option (list Z)) :=
  match verify_args map_function iterdata with
  | inl e => inl e
  | inr map_iterdata =>
      match create_partitions map_function map_iterdata with
      | Some (parts, ppo) => inr (parts, Some ppo)
      | None => inr (map_iterdata, None)
      end
  end.

Definition create_map_job (config : Config) (executor_id job_id : string)
    (map_function : Func) (iterdata : list Data)
    (runtime_memory execution_timeout : option Z)
    (chunksize worker_processes invoke_pool_threads : option Z) : M Job :=
  match map_job_input map_function iterdata with
  | inl e => raise e
  | inr (map_iterdata, ppo) =>
      job ← _create_job config executor_id job_id map_function map_iterdata
                        runtime_memory execution_timeout
                        chunksize worker_processes invoke_pool_threads;
      match ppo with
      | Some (p :: ps) => mret (with_parts_per_object (p :: ps) job)
      | _ => mret job
      end
  end.

(** Lines 104-111: the input of the reduce calls. *)
Fixpoint one_per_object (map_futures : list nat) (prev_total_partitions : Z)
    (parts_per_object : list Z) : list (list nat) :=
  match parts_per_object with
  | [] => []
  | total_partitions :: rest =>
      slice map_futures prev_total_partitions
            (prev_total_partitions + total_partitions)
      :: one_per_object map_futures (prev_total_partitions + total_partitions) rest
  end.

Definition reduce_iterdata (map_job : Job) (map_futures : list nat)
    (reducer_one_per_object : bool) : list (list nat) :=
  match parts_per_object map_job with
  | Some ppo =>
      if reducer_one_per_object then one_per_object map_futures 0 ppo
      else [map_futures]
  | None => [map_futures]
  end.

Definition create_reduce_job (config : Config) (executor_id reduce_job_id : string)
    (reduce_function : Func) (map_job : Job) (map_futures : list nat)
    (runtime_memory : option Z) (reducer_one_per_object : bool)
    (execution_timeout : option Z) : M Job :=
  let iterdata := futures_arg <$> reduce_iterdata map_job map_futures reducer_one_per_object in
  match verify_args reduce_function iterdata with
  | inl e => raise e
  | inr iterdata =>
      _create_job config executor_id reduce_job_id reduce_function iterdata
                  runtime_memory execution_timeout None None (Some 16)
  end.

End JobBuilder.

(** ** [lithops/executors.py]: [FunctionExecutor] *)

(** The attributes of the executor that no method writes. *)
Record Executor := mkExecutor {
  self_config : Config;
  self_executor_id : string;
  self_data_cleaner : bool;
  self_is_lithops_worker : bool
}.

(** The [fs] argument: [None], a [list] of futures, one future, or a
    [FuturesList] (the list subclass that [map], [map_reduce] and [wait]
    return; it has no [executor_id]). *)
Inductive fs_arg :=
| FsNone
| FsList (l : list nat)
| FsOne (r : nat)
| FsFuturesList (l : list nat).

(** [bool(fs)] *)
Definition fs_truthy (fs : fs_arg) : bool :=
  match fs with
  | FsNone => false
  | FsList l => negb (bool_decide (l = []))
  | FsOne _ => true
  | FsFuturesList l => negb (bool_decide (l = []))
  end.

(** The local variable [futures = fs or self.futures] of [wait], once
    a single future is wrapped in a list: the caller's futures or the
    very list object [self.futures]. *)
Inductive futures_var :=
| SelfFutures
| Given (l : list nat).

Definition bind_futures (fs : fs_arg) : futures_var :=
  match fs with
  | FsList (r :: l) => Given (r :: l)
  | FsOne r => Given [r]
  | FsFuturesList (r :: l) => Given (r :: l)
  | _ => SelfFutures
  end.

(** What [get_result] returns: [result[0]] or [result]. *)
Inductive result_shape (V : Type) :=
| Bare (v : V)
| Sequence (vs : list V).
Arguments Bare {V}.
Arguments Sequence {V}.

(** The input of [map]: plain data or a [FuturesList]. *)
Inductive iter_arg `{Collaborators} :=
| IterData (l : list Data)
| IterFutures (l : list nat).

Section Executor.
Context `{Collaborators}.

Definition deref (w : World) (v : futures_var) : list nat :=
  match v with
  | SelfFutures => futures w
  | Given l => l
  end.

Definition set_heap (h : nat -> Future Val) (w : World) : World :=
  mkWorld h (next_ref w) (trace w) (futures w) (cleaned_jobs w) (total_jobs w) (last_call w).

Definition set_futures (l : list nat) (w : World) : World :=
  mkWorld (heap w) (next_ref w) (trace w) l (cleaned_jobs w) (total_jobs w) (last_call w).

Definition set_cleaned_jobs (s : gset string) (w : World) : World :=
  mkWorld (heap w) (next_ref w) (trace w) (futures w) s (total_jobs w) (last_call w).

Definition set_total_jobs (n : nat) (w : World) : World :=
  mkWorld (heap w) (next_ref w) (trace w) (futures w) (cleaned_jobs w) n (last_call w).

Definition set_last_call (c : string) (w : World) : World :=
  mkWorld (heap w) (next_ref w) (trace w) (futures w) (cleaned_jobs w) (total_jobs w) (Some c).

(** [f.attr = ...] on the future object [r]. *)
Definition update_future (r : nat) (g : Future Val -> Future Val) (w : World) : World :=
  set_heap (fun r' => if Nat.eqb r' r then g (heap w r') else heap w r') w.

(** Modelled from the spec: [Invoker.run_job] of [lithops.invokers] is
    outside the modelled files.  The spec: it dispatches one Task per
    Call and creates and returns a Future per Call immediately; Futures
    are returned in the order of the inputs. *)
Definition run_job (job : Job) : M (list nat) :=
  w ← get;
  let first := next_ref w in
  let n := total_calls job in
  let fresh (r : nat) :=
    mkFuture (executor_id job) (job_id job) (job_key job) (r - first)
             false false [] true false none_val in
  modify (fun w =>
    mkWorld (fun r => if (Nat.leb first r && Nat.ltb r (first + n))%nat
                      then fresh r else heap w r)
            (first + n)%nat (trace w)
            (futures w) (cleaned_jobs w) (total_jobs w) (last_call w));;
  emit (EvRunJob (job_key job) n);;
  mret (seq first n).

(** Modelled from the spec: [ResponseFuture.result] of [lithops.future]
    is outside the modelled files.  The spec: a Done future holds its
    fetched result, and the result-fetch call delivers it. *)
Definition future_result (f : Future Val) : Val := f_return_val f.

Definition _create_job_id (call_type : string) : M string :=
  w ← get;
  let job_id := zfill 3 (str_of_nat (total_jobs w)) in
  modify (set_total_jobs (total_jobs w + 1)%nat);;
  mret (call_type +:+ job_id).

(** [{create_job_key(f.executor_id, f.job_id) for f in futures
      if (f.executor_id.count('-') == 1 and f.done) or force}] *)
Definition cleanable (h : nat -> Future Val) (force : bool) (r : nat) : bool :=
  (Nat.eqb (count_char "-" (f_executor_id (h r))) 1 && f_done (h r)) || force.

Definition present_jobs (h : nat -> Future Val) (futs : list nat) (force : bool)
    : gset string :=
  list_to_set
    ((fun r => create_job_key (f_executor_id (h r)) (f_job_id (h r)))
       <$> filter (fun r => Is_true (cleanable h force r)) futs).

(** [jobs_to_clean = present_jobs - self.cleaned_jobs], for [fs] that
    is not a [FuturesList] *)
Definition jobs_to_clean (w : World) (fs : fs_arg) (force : bool) : gset string :=
  present_jobs (heap w) (deref w (bind_futures fs)) force ∖ cleaned_jobs w.

Definition clean (self : Executor) (fs : fs_arg) (cs : list string)
    (clean_cloudobjects spawn_cleaner force : bool) : M unit :=
  let cs_given := negb (bool_decide (cs = [])) in
  (if cs_given then emit (EvSaveCos cs) else mret tt);;
  if cs_given && negb (fs_truthy fs) then mret tt
  else
    match fs with
    | FsFuturesList (_ :: _) =>
        (* [type(futures) != list] holds of a [FuturesList]: it is wrapped
           as if it were one future, and [f.executor_id] raises *)
        raise AttributeError
    | _ =>
        w ← get;
        let to_clean := jobs_to_clean w fs force in
        let some_jobs := negb (bool_decide (to_clean = ∅)) in
        (if some_jobs
         then emit (EvSaveJobs to_clean clean_cloudobjects);;
              modify (fun w => set_cleaned_jobs (cleaned_jobs w ∪ to_clean) w)
         else mret tt);;
        if (some_jobs || cs_given) && spawn_cleaner
        then emit EvSpawnCleaner
        else mret tt
    end.

(** The call of [lithops.wait.wait] inside the [try]. *)
Definition call_ext_wait (futs : list nat) (download_results throw_except : bool)
    (opts : WaitOpts) : M unit :=
  fun w =>
    let '(h, raised) := ext_wait (heap w) futs download_results throw_except opts in
    (match raised with Some e => inl e | None => inr tt end, set_heap h w).

Definition cleaner_on (self : Executor) : bool :=
  self_data_cleaner self && negb (self_is_lithops_worker self).

(** The [except Exception as e] block of [wait]. *)
Definition wait_except (self : Executor) (fs : fs_arg) (e : exn) : M unit :=
  emit EvInvokerStop;;
  (if negb (fs_truthy fs) && is_notebook
   then (* [futures] is [self.futures]: the slice starts at 0 *)
     modify (fun w =>
       set_futures (take (length (futures w) - length (deref w (bind_futures fs)))
                         (futures w)) w)
   else mret tt);;
  (if cleaner_on self then clean self FsNone [] false true true else mret tt);;
  raise e.

(** The [finally] block of [wait]. *)
Definition wait_finally (self : Executor) (fs : fs_arg) : M unit :=
  w ← get;
  let jobs : gset string :=
    list_to_set ((fun r => f_job_key (heap w r)) <$> deref w (bind_futures fs)) in
  emit (EvMonitorStop jobs);;
  if cleaner_on self
  then emit (EvComputeClear jobs);; clean self FsNone [] false true false
  else mret tt.

Definition wait (self : Executor) (fs : fs_arg) (throw_except download_results : bool)
    (opts : WaitOpts) : M (list nat * list nat) :=
  try_finally
    (try_except
       (w ← get;
        call_ext_wait (deref w (bind_futures fs)) download_results throw_except opts)
       (wait_except self fs))
    (wait_finally self fs);;
  w ← get;
  let futs := deref w (bind_futures fs) in
  let h := heap w in
  if download_results
  then mret (filter (fun r => Is_true (f_done (h r))) futs,
             filter (fun r => Is_true (negb (f_done (h r)))) futs)
  else mret (filter (fun r => Is_true (f_success (h r) || f_done (h r))) futs,
             filter (fun r => Is_true (negb (f_success (h r)) && negb (f_done (h r)))) futs).

(** [not f.futures and f._produce_output] *)
Definition deliverable (h : nat -> Future Val) (r : nat) : bool :=
  bool_decide (f_futures (h r) = []) && f_produce_output (h r).

(** The loop of [get_result] (lines 445-454) over the filtered
    [fs_done]; [fs_given] is [bool(fs)]. *)
Fixpoint deliver (fs_given : bool) (fs_done : list nat) : M (list Val) :=
  match fs_done with
  | [] => mret []
  | r :: rest =>
      w ← get;
      if fs_given
      then
        vs ← deliver fs_given rest;
        mret (future_result (heap w r) :: vs)
      else if negb (f_read (heap w r))
      then
        modify (update_future r (set_read true));;
        vs ← deliver fs_given rest;
        mret (future_result (heap w r) :: vs)
      else deliver fs_given rest
  end.

(** Lines 439-454 of [get_result]: the list [result]. *)
Definition get_result_list (self : Executor) (fs : fs_arg) (throw_except : bool)
    (opts : WaitOpts) : M (list Val) :=
  '(fs_done, _) ← wait self fs throw_except true opts;
  w ← get;
  deliver (fs_truthy fs) (filter (fun r => Is_true (deliverable (heap w) r)) fs_done).

(** Lines 459-462: [result[0]] or [result]. *)
Definition shape_result (last : option string) (result : list Val) : result_shape Val :=
  match result with
  | [v] => if bool_decide (last = Some "map"%string) then Sequence result else Bare v
  | _ => Sequence result
  end.

Definition get_result (self : Executor) (fs : fs_arg) (throw_except : bool)
    (opts : WaitOpts) : M (result_shape Val) :=
  result ← get_result_list self fs throw_except opts;
  w ← get;
  mret (shape_result (last_call w) result).

Definition extend_futures (l : list nat) : M unit :=
  modify (fun w => set_futures (futures w ++ l) w).

Definition iter_data (it : iter_arg) : list Data :=
  match it with
  | IterData l => l
  | IterFutures l => future_arg <$> l
  end.

(** [for fut in fs: fut._produce_output = False] *)
Definition no_output (fs : list nat) : M unit :=
  for_each fs (fun r => modify (update_future r (set_produce_output false))).

Definition call_async (self : Executor) (func : Func) (data : Data)
    (runtime_memory timeout : option Z) : M nat :=
  job_id ← _create_job_id "A";
  modify (set_last_call "call_async");;
  emit (EvSelectRuntime job_id);;
  job ← create_map_job (self_config self) (self_executor_id self) job_id func [data]
                       runtime_memory timeout None None (Some 16);
  futs ← run_job job;
  extend_futures futs;;
  match futs with
  | r :: _ => mret r
  | [] => raise IndexError
  end.

Definition map (self : Executor) (map_function : Func) (map_iterdata : iter_arg)
    (chunksize worker_processes runtime_memory timeout invoke_pool_threads : option Z)
    : M (list nat) :=
  job_id ← _create_job_id "M";
  modify (set_last_call "map");;
  emit (EvSelectRuntime job_id);;
  job ← create_map_job (self_config self) (self_executor_id self) job_id map_function
                       (iter_data map_iterdata) runtime_memory timeout
                       chunksize worker_processes invoke_pool_threads;
  futs ← run_job job;
  extend_futures futs;;
  (match map_iterdata with
   | IterFutures l => no_output l
   | IterData _ => mret tt
   end);;
  mret futs.

Definition map_reduce (self : Executor) (map_function : Func) (map_iterdata : iter_arg)
    (reduce_function : Func)
    (chunksize worker_processes map_runtime_memory reduce_runtime_memory
     timeout invoke_pool_threads : option Z)
    (reducer_one_per_object reducer_wait_local : bool) : M (list nat) :=
  modify (set_last_call "map_reduce");;
  map_job_id ← _create_job_id "M";
  emit (EvSelectRuntime map_job_id);;
  map_job ← create_map_job (self_config self) (self_executor_id self) map_job_id
                           map_function (iter_data map_iterdata)
                           map_runtime_memory timeout
                           chunksize worker_processes invoke_pool_threads;
  map_futures ← run_job map_job;
  extend_futures map_futures;;
  (match map_iterdata with
   | IterFutures l => no_output l
   | IterData _ => mret tt
   end);;
  (if reducer_wait_local
   then wait self (FsList map_futures) true false default_wait_opts;; mret tt
   else mret tt);;
  let reduce_job_id := replace_char "M" "R" map_job_id in
  emit (EvSelectRuntime reduce_job_id);;
  reduce_job ← create_reduce_job (self_config self) (self_executor_id self) reduce_job_id
                                 reduce_function map_job map_futures
                                 reduce_runtime_memory reducer_one_per_object None;
  reduce_futures ← run_job reduce_job;
  extend_futures reduce_futures;;
  no_output map_futures;;
  mret (map_futures ++ reduce_futures).

(** One call of a public method on the executor. *)
Inductive call :=
| CallAsync (func : Func) (data : Data) (runtime_memory timeout : option Z)
| CallMap (map_function : Func) (map_iterdata : iter_arg)
          (chunksize worker_processes runtime_memory timeout invoke_pool_threads : option Z)
| CallMapReduce (map_function : Func) (map_iterdata : iter_arg) (reduce_function : Func)
                (chunksize worker_processes map_runtime_memory reduce_runtime_memory
                 timeout invoke_pool_threads : option Z)
                (reducer_one_per_object reducer_wait_local : bool)
| CallWait (fs : fs_arg) (throw_except download_results : bool) (opts : WaitOpts)
| CallGetResult (fs : fs_arg) (throw_except : bool) (opts : WaitOpts)
| CallClean (fs : fs_arg) (cs : list string)
            (clean_cloudobjects spawn_cleaner force : bool).

(** The world after the call, whether it returned or raised. *)
Definition run_call (self : Executor) (c : call) (w : World) : World :=
  match c with
  | CallAsync f d m t => (call_async self f d m t w).2
  | CallMap f it c p m t i => (map self f it c p m t i w).2
  | CallMapReduce f it g c p m1 m2 t i o l =>
      (map_reduce self f it g c p m1 m2 t i o l w).2
  | CallWait fs t d o => (wait self fs t d o w).2
  | CallGetResult fs t o => (get_result self fs t o w).2
  | CallClean fs cs c s f => (clean self fs cs c s f w).2
  end.

Definition run_session (self : Executor) (cs : list call) (w : World) : World :=
  foldl (fun w c => run_call self c w) w cs.

(** The state [__init__] leaves: no futures, nothing cleaned, no job
    yet.  Futures of other executors may exist already. *)
Definition init_world (h : nat -> Future Val) (next : nat) : World :=
  mkWorld h next [] [] ∅ 0%nat None.

End Executor.

(** ** [lithops/job/job.py]: the modules to ship with the function *)

(** [bool(l)] for [l] a list or [None]. *)
Definition list_truthy (l : option (list string)) : bool :=
  match l with
  | Some (_ :: _) => true
  | _ => false
  end.

(** [s.update(l)]; the outer [None] is the [AttributeError] raised when
    [s] is Python's [None]. *)
Definition set_update (s : option (gset string)) (l : list string)
    : option (option (gset string)) :=
  match s with
  | Some s => Some (Some (s ∪ list_to_set l))
  | None => None
  end.

(** Lines 181-197 of [_create_job]: [(exc_modules, inc_modules)], where
    [inc_modules] can be Python's [None].  Every argument is a list or
    [None]; the outer [None] of the result is a raised
    [AttributeError]. *)
Definition resolve_modules
    (exclude_modules_cfg include_modules_cfg exclude_modules include_modules
       : option (list string))
    : option (gset string * option (gset string)) :=
  let exc_modules : gset string := ∅ in
  let inc_modules : option (gset string) := Some ∅ in
  let exc_modules :=
    if list_truthy exclude_modules_cfg
    then exc_modules ∪ list_to_set (default [] exclude_modules_cfg)
    else exc_modules in
  let exc_modules :=
    if list_truthy exclude_modules
    then exc_modules ∪ list_to_set (default [] exclude_modules)
    else exc_modules in
  inc_modules ← match include_modules_cfg with
                | Some l => set_update inc_modules l
                | None => Some inc_modules
                end;
  let inc_modules :=
    match include_modules_cfg with
    | None => if negb (list_truthy include_modules) then None else inc_modules
    | Some _ => inc_modules
    end in
  inc_modules ← match include_modules with
                | Some (m :: l) => set_update inc_modules (m :: l)
                | _ => Some inc_modules
                end;
  let inc_modules :=
    match include_modules with
    | None => None
    | Some _ => inc_modules
    end in
  Some (exc_modules, inc_modules).

(** ** [lithops/serverless/backends/aws_lambda_dag/aws_lambda_dag.py] *)

Module Dag.

(** A [str], as the list of its code points. *)
Definition pystr := list N.

(** [c.isspace()] *)
Definition is_space (c : N) : bool :=
  ((9 <=? c) && (c <=? 13) || (28 <=? c) && (c <=? 32) ||
   (c =? 133) || (c =? 160) || (c =? 5760) ||
   (8192 <=? c) && (c <=? 8202) ||
   (c =? 8232) || (c =? 8233) || (c =? 8239) || (c =? 8287) || (c =? 12288))%N.

(** [s.lstrip()] *)
Fixpoint lstrip (s : pystr) : pystr :=
  match s with
  | c :: rest => if is_space c then lstrip rest else s
  | [] => []
  end.

(** [s.rstrip()] *)
Definition rstrip (s : pystr) : pystr := reverse (lstrip (reverse s)).

(** [s.strip()] *)
Definition strip (s : pystr) : pystr := rstrip (lstrip s).

(** [d[k] = v] on a [dict]: a key already present keeps its place. *)
Fixpoint dict_set {V : Type} (k : pystr) (v : V) (d : list (pystr * V))
    : list (pystr * V) :=
  match d with
  | [] => [(k, v)]
  | (k', v') :: rest =>
      if decide (k' = k) then (k, v) :: rest else (k', v') :: dict_set k v rest
  end.

(** What a call of the wrapper can raise: [e] is an exception of a
    registered function. *)
Inductive dag_exn (E : Type) :=
| NameError                (* name 'FUNCTIONS' is not defined *)
| KeyError (key : pystr)
| Raised (e : E).
Arguments NameError {E}.
Arguments KeyError {E}.
Arguments Raised {E}.

(** The globals of the module: [FUNCTIONS], if the name is defined, and
    the rest of the state ([user]) that registered functions read and
    write, the contents of mutable argument objects included. *)
Record Globals (Fn St : Type) := mkGlobals {
  FUNCTIONS : option (gmap pystr Fn);
  user : St
}.
Arguments mkGlobals {Fn St}.
Arguments FUNCTIONS {Fn St}.
Arguments user {Fn St}.

Section Wrapper.
Variables Fn V E St : Type.

(** [func.__name__] *)
Variable fn_name : Fn -> pystr.

(** A call of [func] on the positional arguments [values]: the result
    or the raised exception, and the globals the call leaves. *)
Variable call : Fn -> list V -> Globals Fn St -> (E + V) * Globals Fn St.

(** One call made by the wrapper: the callee, its positional arguments
    and the outcome. *)
Definition call_record : Type := Fn * list V * (E + V).

Definition register (func : Fn) (g : Globals Fn St) : Fn * Globals Fn St :=
  match FUNCTIONS g with
  | None => (func, mkGlobals (Some (<[fn_name func := func]> ∅)) (user g))
  | Some functions => (func, mkGlobals (Some (<[fn_name func := func]> functions)) (user g))
  end.

(** The loop of [wrapper_DAG] over the remaining [keys]; [log] holds
    the calls made so far. *)
Fixpoint dag_loop (keys : list pystr) (values : list V)
    (returns : list (pystr * V)) (log : list call_record) (g : Globals Fn St)
    : (dag_exn E + list (pystr * V)) * Globals Fn St * list call_record :=
  match keys with
  | [] => (inr returns, g, log)
  | key :: rest =>
      match FUNCTIONS g with
      | None => (inl NameError, g, log)
      | Some functions =>
          match functions !! key with
          | None => (inl (KeyError key), g, log)
          | Some f =>
              match call f values g with
              | (inl e, g') => (inl (Raised e), g', log ++ [(f, values, inl e)])
              | (inr value, g') =>
                  dag_loop rest values (dict_set key value returns)
                           (log ++ [(f, values, inr value)]) g'
              end
          end
      end
  end.

(** [wrapper_DAG] of the decorator built from [keys] and applied to
    [func], called with the positional arguments [args] and the keyword
    arguments [kwargs]. *)
Definition wrapper_DAG (keys : list pystr) (func : Fn) (args : list V)
    (kwargs : list (pystr * V)) (g : Globals Fn St)
    : (dag_exn E + list (pystr * V)) * Globals Fn St * list call_record :=
  dag_loop keys kwargs.*2 [] [] g.

(** [DAG(dag_path)(func)], where [lines] are the lines that iterating
    over the opened file yields. *)
Definition DAG (lines : list pystr) (func : Fn)
    : list V -> list (pystr * V) -> Globals Fn St ->
      (dag_exn E + list (pystr * V)) * Globals Fn St * list call_record :=
  wrapper_DAG (strip <$> lines) func.

(** The globals after registering the functions [funcs] in order. *)
Definition register_all (funcs : list Fn) (g : Globals Fn St) : Globals Fn St :=
  foldl (fun g func => (register func g).2) g funcs.

End Wrapper.

Arguments register {Fn St}.
Arguments register_all {Fn St}.
Arguments dag_loop {Fn V E St}.
Arguments wrapper_DAG {Fn V E St}.
Arguments DAG {Fn V E St}.

End Dag.

(** An event that [clean] can record. *)
Definition is_clean_event (e : event) : bool :=
  match e with
  | EvSaveCos _ | EvSaveJobs _ _ | EvSpawnCleaner => true
  | _ => false
  end.

Definition is_monitor_stop (e : event) : bool :=
  match e with
  | EvMonitorStop _ => true
  | _ => false
  end.

Definition is_spawn_cleaner (e : event) : bool :=
  match e with
  | EvSpawnCleaner => true
  | _ => false
  end.

(** Registered functions to run the DAG wrapper on: a function has a
    name and an offset, and a call returns the offset plus the sum of
    its arguments and counts itself in the state. *)
Module DagExample.
Import Dag.

Definition call (f : pystr * Z) (values : list Z) (g : Globals (pystr * Z) nat)
    : (string + Z) * Globals (pystr * Z) nat :=
  (inr (f.2 + foldr Z.add 0 values), mkGlobals (FUNCTIONS g) (S (user g))).

(** The names [f] and [g]. *)
Definition f_name : pystr := [102%N].
Definition g_name : pystr := [103%N].

(** [f] and [g] registered, [f] a second time with another body. *)
Definition globals : Globals (pystr * Z) nat :=
  register_all fst [(f_name, 1); (g_name, 2); (f_name, 3)] (mkGlobals None 0%nat).

End DagExample.


(** ** A concrete set of collaborators

    Used to run the model on explicit inputs. *)

Module Example.

(** Callables are named; data items are already serialized; the wait
    engine leaves the futures as they are and raises [outcome], if any.
    A function has the source file [code] gives it, one module file
    goes with every function, and making its directory raises the
    [OSError] with errno [makedirs], if any. *)
Definition collaborators_on (code : string -> option string) (makedirs : option Z)
    (outcome : option exn) : Collaborators := {|
  Func := string;
  Data := bytes;
  Val := Z;
  SERVERLESS := "serverless";
  STANDALONE := "standalone";
  LOCALHOST := "localhost";
  MAX_AGG_DATA_SIZE := 4;
  JOBS_PREFIX := "lithops.jobs";
  CUSTOM_RUNTIME_DIR := "/tmp/lithops/runtime";
  FAAS_BACKENDS := ["ibm_cf"; "aws_lambda"]%string;
  create_job_key := fun e j => e +:+ "-" +:+ j;
  create_func_key := fun p e j => p +:+ "/" +:+ e +:+ "-" +:+ j +:+ "/func.pickle";
  create_agg_data_key := fun p e j => p +:+ "/" +:+ e +:+ "-" +:+ j +:+ "/aggdata.pickle";
  func_key_suffix := "func.pickle";
  function_name_of := fun f => f;
  dumps_data := fun d => d;
  pickle_func_module := fun _ _ => [];
  ext_runtime_uuid_of := fun f _ => f;
  path_join := fun a b => a +:+ "/" +:+ b;
  code_filename := code;
  read_error := fun _ => None;
  write_error := fun _ => None;
  module_data_of := fun _ _ => [("/lib/helper.py", [Byte.x23])]%string;
  path_dirname := fun _ => "/lib";
  path_basename := fun _ => "helper.py";
  makedirs_exist_ok_error := fun _ => None;
  makedirs_error := fun _ _ => makedirs;
  agg_data := fun l => (concat l, []);
  verify_args := fun _ d => inr d;
  create_partitions := fun _ _ => None;
  futures_arg := fun l => (fun r => default Byte.x00 (Byte.of_nat r)) <$> l;
  future_arg := fun _ => [];
  is_notebook := false;
  none_val := 0;
  WaitOpts := unit;
  default_wait_opts := tt;
  ext_wait := fun h _ _ _ _ => (h, outcome)
|}.

(** Every function has a readable source file and every directory can
    be made. *)
Definition collaborators_with (outcome : option exn) : Collaborators :=
  collaborators_on (fun f => Some (f +:+ ".py")) None outcome.

Definition collaborators : Collaborators := collaborators_with None.

Definition failing : Collaborators :=
  collaborators_with (Some (ExternalError "remote call failed")).

Definition config (mode backend : string) (execution_timeout : Z)
    (data_limit : option pyval) : Config :=
  mkConfig mode backend 1 1 execution_timeout data_limit None 256 600 3600 false.

Definition executor (mode : string) : Executor :=
  mkExecutor (config mode "ibm_cf" 1800 None) "a1b2c3-0" true false.

(** A future of job [job_id] of the executor [a1b2c3-0]. *)
Definition future (job_id : string) (done read : bool) (v : Z) : Future Z :=
  mkFuture "a1b2c3-0" job_id ("a1b2c3-0-" +:+ job_id) 0 done done [] true read v.

(** An executor that has made one [call_async]. *)
Definition world_with (outcome : option exn) (h : nat -> Future Z) (n : nat)
    (futs : list nat) : @World (collaborators_with outcome) :=
  @mkWorld (collaborators_with outcome) h n [] futs ∅ 1%nat (Some "call_async"%string).

Definition world : (nat -> Future Z) -> nat -> list nat -> @World collaborators :=
  world_with None.

(** Two done futures of job [A000]: the first unread with result 7,
    the second already read with result 9. *)
Definition results (r : nat) : Future Z :=
  match r with
  | O => future "A000" true false 7
  | _ => future "A000" true true 9
  end.

Definition fresh : @World collaborators :=
  @init_world collaborators (fun _ => future "A000" false false 0) 0.

(** A map job over two objects, split in two parts and in one part. *)
Definition map_job : Job :=
  mkJob 1 1 595 "a1b2c3-0" "M000" "a1b2c3-0-M000" "f" 3 (Some 1) (Some (Some 256))
        (Some (Some 600)) "lithops.jobs/a1b2c3-0-M000/func.pickle" None None None None
        (Some [[Byte.x41]; [Byte.x42]; [Byte.x43]]) 3 0 (Some [2; 1]).

End Example.

Module CleanExample.
Import Example.

(** Two futures of job [M000]: the first is done, the second is not. *)
Definition h (r : nat) : Future Z :=
  match r with
  | O => future "M000" true false 7
  | _ => future "M000" false false 0
  end.

Definition w : @World collaborators := world h 2 [0; 1]%nat.

End CleanExample.

(** ** Vocabulary of the properties *)

Definition sum_Z (l : list Z) : Z := foldr Z.add 0 l.

(** The distinct elements of [l], in the order of their first
    occurrence. *)
Fixpoint first_occurrences {A} `{EqDecision A} (l : list A) : list A :=
  match l with
  | [] => []
  | x :: rest => x :: filter (fun y => y ≠ x) (first_occurrences rest)
  end.

(** Index in [map_futures] where the futures of object [i] start. *)
Definition partition_offset (ppo : list Z) (i : nat) : Z := sum_Z (take i ppo).

(** The job-key sets handed to the cleaner, in order. *)
Definition saved_jobs (t : list event) : list (gset string) :=
  omap (fun e => match e with EvSaveJobs s _ => Some s | _ => None end) t.

Fixpoint pairwise_disjoint (l : list (gset string)) : Prop :=
  match l with
  | [] => True
  | s :: rest => Forall (fun s' => s ## s') rest /\ pairwise_disjoint rest
  end.

Definition is_save_jobs (e : event) : bool :=
  match e with
  | EvSaveJobs _ _ => true
  | _ => false
  end.

(** The job ids of a session, as [select_runtime] received them. *)
Definition job_ids (t : list event) : list string :=
  omap (fun e => match e with EvSelectRuntime j => Some j | _ => None end) t.

Definition is_select_runtime (e : event) : bool :=
  match e with
  | EvSelectRuntime _ => true
  | _ => false
  end.

(** The job id with call-type tag [tag] and counter [k]. *)
Definition render_job_id (entry : string * nat) : string :=
  entry.1 +:+ zfill 3 (str_of_nat entry.2).

(** The counters never decrease along the log and increase between two
    entries of the same tag. *)
Definition increasing_log (log : list (string * nat)) : Prop :=
  forall i j t1 k1 t2 k2,
    (i < j)%nat -> log !! i = Some (t1, k1) -> log !! j = Some (t2, k2) ->
    (k1 <= k2)%nat /\ (t1 = t2 -> (k1 < k2)%nat).

Definition call_tags : list string := ["A"; "M"; "R"]%string.

(** The logged ids are those of [log], whose counters are below [n]. *)
Definition job_log (log : list (string * nat)) (ids : list string) (n : nat) : Prop :=
  ids = render_job_id <$> log /\
  Forall (fun entry => entry.1 ∈ call_tags /\ (entry.2 < n)%nat) log /\
  increasing_log log.

Section Vocabulary.
Context `{Collaborators}.

(** [m] keeps [P], whether it returns or raises. *)
Definition preserves {A} (P : World -> Prop) (m : M A) : Prop :=
  forall w, P w -> P (m w).2.

(** The world [w] with the events [t] recorded after its trace. *)
Definition recorded (w : World) (t : list event) : World :=
  mkWorld (heap w) (next_ref w) (trace w ++ t) (futures w)
          (cleaned_jobs w) (total_jobs w) (last_call w).

(** The module files written under [job_tmp_dir], in order. *)
Definition module_events (job_tmp_dir : string) (module_data : list (string * bytes))
    : list event :=
  (fun m => EvStoreModule (module_file job_tmp_dir m.1).2 m.2) <$> module_data.

(** The files of a customized runtime: the function file, then the
    module files. *)
Definition local_files (job_tmp_dir func_key : string)
    (module_data : list (string * bytes)) : list event :=
  EvStoreLocal job_tmp_dir func_key :: module_events job_tmp_dir module_data.

(** The directory of every module file can be made, or exists already
    (errno 17), and the file can be written; [n] is the number of
    module files stored before. *)
Definition modules_storable (job_tmp_dir : string) (n : nat)
    (module_data : list (string * bytes)) : Prop :=
  forall i m, module_data !! i = Some m ->
    (makedirs_error (n + i) (module_file job_tmp_dir m.1).1 = None \/
     makedirs_error (n + i) (module_file job_tmp_dir m.1).1 = Some 17) /\
    write_error (module_file job_tmp_dir m.1).2 = None.

Definition storable (job_tmp_dir func_key : string)
    (module_data : list (string * bytes)) : Prop :=
  makedirs_exist_ok_error job_tmp_dir = None /\
  write_error (path_join job_tmp_dir func_key) = None /\
  modules_storable job_tmp_dir 0 module_data.

(** The world after a call of [clean] that recorded the events [t] and
    added the jobs [s] to [cleaned_jobs]. *)
Definition after_clean (w : World) (t : list event) (s : gset string) : World :=
  mkWorld (heap w) (next_ref w) (trace w ++ t) (futures w)
          (cleaned_jobs w ∪ s) (total_jobs w) (last_call w).

(** [cs and not fs]: the call returns after saving the cloudobjects. *)
Definition clean_returns_early (fs : fs_arg) (cs : list string) : bool :=
  negb (bool_decide (cs = [])) && negb (fs_truthy fs).

(** [fs] is a non-empty [FuturesList]: the call raises when it reads
    the jobs of the futures. *)
Definition clean_raises (fs : fs_arg) : bool :=
  match fs with
  | FsFuturesList (_ :: _) => true
  | _ => false
  end.

(** What a call of [clean] returns or raises. *)
Definition clean_outcome (fs : fs_arg) : exn + unit :=
  if clean_raises fs then inl AttributeError else inr tt.

(** The job keys a call of [clean] hands to the cleaner. *)
Definition clean_jobs (w : World) (fs : fs_arg) (cs : list string) (force : bool)
    : gset string :=
  if clean_returns_early fs cs || clean_raises fs then ∅ else jobs_to_clean w fs force.

Definition clean_events (w : World) (fs : fs_arg) (cs : list string)
    (clean_cloudobjects spawn_cleaner force : bool) : list event :=
  let s := clean_jobs w fs cs force in
  (if bool_decide (cs = []) then [] else [EvSaveCos cs]) ++
  (if clean_returns_early fs cs || clean_raises fs then []
   else
     (if bool_decide (s = ∅) then [] else [EvSaveJobs s clean_cloudobjects]) ++
     (if (negb (bool_decide (s = ∅)) || negb (bool_decide (cs = []))) && spawn_cleaner
      then [EvSpawnCleaner] else [])).

Definition cleaned_inv (Q : list (gset string) -> gset string -> Prop) (w : World) : Prop :=
  Q (saved_jobs (trace w)) (cleaned_jobs w).

(** The world once the [except] block has stopped the invoker and, in
    a notebook without [fs], emptied [self.futures]. *)
Definition stopped (fs : fs_arg) (w : World) : World :=
  mkWorld (heap w) (next_ref w) (trace w ++ [EvInvokerStop])
          (if negb (fs_truthy fs) && is_notebook then [] else futures w)
          (cleaned_jobs w) (total_jobs w) (last_call w).

(** [if self.data_cleaner and not self.is_lithops_worker:
      self.clean(clean_cloudobjects=False, force=True)] *)
Definition forced_clean (self : Executor) (w : World) : World :=
  if cleaner_on self then (clean self FsNone [] false true true w).2 else w.

(** [fs_done] and [fs_notdone] of [wait], read in the heap [h]. *)
Definition done_futures (h : nat -> Future Val) (download_results : bool)
    (futs : list nat) : list nat * list nat :=
  if download_results
  then (filter (fun r => Is_true (f_done (h r))) futs,
        filter (fun r => Is_true (negb (f_done (h r)))) futs)
  else (filter (fun r => Is_true (f_success (h r) || f_done (h r))) futs,
        filter (fun r => Is_true (negb (f_success (h r)) && negb (f_done (h r)))) futs).

(** The futures [get_result] looks at: done, without children, and
    producing output, in the heap [h]. *)
Definition eligible (h : nat -> Future Val) (futs : list nat) : list nat :=
  filter (fun r => Is_true (deliverable h r))
         (filter (fun r => Is_true (f_done (h r))) futs).

(** The world after [_create_job_id], a write of [last_call] and
    [select_runtime]. *)
Definition job_announced (tag : string) (last : string) (w : World) : World :=
  mkWorld (heap w) (next_ref w)
          (trace w ++ [EvSelectRuntime (tag +:+ zfill 3 (str_of_nat (total_jobs w)))])
          (futures w) (cleaned_jobs w) (total_jobs w + 1)%nat (Some last).

(** The logged job ids are [ids] and the counter is [n]: a method that
    keeps this neither creates a job id nor moves the counter. *)
Definition ids_frame (ids : list string) (n : nat) (w : World) : Prop :=
  job_ids (trace w) = ids /\ total_jobs w = n.

(** Some log accounts for the job ids of the trace. *)
Definition session_log (w : World) : Prop :=
  exists log, job_log log (job_ids (trace w)) (total_jobs w).

End Vocabulary.

(** ** Properties of the job builder *)

Ltac run_m :=
  unfold mbind, M_bind, mret, M_ret, bind, ret, raise, emit, modify, get in *;
  simpl in *.

Section JobBuilderFacts.
Context `{Collaborators}.

Lemma prefix_refl (s : string) : String.prefix s s = true.
Proof.
  induction s as [|a s IH]; simpl; [done|].
  destruct (ascii_dec a a); [done | congruence].
Qed.

Lemma str_in_refl (s : string) : str_in s s = true.
Proof. destruct s; [done|]. cbn [str_in]. by rewrite prefix_refl. Qed.

Lemma recorded_nil w : recorded w [] = w.
Proof. destruct w. unfold recorded. simpl. by rewrite app_nil_r. Qed.

Lemma recorded_app w t1 t2 : recorded (recorded w t1) t2 = recorded w (t1 ++ t2).
Proof. unfold recorded. simpl. by rewrite app_assoc. Qed.

Lemma module_events_cons dir m mods :
  module_events dir (m :: mods)
  = EvStoreModule (module_file dir m.1).2 m.2 :: module_events dir mods.
Proof. reflexivity. Qed.

Lemma modules_storable_cons dir n m mods :
  modules_storable dir n (m :: mods) <->
  ((makedirs_error n (module_file dir m.1).1 = None \/
    makedirs_error n (module_file dir m.1).1 = Some 17) /\
   write_error (module_file dir m.1).2 = None) /\
  modules_storable dir (S n) mods.
Proof.
  unfold modules_storable. split.
  - intros Hall. split.
    + specialize (Hall 0%nat m eq_refl). by rewrite Nat.add_0_r in Hall.
    + intros i m' Hi. specialize (Hall (S i) m' Hi).
      by rewrite Nat.add_succ_r in Hall.
  - intros [Hm Hall] [|i] m' Hi; simpl in Hi.
    + injection Hi as <-. by rewrite Nat.add_0_r.
    + rewrite Nat.add_succ_r. by apply Hall.
Qed.

(** The module loop either stores every file, or stops with the
    [OSError] of the first directory that cannot be made or file that
    cannot be written, the files before it stored. *)
Lemma store_modules_outcome dir mods : forall n w,
  match store_modules dir n mods w with
  | (inr _, w') =>
      modules_storable dir n mods /\ w' = recorded w (module_events dir mods)
  | (inl e, w') =>
      ~ modules_storable dir n mods /\
      exists errno k, e = OSError errno /\ (k < length mods)%nat /\
        w' = recorded w (module_events dir (take k mods))
  end.
Proof.
  induction mods as [|[m_filename m_data] mods IH]; intros n w.
  - simpl. split; [by intros i m Hi | by rewrite recorded_nil].
  - cbn [store_modules].
    destruct (module_file dir m_filename) as [to_make full_filename] eqn:Hf.
    assert (Hcons := modules_storable_cons dir n (m_filename, m_data) mods).
    cbn [fst snd] in Hcons. rewrite Hf in Hcons. cbn [fst snd] in Hcons.
    assert (Hfail : forall errno,
      ~ modules_storable dir n ((m_filename, m_data) :: mods) ->
      ~ modules_storable dir n ((m_filename, m_data) :: mods) /\
      exists errno' k, OSError errno = OSError errno' /\
        (k < length ((m_filename, m_data) :: mods))%nat /\
        w = recorded w (module_events dir (take k ((m_filename, m_data) :: mods)))).
    { intros errno Hno. split; [done|]. exists errno, 0%nat.
      split; [done|]. split; [simpl; lia|]. by rewrite recorded_nil. }
    assert (Hstep : match
        ((match write_error full_filename with
          | Some errno => raise (OSError errno)
          | None => emit (EvStoreModule full_filename m_data)
          end);; store_modules dir (S n) mods) w
      with
      | (inr _, w') =>
          (write_error full_filename = None /\ modules_storable dir (S n) mods) /\
          w' = recorded w (module_events dir ((m_filename, m_data) :: mods))
      | (inl e, w') =>
          ~ (write_error full_filename = None /\ modules_storable dir (S n) mods) /\
          exists errno k, e = OSError errno /\
            (k < length ((m_filename, m_data) :: mods))%nat /\
            w' = recorded w (module_events dir (take k ((m_filename, m_data) :: mods)))
      end).
    { destruct (write_error full_filename) as [errno|] eqn:Hw.
      - unfold mbind, M_bind, bind, raise. split; [by intros [? _]|].
        exists errno, 0%nat. split; [done|]. split; [simpl; lia|].
        by rewrite recorded_nil.
      - unfold mbind, M_bind, bind, emit, modify.
        fold (recorded w [EvStoreModule full_filename m_data]).
        specialize (IH (S n) (recorded w [EvStoreModule full_filename m_data])).
        destruct (store_modules dir (S n) mods
                    (recorded w [EvStoreModule full_filename m_data]))
          as [[e|u] w'].
        + destruct IH as (Hno & errno & k & -> & Hk & ->).
          split; [by intros [_ ?]|].
          exists errno, (S k). split; [done|]. split; [simpl; lia|].
          rewrite recorded_app, firstn_cons, module_events_cons. cbn [fst snd].
          by rewrite Hf.
        + destruct IH as (Hyes & ->). split; [done|].
          rewrite recorded_app, module_events_cons. cbn [fst snd].
          by rewrite Hf. }
    destruct (makedirs_error n to_make) as [errno|] eqn:Hm.
    + destruct (Z.eqb_spec errno 17) as [->|Hne].
      * unfold mbind at 1, M_bind at 1, bind at 1. unfold mret at 1, M_ret at 1, ret at 1.
        match type of Hstep with
        | match ?t with _ => _ end => destruct t as [[e|u] w']
        end.
        -- destruct Hstep as [Hno Hex]. split; [|done].
           rewrite Hcons. intros [[_ ?] ?]. by apply Hno.
        -- destruct Hstep as [[Hw Hyes] ->]. split; [|done].
           apply Hcons. split; [split; [by right | done] | done].
      * unfold mbind at 1, M_bind at 1, bind at 1, raise.
        apply Hfail. rewrite Hcons. intros [[[?|Heq] _] _]; [done|].
        by injection Heq.
    + unfold mbind at 1, M_bind at 1, bind at 1. unfold mret at 1, M_ret at 1, ret at 1.
      match type of Hstep with
      | match ?t with _ => _ end => destruct t as [[e|u] w']
      end.
      * destruct Hstep as [Hno Hex]. split; [|done].
        rewrite Hcons. intros [[_ ?] ?]. by apply Hno.
      * destruct Hstep as [[Hw Hyes] ->]. split; [|done].
        apply Hcons. split; [split; [by left | done] | done].
Qed.

(** [_store_func_and_modules] either stores the function file and every
    module file, or stops with an [OSError], a proper prefix of the
    files stored. *)
Lemma _store_func_and_modules_outcome dir key mods w :
  match _store_func_and_modules dir key mods w with
  | (inr _, w') =>
      storable dir key mods /\ w' = recorded w (local_files dir key mods)
  | (inl e, w') =>
      ~ storable dir key mods /\
      exists errno k, e = OSError errno /\ (k <= length mods)%nat /\
        w' = recorded w (take k (local_files dir key mods))
  end.
Proof.
  unfold _store_func_and_modules, storable.
  destruct (makedirs_exist_ok_error dir) as [errno|] eqn:Hd.
  { unfold mbind, M_bind, bind, raise. split; [by intros [? _]|].
    exists errno, 0%nat. split; [done|]. split; [lia|]. by rewrite recorded_nil. }
  destruct (write_error (path_join dir key)) as [errno|] eqn:Hw.
  { unfold mbind, M_bind, bind, mret, M_ret, ret, raise. split; [by intros (_ & ? & _)|].
    exists errno, 0%nat. split; [done|]. split; [lia|]. by rewrite recorded_nil. }
  unfold mbind, M_bind, bind, mret, M_ret, ret, emit, modify.
  fold (recorded w [EvStoreLocal dir key]).
  pose proof (store_modules_outcome dir mods 0 (recorded w [EvStoreLocal dir key])) as Hs.
  destruct (store_modules dir 0 mods (recorded w [EvStoreLocal dir key])) as [[e|u] w'].
  - destruct Hs as (Hno & errno & k & -> & Hk & ->). split; [by intros (_ & _ & ?)|].
    exists errno, (S k). split; [done|]. split; [lia|].
    rewrite recorded_app. unfold local_files, module_events.
    by rewrite firstn_cons, fmap_take.
  - destruct Hs as [Hyes ->]. split; [done|]. by rewrite recorded_app.
Qed.

(** A build that returns: the limit was not exceeded, there is a first
    data element, with a customized runtime the source file of the
    function was read and the local files were stored, and the job and
    the world are these. *)
Lemma _create_job_inr config eid jid func iterdata mem et cs wp ipt w job w' :
  _create_job config eid jid func iterdata mem et cs wp ipt w = (inr job, w') ->
  exists first rest,
    dumps_data <$> iterdata = first :: rest /\
    exceeds_data_limit config (dumps_data <$> iterdata) = false /\
    let data_strs := dumps_data <$> iterdata in
    let uuid := ext_runtime_uuid_of func iterdata in
    let dir := path_join CUSTOM_RUNTIME_DIR uuid in
    let mods := module_data_of func iterdata in
    let custom := cfg_customized_runtime config in
    let up := upload_data config (or_int cs (cfg_chunksize config)) first in
    let budget := resolve_budget config mem et ipt in
    (custom = true ->
       exists function_file,
         code_filename func = Some function_file /\ read_error function_file = None /\
         storable dir func_key_suffix mods) /\
    w' = recorded w
           ((if custom then local_files dir func_key_suffix mods
             else [EvPutFunc (create_func_key JOBS_PREFIX eid jid)
                             (pickle_func_module func iterdata)]) ++
            (if up then [EvPutData (create_agg_data_key JOBS_PREFIX eid jid)
                                   (agg_data data_strs).1]
             else [])) /\
    job = mkJob (or_int cs (cfg_chunksize config))
                (or_int wp (cfg_worker_processes config))
                budget.2 eid jid (create_job_key eid jid) (function_name_of func)
                (length iterdata) budget.1.1.1 budget.1.1.2 budget.1.2
                (if custom then func_key_suffix else create_func_key JOBS_PREFIX eid jid)
                (if custom then Some uuid else None)
                (if custom then Some dir else None)
                (if up then Some (create_agg_data_key JOBS_PREFIX eid jid) else None)
                (if up then Some (agg_data data_strs).2 else None)
                (if up then None else Some data_strs)
                (total_size data_strs)
                (Z.of_nat (length (pickle_func_module func iterdata))) None.
Proof.
  unfold _create_job.
  destruct (resolve_budget config mem et ipt) as [[[b1 b2] b3] b4] eqn:Hb.
  destruct (exceeds_data_limit config (dumps_data <$> iterdata)) eqn:Hx; [done|].
  destruct (dumps_data <$> iterdata) as [|first rest] eqn:Hd; [done|].
  intros Hrun. exists first, rest. split; [done|]. split; [done|]. cbv zeta.
  destruct (cfg_customized_runtime config) eqn:Hc; cbn [negb] in Hrun.
  - destruct (code_filename func) as [function_file|] eqn:Hcode; [|done].
    destruct (read_error function_file) as [errno|] eqn:Hread; [done|].
    pose proof (_store_func_and_modules_outcome
                  (path_join CUSTOM_RUNTIME_DIR (ext_runtime_uuid_of func iterdata))
                  func_key_suffix (module_data_of func iterdata) w) as Hs.
    remember (_store_func_and_modules
                (path_join CUSTOM_RUNTIME_DIR (ext_runtime_uuid_of func iterdata))
                func_key_suffix (module_data_of func iterdata)) as store eqn:Hstore.
    unfold mbind, M_bind, bind in Hrun.
    destruct (store w) as [[e|u] w1]; [done|].
    destruct Hs as [Hyes ->].
    split; [intros _; by exists function_file|].
    destruct (upload_data config (or_int cs (cfg_chunksize config)) first) eqn:Hu;
      destruct (agg_data (first :: rest)) as [db ranges] eqn:Ha;
      run_m; inversion Hrun; subst; simpl;
      unfold recorded; simpl; rewrite <- ?app_assoc, ?app_nil_r; done.
  - split; [done|].
    destruct (upload_data config (or_int cs (cfg_chunksize config)) first) eqn:Hu;
      destruct (agg_data (first :: rest)) as [db ranges] eqn:Ha;
      run_m; inversion Hrun; subst; simpl;
      unfold recorded; simpl; rewrite <- ?app_assoc, ?app_nil_r; done.
Qed.

(** What a build that returns has done: the limit was not exceeded,
    there is a first data element, and every attribute is determined
    by the two upload decisions. *)
Lemma _create_job_returns config eid jid func iterdata mem et cs wp ipt w job w' :
  _create_job config eid jid func iterdata mem et cs wp ipt w = (inr job, w') ->
  exists first rest,
    dumps_data <$> iterdata = first :: rest /\
    exceeds_data_limit config (dumps_data <$> iterdata) = false /\
    chunksize job = or_int cs (cfg_chunksize config) /\
    execution_timeout job = (resolve_budget config mem et ipt).2 /\
    runtime_timeout job = (resolve_budget config mem et ipt).1.2 /\
    job_key job = create_job_key eid jid /\
    total_calls job = length iterdata /\
    parts_per_object job = None /\
    (if upload_data config (chunksize job) first
     then data_key job = Some (create_agg_data_key JOBS_PREFIX eid jid) /\
          data_byte_ranges job = Some (agg_data (dumps_data <$> iterdata)).2 /\
          data_byte_strs job = None
     else data_key job = None /\
          data_byte_ranges job = None /\
          data_byte_strs job = Some (dumps_data <$> iterdata)).
Proof.
  intros Hrun.
  destruct (_create_job_inr _ _ _ _ _ _ _ _ _ _ _ _ _ Hrun)
    as (first & rest & Hd & Hx & _ & _ & ->).
  exists first, rest. cbn [chunksize execution_timeout runtime_timeout job_key total_calls
    parts_per_object data_key data_byte_ranges data_byte_strs].
  do 8 (split; [done|]).
  by destruct (upload_data config (or_int cs (cfg_chunksize config)) first).
Qed.

(** A build that raises: the limit is exceeded; or there is no data;
    or the runtime is customized and the function has no code object,
    or its source file cannot be read, or the local files cannot all be
    stored.  Only the last one leaves a mark: a proper prefix of the
    local files. *)
Lemma _create_job_inl config eid jid func iterdata mem et cs wp ipt w e w' :
  _create_job config eid jid func iterdata mem et cs wp ipt w = (inl e, w') ->
  let dir := path_join CUSTOM_RUNTIME_DIR (ext_runtime_uuid_of func iterdata) in
  let mods := module_data_of func iterdata in
  if exceeds_data_limit config (dumps_data <$> iterdata)
  then e = DataLimitExceeded (num (data_limit_of config) * 1024 ^ 2) /\ w' = w
  else
    match iterdata with
    | [] => e = IndexError /\ w' = w
    | _ :: _ =>
        cfg_customized_runtime config = true /\
        match code_filename func with
        | None => e = AttributeError /\ w' = w
        | Some function_file =>
            match read_error function_file with
            | Some errno => e = OSError errno /\ w' = w
            | None =>
                ~ storable dir func_key_suffix mods /\
                exists errno k, e = OSError errno /\ (k <= length mods)%nat /\
                  w' = recorded w (take k (local_files dir func_key_suffix mods))
            end
        end
    end.
Proof.
  unfold _create_job.
  destruct (resolve_budget config mem et ipt) as [[[b1 b2] b3] b4].
  destruct (exceeds_data_limit config (dumps_data <$> iterdata)) eqn:Hx.
  { intros Hrun. cbv zeta. unfold raise in Hrun. by injection Hrun as <- <-. }
  destruct iterdata as [|d iterdata].
  { intros Hrun. cbv zeta. simpl in Hrun. unfold raise in Hrun. by injection Hrun as <- <-. }
  rewrite fmap_cons. intros Hrun. cbv zeta.
  destruct (cfg_customized_runtime config) eqn:Hc; cbn [negb] in Hrun.
  - split; [done|].
    destruct (code_filename func) as [function_file|] eqn:Hcode;
      [|unfold mbind, M_bind, bind, raise in Hrun; by injection Hrun as <- <-].
    destruct (read_error function_file) as [errno|] eqn:Hread;
      [unfold mbind, M_bind, bind, raise in Hrun; by injection Hrun as <- <-|].
    pose proof (_store_func_and_modules_outcome
                  (path_join CUSTOM_RUNTIME_DIR (ext_runtime_uuid_of func (d :: iterdata)))
                  func_key_suffix (module_data_of func (d :: iterdata)) w) as Hs.
    remember (_store_func_and_modules
                (path_join CUSTOM_RUNTIME_DIR (ext_runtime_uuid_of func (d :: iterdata)))
                func_key_suffix (module_data_of func (d :: iterdata))) as store eqn:Hstore.
    unfold mbind, M_bind, bind in Hrun.
    destruct (store w) as [[e0|u] w1].
    + by injection Hrun as <- <-.
    + exfalso.
      destruct (upload_data config (or_int cs (cfg_chunksize config)) (dumps_data d));
        destruct (agg_data (dumps_data d :: (dumps_data <$> iterdata))) as [db ranges];
        run_m; discriminate.
  - exfalso.
    destruct (upload_data config (or_int cs (cfg_chunksize config)) (dumps_data d));
      destruct (agg_data (dumps_data d :: (dumps_data <$> iterdata))) as [db ranges];
      run_m; discriminate.
Qed.

(** Without a customized runtime, a build within the limit and with
    some data returns a job. *)
Lemma _create_job_builds config eid jid func iterdata mem et cs wp ipt w :
  cfg_customized_runtime config = false ->
  exceeds_data_limit config (dumps_data <$> iterdata) = false ->
  iterdata ≠ [] ->
  exists job w', _create_job config eid jid func iterdata mem et cs wp ipt w = (inr job, w').
Proof.
  intros Hc Hx Hd.
  destruct (_create_job config eid jid func iterdata mem et cs wp ipt w)
    as [[e|job] w'] eqn:Hrun; [|by eauto].
  apply _create_job_inl in Hrun. cbv zeta in Hrun. rewrite Hx in Hrun.
  destruct iterdata; [done|]. destruct Hrun as [Hrun _]. congruence.
Qed.

(** A build that exceeds a limit in force raises and touches nothing. *)
Lemma _create_job_exceeds config eid jid func iterdata mem et cs wp ipt w :
  exceeds_data_limit config (dumps_data <$> iterdata) = true ->
  _create_job config eid jid func iterdata mem et cs wp ipt w
  = (inl (DataLimitExceeded (num (data_limit_of config) * 1024 ^ 2)), w).
Proof.
  intros Hx. unfold _create_job.
  destruct (resolve_budget config mem et ipt) as [[[b1 b2] b3] b4].
  by rewrite Hx.
Qed.

Lemma exceeds_data_limit_true config data_strs :
  truthy (data_limit_of config) = true ->
  num (data_limit_of config) * 1024 ^ 2 < total_size data_strs ->
  exceeds_data_limit config data_strs = true.
Proof.
  intros Ht Hlt. unfold exceeds_data_limit. rewrite Ht. simpl.
  by apply Z.ltb_lt.
Qed.

End JobBuilderFacts.

Section JobBuilderClaims.
Context `{Collaborators}.

(** C3. A job that [_create_job] returns in serverless mode has its
    execution timeout clamped to the runtime timeout minus 5 when the
    requested one is greater or equal, and in standalone mode to the
    hard-dismantle timeout minus 10; in both modes the job's execution
    timeout ends strictly below that runtime timeout.  The standalone
    branch is the one a mode other than [SERVERLESS] takes when it is
    a substring of [STANDALONE], as [STANDALONE] itself is. *)
Theorem execution_timeout_clamped
    config eid jid func iterdata mem et cs wp ipt w job w' :
  _create_job config eid jid func iterdata mem et cs wp ipt w = (inr job, w') ->
  let requested := or_int et (cfg_execution_timeout config) in
  (cfg_mode config = SERVERLESS ->
     let rt := cfg_runtime_timeout config in
     runtime_timeout job = Some (Some rt) /\
     (rt <= requested -> execution_timeout job = rt - 5) /\
     (requested < rt -> execution_timeout job = requested) /\
     execution_timeout job < rt) /\
  (cfg_mode config ≠ SERVERLESS -> str_in (cfg_mode config) STANDALONE = true ->
     let rt := cfg_hard_dismantle_timeout config in
     (rt <= requested -> execution_timeout job = rt - 10) /\
     (requested < rt -> execution_timeout job = requested) /\
     execution_timeout job < rt) /\
  str_in STANDALONE STANDALONE = true.
Proof.
  intros Hrun requested.
  destruct (_create_job_returns _ _ _ _ _ _ _ _ _ _ _ _ _ Hrun)
    as (first & rest & _ & _ & _ & Het & Hrt & _).
  unfold resolve_budget, mode_branch in Het, Hrt.
  split; [|split; [|apply str_in_refl]].
  - intros Hmode rt. rewrite Hmode, String.eqb_refl in Het, Hrt.
    simpl in Het, Hrt. fold requested rt in Het.
    destruct (Z.leb_spec rt requested); repeat split; try done; lia.
  - intros Hne Hin rt.
    destruct (String.eqb_spec (cfg_mode config) SERVERLESS); [done|].
    rewrite Hin in Het. simpl in Het. fold requested rt in Het.
    destruct (Z.leb_spec rt requested); repeat split; try done; lia.
Qed.

(** C10. In a job build that returns, the data is passed inline
    ([data_key] is [None]) exactly when the backend is a FaaS backend
    and [len(str(data_strs[0]))] times the job's chunksize is below
    9632 (8*1204); then [data_byte_ranges] is [None] and
    [data_byte_strs] holds every serialized element.  A build with the
    same first element, chunksize and configuration takes the same
    decision whatever its other elements are. *)
Theorem inline_data_decided_by_first_element
    config eid jid func iterdata mem et cs wp ipt w job w' :
  _create_job config eid jid func iterdata mem et cs wp ipt w = (inr job, w') ->
  exists first rest,
    dumps_data <$> iterdata = first :: rest /\
    (data_key job = None <->
       cfg_backend config ∈ FAAS_BACKENDS /\
       len_str_bytes first * chunksize job < 9632) /\
    (data_key job = None ->
       data_byte_ranges job = None /\
       data_byte_strs job = Some (dumps_data <$> iterdata)) /\
    (forall eid2 jid2 func2 iterdata2 rest2 mem2 et2 wp2 ipt2 w2 job2 w2',
       dumps_data <$> iterdata2 = first :: rest2 ->
       _create_job config eid2 jid2 func2 iterdata2 mem2 et2 cs wp2 ipt2 w2
       = (inr job2, w2') ->
       (data_key job2 = None <-> data_key job = None)).
Proof.
  intros Hrun.
  destruct (_create_job_returns _ _ _ _ _ _ _ _ _ _ _ _ _ Hrun)
    as (first & rest & Hd & _ & Hcs & _ & _ & _ & _ & _ & Hup).
  assert (Hdec : forall c, upload_data config c first = false <->
            cfg_backend config ∈ FAAS_BACKENDS /\ len_str_bytes first * c < 9632).
  { intros c. unfold upload_data. rewrite negb_false_iff, andb_true_iff.
    rewrite Z.ltb_lt, bool_decide_eq_true. change (8 * 1204) with 9632. tauto. }
  exists first, rest. split; [done|].
  assert (Hkey : data_key job = None <-> upload_data config (chunksize job) first = false).
  { destruct (upload_data config (chunksize job) first);
      destruct Hup as (Hk & _); rewrite Hk; split; done. }
  split; [by rewrite Hkey, Hdec|].
  split.
  - intros Hnone. apply Hkey in Hnone. rewrite Hnone in Hup. tauto.
  - intros eid2 jid2 func2 iterdata2 rest2 mem2 et2 wp2 ipt2 w2 job2 w2' Hd2 Hrun2.
    destruct (_create_job_returns _ _ _ _ _ _ _ _ _ _ _ _ _ Hrun2)
      as (first2 & rest2' & Hd2' & _ & Hcs2 & _ & _ & _ & _ & _ & Hup2).
    rewrite Hd2 in Hd2'. injection Hd2' as <- <-.
    rewrite Hkey. rewrite Hcs2, <- Hcs in Hup2.
    destruct (upload_data config (chunksize job) first);
      destruct Hup2 as (Hk & _); rewrite Hk; split; done.
Qed.

End JobBuilderClaims.

Lemma execution_timeout_clamped_witness :
  (exists job w',
     @_create_job Example.collaborators
       (Example.config "serverless" "ibm_cf" 1800 None) "a1b2c3-0" "M000" "f"%string
       [[Byte.x41]] None None None None None Example.fresh = (inr job, w') /\
     execution_timeout job = 595 /\ execution_timeout job < 600) /\
  (exists job w',
     @_create_job Example.collaborators
       (Example.config "standalone" "ibm_vpc" 1800 None) "a1b2c3-0" "M000" "f"%string
       [[Byte.x41]] None (Some 4000) None None None Example.fresh = (inr job, w') /\
     execution_timeout job = 3590 /\ execution_timeout job < 3600).
Proof.
  split.
  - destruct (@_create_job Example.collaborators
       (Example.config "serverless" "ibm_cf" 1800 None) "a1b2c3-0" "M000" "f"%string
       [[Byte.x41]] None None None None None Example.fresh) as [[e|job] w'] eqn:Hrun;
      [vm_compute in Hrun; discriminate|].
    exists job, w'. split; [reflexivity|].
    destruct (execution_timeout_clamped _ _ _ _ _ _ _ _ _ _ _ _ _ Hrun) as [Hs _].
    destruct (Hs eq_refl) as (_ & Hc & _ & Hlt).
    split; [apply Hc; vm_compute; discriminate | exact Hlt].
  - destruct (@_create_job Example.collaborators
       (Example.config "standalone" "ibm_vpc" 1800 None) "a1b2c3-0" "M000" "f"%string
       [[Byte.x41]] None (Some 4000) None None None Example.fresh) as [[e|job] w'] eqn:Hrun;
      [vm_compute in Hrun; discriminate|].
    exists job, w'. split; [reflexivity|].
    destruct (execution_timeout_clamped _ _ _ _ _ _ _ _ _ _ _ _ _ Hrun) as (_ & Hs & _).
    destruct (Hs ltac:(vm_compute; discriminate) eq_refl) as (Hc & _ & Hlt).
    split; [apply Hc; vm_compute; discriminate | exact Hlt].
Defined.

Lemma inline_data_decided_by_first_element_witness :
  exists job w',
    @_create_job Example.collaborators
      (Example.config "serverless" "ibm_cf" 1800 None) "a1b2c3-0" "M000" "f"%string
      [[Byte.x41]; [Byte.x42; Byte.x43]] None None None None None Example.fresh
    = (inr job, w') /\
    data_key job = None /\
    data_byte_strs job = Some [[Byte.x41]; [Byte.x42; Byte.x43]].
Proof.
  destruct (@_create_job Example.collaborators
      (Example.config "serverless" "ibm_cf" 1800 None) "a1b2c3-0" "M000" "f"%string
      [[Byte.x41]; [Byte.x42; Byte.x43]] None None None None None Example.fresh)
    as [[e|job] w'] eqn:Hrun; [vm_compute in Hrun; discriminate|].
  exists job, w'. split; [reflexivity|].
  destruct (inline_data_decided_by_first_element _ _ _ _ _ _ _ _ _ _ _ _ _ Hrun)
    as (first & rest & Hd & Hiff & Hinl & _).
  injection Hd as <- <-.
  assert (Hk : data_key job = None).
  { apply Hiff. split; [apply (list_elem_of_here (A:=string)) |].
    destruct (_create_job_returns _ _ _ _ _ _ _ _ _ _ _ _ _ Hrun)
      as (_ & _ & _ & _ & Hcs & _). rewrite Hcs. vm_compute. reflexivity. }
  split; [exact Hk | exact (proj2 (Hinl Hk))].
Defined.

(** ** Slices of the map futures *)

Section Slices.
Context {A : Type}.
Implicit Types l : list A.

Lemma slice_nonneg l a t :
  0 <= a -> 0 <= t ->
  slice l a (a + t) = take (Z.to_nat t) (drop (Z.to_nat a) l).
Proof.
  intros Ha Ht. unfold slice.
  destruct (Z.ltb_spec a 0); [lia|].
  destruct (Z.ltb_spec (a + t) 0); [lia|].
  destruct (Z.le_gt_cases a (Z.of_nat (length l))) as [Hin|Hout].
  - rewrite (Z.min_l a) by done.
    destruct (Z.le_gt_cases (a + t) (Z.of_nat (length l))).
    + rewrite Z.min_l by done. f_equal. lia.
    + rewrite Z.min_r by lia.
      rewrite !take_ge; [done | | ]; rewrite length_drop; lia.
  - rewrite !Z.min_r by lia.
    rewrite Z.sub_diag. simpl.
    rewrite (drop_ge l (Z.to_nat a)) by lia.
    by rewrite take_nil.
Qed.

End Slices.

Section OnePerObject.

Lemma sum_Z_nonneg ppo : Forall (fun t => 0 <= t) ppo -> 0 <= sum_Z ppo.
Proof. induction 1; simpl; lia. Qed.

Lemma partition_offset_nonneg ppo i :
  Forall (fun t => 0 <= t) ppo -> 0 <= partition_offset ppo i.
Proof. intros Hp. apply sum_Z_nonneg. by apply Forall_take. Qed.

Lemma length_one_per_object futs prev ppo :
  length (one_per_object futs prev ppo) = length ppo.
Proof. revert prev. induction ppo; intros; simpl; [done | by rewrite IHppo]. Qed.

Lemma one_per_object_lookup futs ppo : forall prev i t,
  Forall (fun t => 0 <= t) ppo -> 0 <= prev ->
  ppo !! i = Some t ->
  one_per_object futs prev ppo !! i
  = Some (take (Z.to_nat t) (drop (Z.to_nat (prev + partition_offset ppo i)) futs)).
Proof.
  induction ppo as [|p ppo IH]; intros prev i t Hp Hprev Hi; [done|].
  apply Forall_cons in Hp as [Hp0 Hp].
  destruct i as [|i]; simpl in *.
  - injection Hi as ->. unfold partition_offset. simpl.
    rewrite Z.add_0_r. by rewrite slice_nonneg.
  - rewrite (IH (prev + p) i t) by (done || lia). unfold partition_offset. simpl.
    by rewrite Z.add_assoc.
Qed.

Lemma concat_one_per_object futs ppo : forall prev,
  Forall (fun t => 0 <= t) ppo -> 0 <= prev ->
  concat (one_per_object futs prev ppo)
  = take (Z.to_nat (sum_Z ppo)) (drop (Z.to_nat prev) futs).
Proof.
  induction ppo as [|p ppo IH]; intros prev Hp Hprev; simpl; [by rewrite take_0|].
  apply Forall_cons in Hp as [Hp0 Hp].
  rewrite slice_nonneg, IH by (done || lia).
  pose proof (sum_Z_nonneg _ Hp).
  rewrite !Z2Nat.inj_add by done.
  rewrite <- drop_drop.
  by rewrite take_take_drop.
Qed.

Lemma partition_offset_step ppo i t :
  ppo !! i = Some t -> partition_offset ppo (S i) = partition_offset ppo i + t.
Proof.
  unfold partition_offset. revert i.
  induction ppo as [|p ppo IH]; intros i Hi; [done|].
  destruct i as [|i]; simpl in *.
  - injection Hi as ->. destruct ppo; simpl; lia.
  - rewrite (IH _ Hi). lia.
Qed.

Lemma partition_offset_mono ppo i j :
  Forall (fun t => 0 <= t) ppo -> (i <= j)%nat ->
  partition_offset ppo i <= partition_offset ppo j.
Proof.
  intros Hp. induction 1 as [|j Hle IH]; [lia|].
  destruct (ppo !! j) as [t|] eqn:Hj.
  - rewrite (partition_offset_step _ _ _ Hj).
    assert (0 <= t) by (eapply (proj1 (Forall_lookup _ _) Hp); done). lia.
  - unfold partition_offset in *. apply lookup_ge_None in Hj.
    rewrite (take_ge ppo (S j)) by lia. by rewrite (take_ge ppo j) in IH by lia.
Qed.

End OnePerObject.

Section ReduceJobClaims.
Context `{Collaborators}.

(** C9 (amended). When the map job carries [parts_per_object],
    [reducer_one_per_object] is set, and the counts are those of the map
    job that [map_futures] belongs to (they are not negative and add up
    to the number of map futures), the reduce inputs are one slice per
    source object: the i-th is the contiguous slice of [map_futures]
    that starts where the futures of object i start and whose length is
    the i-th count; the slices do not overlap and their concatenation,
    in order, is [map_futures].  [create_reduce_job] hands exactly these
    slices, each as the argument tuple of one call, to the argument
    check and builds the job from its result: when the check keeps one
    item per slice, a job that is returned has one Call per source
    object and the serialized items as its data, and without a
    customized runtime, within the data limit and with at least one
    object the job is returned. *)
Theorem one_reducer_per_object (map_job : Job) (map_futures : list nat) (ppo : list Z) :
  parts_per_object map_job = Some ppo ->
  Forall (fun t => 0 <= t) ppo ->
  sum_Z ppo = Z.of_nat (length map_futures) ->
  let slices := reduce_iterdata map_job map_futures true in
  length slices = length ppo /\
  (forall i t, ppo !! i = Some t ->
     exists s, slices !! i = Some s /\
       s = take (Z.to_nat t) (drop (Z.to_nat (partition_offset ppo i)) map_futures) /\
       Z.of_nat (length s) = t /\
       partition_offset ppo i + t <= Z.of_nat (length map_futures)) /\
  (forall i j ti, (i < j)%nat -> ppo !! i = Some ti ->
     partition_offset ppo i + ti <= partition_offset ppo j) /\
  concat slices = map_futures /\
  (forall config eid rid f mem et w,
     create_reduce_job config eid rid f map_job map_futures mem true et w
     = match verify_args f (futures_arg <$> slices) with
       | inl e => (inl e, w)
       | inr d => _create_job config eid rid f d mem et None None (Some 16) w
       end) /\
  (forall config eid rid f mem et w d,
     verify_args f (futures_arg <$> slices) = inr d ->
     length d = length slices ->
     (forall job w',
        create_reduce_job config eid rid f map_job map_futures mem true et w
        = (inr job, w') ->
        total_calls job = length ppo /\
        data_size_bytes job = total_size (dumps_data <$> d) /\
        (data_key job = None -> data_byte_strs job = Some (dumps_data <$> d))) /\
     (ppo ≠ [] ->
      exceeds_data_limit config (dumps_data <$> d) = false ->
      cfg_customized_runtime config = false ->
      exists job w',
        create_reduce_job config eid rid f map_job map_futures mem true et w
        = (inr job, w') /\
        total_calls job = length ppo)).
Proof.
  intros Hppo Hnn Hsum slices.
  assert (Hs : slices = one_per_object map_futures 0 ppo).
  { unfold slices, reduce_iterdata. by rewrite Hppo. }
  assert (Hlen : length slices = length ppo).
  { rewrite Hs. apply length_one_per_object. }
  assert (Hdisj : forall i j ti, (i < j)%nat -> ppo !! i = Some ti ->
            partition_offset ppo i + ti <= partition_offset ppo j).
  { intros i j ti Hij Hi. rewrite <- (partition_offset_step _ _ _ Hi).
    apply partition_offset_mono; [done | lia]. }
  assert (Hall : partition_offset ppo (length ppo) = Z.of_nat (length map_futures)).
  { unfold partition_offset. by rewrite firstn_all. }
  assert (Hbuild : forall config eid rid f mem et w,
     create_reduce_job config eid rid f map_job map_futures mem true et w
     = match verify_args f (futures_arg <$> slices) with
       | inl e => (inl e, w)
       | inr d => _create_job config eid rid f d mem et None None (Some 16) w
       end).
  { intros. unfold create_reduce_job. fold slices.
    by destruct (verify_args f (futures_arg <$> slices)). }
  split; [done|]. split; [|split; [done|split; [|split; [done|]]]].
  - intros i t Hi.
    assert (Hbound : partition_offset ppo i + t <= Z.of_nat (length map_futures)).
    { rewrite <- Hall. apply Hdisj; [|done]. by apply lookup_lt_Some in Hi. }
    assert (0 <= t) by (eapply (proj1 (Forall_lookup _ _) Hnn); done).
    pose proof (partition_offset_nonneg ppo i Hnn).
    eexists. split; [|split; [reflexivity|split; [|done]]].
    + rewrite Hs. by rewrite (one_per_object_lookup _ _ 0 i t).
    + rewrite length_take, length_drop. lia.
  - rewrite Hs, concat_one_per_object by done.
    rewrite Hsum, Nat2Z.id. simpl. by rewrite firstn_all.
  - intros config eid rid f mem et w d Hv Hd. split.
    + intros job w' Hrun. rewrite Hbuild, Hv in Hrun.
      destruct (_create_job_inr _ _ _ _ _ _ _ _ _ _ _ _ _ Hrun)
        as (first & rest & _ & _ & _ & _ & ->).
      cbn [total_calls data_size_bytes data_key data_byte_strs].
      split; [by rewrite Hd|]. split; [done|].
      by destruct (upload_data config (or_int None (cfg_chunksize config)) first).
    + intros Hne Hx Hc.
      assert (Hd' : d ≠ []).
      { intros ->. simpl in Hd. rewrite Hlen in Hd. by destruct ppo. }
      destruct (_create_job_builds config eid rid f d mem et None None (Some 16) w Hc Hx Hd')
        as (job & w' & Hrun).
      exists job, w'. rewrite Hbuild, Hv. split; [done|].
      destruct (_create_job_returns _ _ _ _ _ _ _ _ _ _ _ _ _ Hrun)
        as (_ & _ & _ & _ & _ & _ & _ & _ & Htc & _).
      by rewrite Htc, Hd.
Qed.

End ReduceJobClaims.

Lemma one_reducer_per_object_witness :
  exists job w',
    @create_reduce_job Example.collaborators
      (Example.config "serverless" "ibm_cf" 1800 None) "a1b2c3-0" "R000" "g"%string
      Example.map_job [10; 11; 12]%nat None true None Example.fresh = (inr job, w') /\
    total_calls job = 2%nat /\
    data_byte_strs job = Some [[Byte.x0a; Byte.x0b]; [Byte.x0c]].
Proof.
  destruct (one_reducer_per_object (H := Example.collaborators)
              Example.map_job [10; 11; 12]%nat [2; 1] eq_refl
              ltac:(repeat constructor; discriminate) eq_refl)
    as (_ & _ & _ & _ & _ & Hjob).
  destruct (Hjob (Example.config "serverless" "ibm_cf" 1800 None)
              "a1b2c3-0"%string "R000"%string "g"%string None None Example.fresh
              [[Byte.x0a; Byte.x0b]; [Byte.x0c]] eq_refl eq_refl)
    as [Hret Hruns].
  destruct Hruns as (job & w' & Hrun & Htc);
    [discriminate | vm_compute; reflexivity | reflexivity |].
  exists job, w'. split; [exact Hrun|]. split; [exact Htc|].
  apply (Hret job w' Hrun).
  vm_compute in Hrun. by injection Hrun as <- _.
Defined.

(** C9, as stated, fails: with the counts [2; 1] of the map job and
    four map futures, [create_reduce_job] returns a job of two calls
    whose inputs are the first three futures; the fourth reaches no
    reducer, so the slices do not add up to [map_futures]. *)
Lemma reducers_miss_futures_beyond_the_counts :
  parts_per_object Example.map_job = Some [2; 1] /\
  @reduce_iterdata Example.map_job [10; 11; 12; 13]%nat true = [[10; 11]; [12]]%nat /\
  concat (@reduce_iterdata Example.map_job [10; 11; 12; 13]%nat true)
  ≠ [10; 11; 12; 13]%nat /\
  exists w',
    @create_reduce_job Example.collaborators
      (Example.config "serverless" "ibm_cf" 1800 None) "a1b2c3-0" "R000" "g"%string
      Example.map_job [10; 11; 12; 13]%nat None true None Example.fresh
    = (inr (mkJob 1 1 595 "a1b2c3-0" "R000" "a1b2c3-0-R000" "g" 2 (Some 16)
                  (Some (Some 256)) (Some (Some 600))
                  "lithops.jobs/a1b2c3-0-R000/func.pickle" None None None None
                  (Some [[Byte.x0a; Byte.x0b]; [Byte.x0c]]) 3 0 None), w').
Proof.
  split; [reflexivity|]. split; [reflexivity|]. split; [discriminate|].
  eexists. vm_compute. reflexivity.
Qed.

(** ** Reasoning about methods *)

Section Preserves.
Context `{Collaborators}.

Variable P : World -> Prop.

Lemma preserves_ret {A} (a : A) : preserves P (mret a).
Proof. by intros w. Qed.

Lemma preserves_raise {A} (e : exn) : preserves P (raise (A := A) e).
Proof. by intros w. Qed.

Lemma preserves_get : preserves P get.
Proof. by intros w. Qed.

Lemma preserves_bind {A B} (m : M A) (k : A -> M B) :
  preserves P m -> (forall a, preserves P (k a)) -> preserves P (m ≫= k).
Proof.
  intros Hm Hk w Hw. specialize (Hm w Hw).
  unfold mbind, M_bind, bind. destruct (m w) as [[e|a] w1]; [done|].
  by apply Hk.
Qed.

Lemma preserves_try_except {A} (m : M A) (handler : exn -> M A) :
  preserves P m -> (forall e, preserves P (handler e)) ->
  preserves P (try_except m handler).
Proof.
  intros Hm Hh w Hw. specialize (Hm w Hw).
  unfold try_except. destruct (m w) as [[e|a] w1]; [|done].
  by apply Hh.
Qed.

Lemma preserves_try_finally {A} (m : M A) (fin : M unit) :
  preserves P m -> preserves P fin -> preserves P (try_finally m fin).
Proof.
  intros Hm Hf w Hw. specialize (Hm w Hw).
  unfold try_finally. destruct (m w) as [r w1].
  specialize (Hf w1 Hm). by destruct (fin w1) as [[e|[]] w2].
Qed.

Lemma preserves_for_each {A} (l : list A) (body : A -> M unit) :
  (forall a, preserves P (body a)) -> preserves P (for_each l body).
Proof.
  intros Hb. induction l as [|a l IH]; simpl; [by intros w|].
  apply (preserves_bind (body a)); [apply Hb | by intros _].
Qed.

Lemma preserves_modify (f : World -> World) :
  (forall w, P w -> P (f w)) -> preserves P (modify f).
Proof. intros Hf w Hw. by apply Hf. Qed.

Lemma preserves_store_modules dir mods :
  (forall path data, preserves P (emit (EvStoreModule path data))) ->
  forall n, preserves P (store_modules dir n mods).
Proof.
  intros He. induction mods as [|[m_filename m_data] mods IH]; intros n.
  - apply preserves_ret.
  - cbn [store_modules]. destruct (module_file dir m_filename) as [to_make full_filename].
    apply preserves_bind; [|intros _; apply preserves_bind; [|intros _; apply IH]].
    + destruct (makedirs_error n to_make) as [errno|]; [|apply preserves_ret].
      destruct (errno =? 17); [apply preserves_ret | apply preserves_raise].
    + destruct (write_error full_filename); [apply preserves_raise | apply He].
Qed.

Lemma preserves__store_func_and_modules dir key mods :
  (forall d k, preserves P (emit (EvStoreLocal d k))) ->
  (forall path data, preserves P (emit (EvStoreModule path data))) ->
  preserves P (_store_func_and_modules dir key mods).
Proof.
  intros Hl Hm. unfold _store_func_and_modules.
  apply preserves_bind; [|intros _; apply preserves_bind; [|intros _]].
  - destruct (makedirs_exist_ok_error dir); [apply preserves_raise | apply preserves_ret].
  - destruct (write_error (path_join dir key)); [apply preserves_raise | apply Hl].
  - by apply preserves_store_modules.
Qed.

End Preserves.

(** Splits a method into its steps, by the shape of the term; [base]
    closes the steps that are calls or primitive updates. *)
Ltac preserves_split base :=
  repeat
    (cbv zeta;
     lazymatch goal with
     | |- preserves _ (mret _) => apply preserves_ret
     | |- preserves _ (raise _) => apply preserves_raise
     | |- preserves _ get => apply preserves_get
     | |- preserves _ (_ ≫= _) => apply preserves_bind; [|intros ?]
     | |- preserves _ (try_finally _ _) => apply preserves_try_finally
     | |- preserves _ (try_except _ _) => apply preserves_try_except; [|intros ?]
     | |- preserves _ (for_each _ _) => apply preserves_for_each; intros ?
     | |- preserves _ (match ?x with _ => _ end) => destruct x
     | |- preserves _ _ => progress base
     end).

Section CleanFacts.
Context `{Collaborators}.

(** [clean] raises only on a non-empty [FuturesList]; it only appends
    events and grows [cleaned_jobs]. *)
Lemma clean_eq self fs cs cc sp force w :
  clean self fs cs cc sp force w
  = (clean_outcome fs,
     after_clean w (clean_events w fs cs cc sp force) (clean_jobs w fs cs force)).
Proof.
  unfold clean, clean_outcome, clean_raises, clean_events, clean_jobs, clean_returns_early,
    after_clean, jobs_to_clean.
  destruct w as [h n t f c tj lc].
  destruct (bool_decide (cs = [])) eqn:Hcs; destruct fs as [|[|r l]|r|[|r l]]; simpl;
    run_m;
    repeat match goal with
    | |- context [bool_decide (?s = ∅)] => destruct (bool_decide (s = ∅)) eqn:?
    end;
    destruct sp; simpl;
    rewrite ?app_nil_r, <- ?app_assoc, ?union_empty_r_L; simpl; try done;
    repeat match goal with
    | Hb : bool_decide (_ = ∅) = true |- _ =>
        apply bool_decide_eq_true in Hb; rewrite ?Hb, ?union_empty_r_L
    end; done.
Qed.

End CleanFacts.

Section CleanClaims.
Context `{Collaborators}.

Lemma elem_of_present_jobs h futs force k :
  k ∈ present_jobs h futs force <->
  exists r, r ∈ futs /\
    create_job_key (f_executor_id (h r)) (f_job_id (h r)) = k /\
    ((count_char "-" (f_executor_id (h r)) = 1%nat /\ f_done (h r) = true)
     \/ force = true).
Proof.
  unfold present_jobs. rewrite elem_of_list_to_set, list_elem_of_fmap.
  split.
  - intros (r & -> & Hr). apply list_elem_of_filter in Hr as [Hc Hr].
    exists r. split; [done|]. split; [done|].
    unfold cleanable in Hc. apply Is_true_true in Hc.
    apply orb_true_iff in Hc as [Hc|Hc]; [left | by right].
    apply andb_true_iff in Hc as [Hc1 Hc2].
    by apply Nat.eqb_eq in Hc1.
  - intros (r & Hr & Hk & Hc). exists r. split; [done|].
    apply list_elem_of_filter. split; [|done].
    unfold cleanable. apply Is_true_true.
    destruct Hc as [[Hc1 Hc2]| ->]; [|by rewrite orb_true_r].
    by rewrite Hc1, Hc2.
Qed.

Lemma saved_jobs_app t1 t2 : saved_jobs (t1 ++ t2) = saved_jobs t1 ++ saved_jobs t2.
Proof. unfold saved_jobs. apply omap_app. Qed.

Lemma saved_jobs_clean_events w fs cs cc sp force :
  saved_jobs (clean_events w fs cs cc sp force)
  = if bool_decide (clean_jobs w fs cs force = ∅) then []
    else [clean_jobs w fs cs force].
Proof.
  unfold clean_events, clean_jobs.
  destruct (bool_decide (cs = []));
    destruct (clean_returns_early fs cs || clean_raises fs); simpl;
    try (by rewrite bool_decide_eq_true_2);
    destruct (bool_decide (jobs_to_clean w fs force = ∅)); simpl;
    by destruct sp.
Qed.


End CleanClaims.



(** ** Cleaning across a session *)

Section CleanedJobsInvariant.
Context `{Collaborators}.

(** A property of the saved job sets and of [cleaned_jobs] that every
    cleaning step keeps. *)
Variable Q : list (gset string) -> gset string -> Prop.
Hypothesis Q_step : forall l c s, s ## c -> Q l c -> Q (l ++ [s]) (c ∪ s).

Lemma cleaned_inv_emit e : is_save_jobs e = false -> preserves (cleaned_inv Q) (emit e).
Proof.
  intros He w Hw. unfold cleaned_inv in *. simpl.
  rewrite saved_jobs_app. destruct e; try done; simpl; by rewrite app_nil_r.
Qed.

Lemma cleaned_inv_modify (f : World -> World) :
  (forall w, trace (f w) = trace w) ->
  (forall w, cleaned_jobs (f w) = cleaned_jobs w) ->
  preserves (cleaned_inv Q) (modify f).
Proof.
  intros Ht Hc w Hw. unfold cleaned_inv in *. simpl. by rewrite Ht, Hc.
Qed.

Lemma cleaned_inv_clean self fs cs cc sp force :
  preserves (cleaned_inv Q) (clean self fs cs cc sp force).
Proof.
  intros w Hw. rewrite clean_eq. unfold cleaned_inv in *. simpl.
  rewrite saved_jobs_app, saved_jobs_clean_events.
  destruct (bool_decide (clean_jobs w fs cs force = ∅)) eqn:He.
  - apply bool_decide_eq_true in He. by rewrite He, app_nil_r, union_empty_r_L.
  - apply Q_step; [|done].
    unfold clean_jobs, jobs_to_clean.
    destruct (clean_returns_early fs cs || clean_raises fs);
      [apply disjoint_empty_l | by apply disjoint_difference_l1].
Qed.

Lemma cleaned_inv_ext_wait futs dl te opts :
  preserves (cleaned_inv Q) (call_ext_wait futs dl te opts).
Proof.
  intros w Hw. unfold call_ext_wait.
  by destruct (ext_wait (heap w) futs dl te opts) as [h [e|]].
Qed.

Ltac cleaned_step :=
  idtac;
  lazymatch goal with
  | |- preserves _ (_store_func_and_modules _ _ _) =>
      apply preserves__store_func_and_modules; intros
  | |- preserves _ (clean _ _ _ _ _ _) => apply cleaned_inv_clean
  | |- preserves _ (call_ext_wait _ _ _ _) => apply cleaned_inv_ext_wait
  | |- preserves _ (emit _) => apply cleaned_inv_emit; reflexivity
  | |- preserves _ (modify _) => apply cleaned_inv_modify; intros; reflexivity
  end.

Lemma cleaned_inv__create_job config eid jid func iterdata mem et cs wp ipt :
  preserves (cleaned_inv Q) (_create_job config eid jid func iterdata mem et cs wp ipt).
Proof. unfold _create_job. preserves_split cleaned_step. Qed.

Lemma cleaned_inv_run_job job : preserves (cleaned_inv Q) (run_job job).
Proof. unfold run_job. preserves_split cleaned_step. Qed.

Lemma cleaned_inv__create_job_id tag : preserves (cleaned_inv Q) (_create_job_id tag).
Proof. unfold _create_job_id. preserves_split cleaned_step. Qed.

Lemma cleaned_inv_deliver b l : preserves (cleaned_inv Q) (deliver b l).
Proof.
  induction l as [|r l IH]; simpl;
    preserves_split ltac:(first [apply IH | cleaned_step]).
Qed.

Ltac cleaned_call :=
  idtac;
  lazymatch goal with
  | |- preserves _ (_create_job _ _ _ _ _ _ _ _ _ _) => apply cleaned_inv__create_job
  | |- preserves _ (run_job _) => apply cleaned_inv_run_job
  | |- preserves _ (_create_job_id _) => apply cleaned_inv__create_job_id
  | |- preserves _ (deliver _ _) => apply cleaned_inv_deliver
  | |- preserves _ (create_map_job _ _ _ _ _ _ _ _ _ _) => unfold create_map_job
  | |- preserves _ (create_reduce_job _ _ _ _ _ _ _ _ _) => unfold create_reduce_job
  | |- preserves _ (no_output _) => unfold no_output
  | |- preserves _ (extend_futures _) => unfold extend_futures
  | |- preserves _ (wait _ _ _ _ _) => unfold wait, wait_except, wait_finally
  | |- preserves _ (get_result_list _ _ _ _) => unfold get_result_list
  | |- _ => cleaned_step
  end.

Lemma cleaned_inv_call_async self f d m t :
  preserves (cleaned_inv Q) (call_async self f d m t).
Proof. unfold call_async. preserves_split cleaned_call. Qed.

Lemma cleaned_inv_map self f it c p m t i :
  preserves (cleaned_inv Q) (map self f it c p m t i).
Proof. unfold map. preserves_split cleaned_call. Qed.

Lemma cleaned_inv_map_reduce self f it g c p m1 m2 t i o l :
  preserves (cleaned_inv Q) (map_reduce self f it g c p m1 m2 t i o l).
Proof. unfold map_reduce. preserves_split cleaned_call. Qed.

Lemma cleaned_inv_wait self fs te dl opts :
  preserves (cleaned_inv Q) (wait self fs te dl opts).
Proof. preserves_split cleaned_call. Qed.

Lemma cleaned_inv_get_result self fs te opts :
  preserves (cleaned_inv Q) (get_result self fs te opts).
Proof. unfold get_result. preserves_split cleaned_call. Qed.

Lemma cleaned_inv_run_call self c w : (cleaned_inv Q) w -> (cleaned_inv Q) (run_call self c w).
Proof.
  revert w. destruct c; simpl.
  - apply cleaned_inv_call_async.
  - apply cleaned_inv_map.
  - apply cleaned_inv_map_reduce.
  - apply cleaned_inv_wait.
  - apply cleaned_inv_get_result.
  - apply cleaned_inv_clean.
Qed.

Lemma cleaned_inv_run_session self cs : forall w,
  (cleaned_inv Q) w -> (cleaned_inv Q) (run_session self cs w).
Proof.
  unfold run_session. induction cs as [|c cs IH]; intros w Hw; simpl; [done|].
  apply IH. by apply cleaned_inv_run_call.
Qed.

End CleanedJobsInvariant.

Section CleanIdempotence.
Context `{Collaborators}.

Lemma pairwise_disjoint_snoc l s :
  pairwise_disjoint l -> Forall (fun s' => s' ## s) l -> pairwise_disjoint (l ++ [s]).
Proof.
  induction l as [|s0 l IH]; simpl; [done|].
  intros [Hs0 Hl] Hall. apply Forall_cons in Hall as [Hd Hall].
  split; [|by apply IH].
  apply Forall_app. split; [done|]. by apply Forall_singleton.
Qed.

Lemma jobs_to_clean_after_clean w t s fs force :
  jobs_to_clean (after_clean w t s) fs force = jobs_to_clean w fs force ∖ s.
Proof.
  unfold jobs_to_clean, after_clean. simpl.
  replace (deref _ (bind_futures fs)) with (deref w (bind_futures fs))
    by (by destruct (bind_futures fs)).
  apply set_eq. intros k. rewrite !elem_of_difference, elem_of_union. tauto.
Qed.

(** C5. Cleaning is idempotent per job.  A second call of [clean] with
    the same futures hands no job to the cleaner; a job key handed to
    the cleaner stays in [cleaned_jobs] through every later call of the
    executor and is in no later [jobs_to_clean]; in a session of a new
    executor the sets handed to the cleaner are pairwise disjoint. *)
Theorem clean_is_idempotent_per_job self :
  (forall w fs cs cc sp force cc' sp',
     let w1 := (clean self fs cs cc sp force w).2 in
     clean_jobs w1 fs cs force = ∅ /\
     saved_jobs (trace (clean self fs cs cc' sp' force w1).2) = saved_jobs (trace w1)) /\
  (forall w fs cs cc sp force calls fs' cs' force' k,
     k ∈ clean_jobs w fs cs force ->
     let w2 := run_session self calls (clean self fs cs cc sp force w).2 in
     k ∈ cleaned_jobs w2 /\
     (k ∉ jobs_to_clean w2 fs' force') /\
     (k ∉ clean_jobs w2 fs' cs' force')) /\
  (forall calls h n,
     pairwise_disjoint (saved_jobs (trace (run_session self calls (init_world h n))))).
Proof.
  split; [|split].
  - intros w fs cs cc sp force cc' sp' w1.
    assert (He : clean_jobs w1 fs cs force = ∅).
    { unfold w1. rewrite clean_eq. simpl. unfold clean_jobs.
      destruct (clean_returns_early fs cs || clean_raises fs); [done|].
      rewrite jobs_to_clean_after_clean. apply set_eq. intros k.
      rewrite elem_of_difference.
      pose proof (not_elem_of_empty (C := gset string) k). tauto. }
    split; [done|].
    rewrite clean_eq. simpl.
    rewrite saved_jobs_app, saved_jobs_clean_events, He.
    rewrite bool_decide_eq_true_2 by done. by rewrite app_nil_r.
  - intros w fs cs cc sp force calls fs' cs' force' k Hk w2.
    assert (Hin : k ∈ cleaned_jobs w2).
    { unfold w2.
      apply (cleaned_inv_run_session (fun _ c => k ∈ c)).
      - intros l c s _ Hc. apply elem_of_union. by left.
      - rewrite clean_eq. unfold cleaned_inv. simpl. apply elem_of_union. by right. }
    assert (Hout : k ∉ jobs_to_clean w2 fs' force').
    { unfold jobs_to_clean. rewrite elem_of_difference. tauto. }
    split; [done|]. split; [done|].
    unfold clean_jobs.
    destruct (clean_returns_early fs' cs' || clean_raises fs'); [|done].
    apply not_elem_of_empty.
  - intros calls h n.
    refine (proj1 (cleaned_inv_run_session
              (fun l c => pairwise_disjoint l /\ forall s, s ∈ l -> s ⊆ c)
              _ self calls (init_world h n) _)).
    + intros l c s Hd [Hp Hsub]. split.
      * apply pairwise_disjoint_snoc; [done|].
        apply Forall_forall. intros s' Hs'. specialize (Hsub s' Hs').
        intros k Hk1 Hk2. apply (Hd k); [done|]. by apply Hsub.
      * intros s' Hs'. apply elem_of_app in Hs' as [Hs'|Hs'].
        -- specialize (Hsub s' Hs'). intros k Hk. apply elem_of_union. left. by apply Hsub.
        -- apply list_elem_of_singleton in Hs' as ->.
           intros k Hk. apply elem_of_union. by right.
    + unfold cleaned_inv. simpl. split; [done|]. intros s Hs. by apply elem_of_nil in Hs.
Qed.

End CleanIdempotence.

(** ** Waiting *)

Section WaitFacts.
Context `{Collaborators}.

Lemma after_clean_nil w : after_clean w [] ∅ = w.
Proof.
  destruct w. unfold after_clean. simpl. by rewrite app_nil_r, union_empty_r_L.
Qed.

Lemma bind_futures_falsy fs : fs_truthy fs = false -> bind_futures fs = SelfFutures.
Proof. by destruct fs as [|[|r l]|r|[|r l]]. Qed.

Lemma wait_except_eq self fs e w :
  wait_except self fs e w = (inl e, forced_clean self (stopped fs w)).
Proof.
  unfold wait_except, forced_clean, stopped. run_m.
  destruct (fs_truthy fs) eqn:Hfs; simpl.
  - destruct (cleaner_on self); [|done]. by rewrite !clean_eq.
  - rewrite (bind_futures_falsy _ Hfs). simpl.
    destruct is_notebook; simpl; rewrite ?Nat.sub_diag; simpl;
      (destruct (cleaner_on self); [|done]); by rewrite !clean_eq.
Qed.

Lemma wait_finally_eq self fs w :
  exists t s, wait_finally self fs w = (inr tt, after_clean w t s).
Proof.
  unfold wait_finally. run_m.
  destruct (cleaner_on self).
  - rewrite clean_eq. eexists. eexists. f_equal.
    unfold after_clean at 1. simpl.
    rewrite <- !app_assoc.
    by rewrite <- (union_empty_l_L (clean_jobs _ _ _ _)) at 1.
  - exists [EvMonitorStop
              (list_to_set ((fun r => f_job_key (heap w r)) <$> deref w (bind_futures fs)))],
           ∅.
    unfold after_clean. by rewrite union_empty_r_L.
Qed.

Lemma forced_clean_eq self w :
  exists t s, forced_clean self w = after_clean w t s /\
    (cleaner_on self = true ->
     forall r, r ∈ futures w ->
       create_job_key (f_executor_id (heap w r)) (f_job_id (heap w r))
       ∈ cleaned_jobs w ∪ s).
Proof.
  unfold forced_clean. destruct (cleaner_on self).
  - rewrite clean_eq. simpl. eexists. eexists. split; [done|].
    intros _ r Hr. unfold clean_jobs, jobs_to_clean. simpl.
    set (k := create_job_key _ _).
    destruct (decide (k ∈ cleaned_jobs w)) as [Hin|Hout];
      apply elem_of_union; [by left | right].
    apply elem_of_difference. split; [|done].
    apply elem_of_present_jobs. exists r. by eauto.
  - exists [], ∅. by rewrite after_clean_nil.
Qed.

End WaitFacts.

Section WaitClaims.
Context `{Collaborators}.

(** C6. When the wait engine raises [e] inside [wait], the executor
    stops the invoker, then, if the data cleaner is on and it is not a
    worker, runs [clean] with [force=True] (after which every job of
    [self.futures] is in [cleaned_jobs]), then runs the [finally] block
    and raises that same [e]; [get_result] raises it in turn. *)
Theorem wait_reraises_after_stop_and_forced_clean self fs te dl opts w h1 e :
  ext_wait (heap w) (deref w (bind_futures fs)) dl te opts = (h1, Some e) ->
  let w1 := stopped fs (set_heap h1 w) in
  let w2 := forced_clean self w1 in
  let w3 := (wait_finally self fs w2).2 in
  wait self fs te dl opts w = (inl e, w3) /\
  (dl = true -> get_result self fs te opts w = (inl e, w3)) /\
  trace w1 = trace w ++ [EvInvokerStop] /\
  (exists t2 t3, trace w2 = trace w1 ++ t2 /\ trace w3 = trace w2 ++ t3) /\
  (cleaner_on self = true ->
   forall r, r ∈ futures w1 ->
     create_job_key (f_executor_id (h1 r)) (f_job_id (h1 r)) ∈ cleaned_jobs w2 /\
     create_job_key (f_executor_id (h1 r)) (f_job_id (h1 r)) ∈ cleaned_jobs w3).
Proof.
  intros Hext w1 w2 w3.
  assert (Hwait : forall dl', dl' = dl -> wait self fs te dl' opts w = (inl e, w3)).
  { intros dl' ->. unfold wait, try_finally, try_except.
    unfold mbind at 1, M_bind at 1, bind at 1.
    unfold mbind at 1, M_bind at 1, bind at 1.
    unfold get at 1, call_ext_wait. rewrite Hext.
    rewrite wait_except_eq. fold w1 w2.
    destruct (wait_finally_eq self fs w2) as (t & s & Hf).
    unfold w3. by rewrite Hf. }
  destruct (forced_clean_eq self w1) as (t2 & s2 & Hw2 & Hkeys).
  destruct (wait_finally_eq self fs w2) as (t3 & s3 & Hw3).
  split; [by apply Hwait|]. split; [|split; [done|split]].
  - intros ->. unfold get_result, get_result_list.
    unfold mbind at 1, M_bind at 1, bind at 1.
    unfold mbind at 1, M_bind at 1, bind at 1.
    by rewrite (Hwait true eq_refl).
  - exists t2, t3. unfold w3. rewrite Hw3. unfold w2. by rewrite Hw2.
  - intros Hc r Hr. specialize (Hkeys Hc r Hr).
    unfold w3. rewrite Hw3. unfold w2. rewrite Hw2. simpl.
    split; [done|]. apply elem_of_union. by left.
Qed.

End WaitClaims.

(** ** Delivering results *)

Section DeliverFacts.
Context `{Collaborators}.

Lemma deref_after_clean w h t s v :
  deref (after_clean (set_heap h w) t s) v = deref w v.
Proof. by destruct v. Qed.

(** A wait whose engine does not raise returns the two lists, read in
    the heap the engine left. *)
Lemma wait_returns self fs te dl opts w h1 :
  ext_wait (heap w) (deref w (bind_futures fs)) dl te opts = (h1, None) ->
  exists t s,
    wait self fs te dl opts w
    = (inr (done_futures h1 dl (deref w (bind_futures fs))),
       after_clean (set_heap h1 w) t s).
Proof.
  intros Hext. unfold wait.
  unfold mbind at 1, M_bind at 1, bind at 1.
  unfold try_finally, try_except.
  unfold mbind at 1, M_bind at 1, bind at 1.
  unfold get at 1, call_ext_wait. rewrite Hext.
  destruct (wait_finally_eq self fs (set_heap h1 w)) as (t & s & ->).
  exists t, s. run_m. rewrite deref_after_clean. unfold done_futures.
  by destruct dl.
Qed.

Lemma wait_raises self fs te dl opts w h1 e :
  ext_wait (heap w) (deref w (bind_futures fs)) dl te opts = (h1, Some e) ->
  exists w', wait self fs te dl opts w = (inl e, w').
Proof.
  intros Hext. unfold wait.
  unfold mbind at 1, M_bind at 1, bind at 1.
  unfold try_finally, try_except.
  unfold mbind at 1, M_bind at 1, bind at 1.
  unfold get at 1, call_ext_wait. rewrite Hext, wait_except_eq.
  destruct (wait_finally_eq self fs (forced_clean self (stopped fs (set_heap h1 w))))
    as (t & s & ->).
  by eexists.
Qed.

(** With [fs] given, every future of the list is delivered and none is
    written. *)
Lemma deliver_given l w :
  deliver true l w = (inr ((fun r => f_return_val (heap w r)) <$> l), w).
Proof.
  induction l as [|r l IH]; [done|].
  simpl. run_m. by rewrite IH.
Qed.

(** Without [fs], the unread futures are delivered once and marked
    read. *)
Lemma deliver_unread l : forall w,
  exists refs h',
    deliver false l w = (inr ((fun r => f_return_val (heap w r)) <$> refs), set_heap h' w) /\
    NoDup refs /\
    refs `sublist_of` l /\
    (forall r, r ∈ refs <-> r ∈ l /\ f_read (heap w r) = false) /\
    (forall r, h' r = if bool_decide (r ∈ refs) then set_read true (heap w r) else heap w r).
Proof.
  induction l as [|r l IH]; intros w.
  - exists [], (heap w). simpl. split; [by destruct w|].
    split; [constructor|]. split; [done|]. split; [|done].
    intros r. split; [by intros ?%elem_of_nil | by intros [?%elem_of_nil _]].
  - simpl. run_m. destruct (f_read (heap w r)) eqn:Hread; simpl.
    + destruct (IH w) as (refs & h' & Hrun & Hnd & Hsub & Hmem & Hheap).
      exists refs, h'. split; [done|]. split; [done|].
      split; [by apply sublist_cons|]. split; [|done].
      intros r'. rewrite Hmem, elem_of_cons. split; [tauto|].
      intros [[->|Hin] Hr']; [congruence | done].
    + destruct (IH (update_future r (set_read true) w))
        as (refs & h' & Hrun & Hnd & Hsub & Hmem & Hheap).
      assert (Hother : forall r', r' ≠ r ->
                heap (update_future r (set_read true) w) r' = heap w r').
      { intros r' Hne. simpl. by rewrite (proj2 (Nat.eqb_neq r' r)). }
      assert (Hself : heap (update_future r (set_read true) w) r
                      = set_read true (heap w r)).
      { simpl. by rewrite Nat.eqb_refl. }
      assert (Hnot : r ∉ refs).
      { intros Hin. apply Hmem in Hin as [_ Hin]. rewrite Hself in Hin. done. }
      exists (r :: refs), h'. rewrite Hrun. simpl. split; [|split; [|split; [|split]]].
      * f_equal. f_equal. f_equal. apply list_fmap_ext. intros i r' Hr'.
        by destruct (r' =? r)%nat.
      * by constructor.
      * by apply sublist_skip.
      * intros r'. rewrite !elem_of_cons, Hmem. split.
        -- intros [->|[Hin Hr']]; [by auto|].
           destruct (decide (r' = r)) as [->|Hne]; [rewrite Hself in Hr'; done|].
           rewrite Hother in Hr' by done. by auto.
        -- intros [[->|Hin] Hr']; [by left|].
           destruct (decide (r' = r)) as [->|Hne]; [by left|].
           right. by rewrite Hother.
      * intros r'. rewrite Hheap.
        destruct (decide (r' = r)) as [->|Hne].
        -- rewrite (bool_decide_eq_false_2 _ Hnot), Hself.
           by rewrite bool_decide_eq_true_2 by (by left).
        -- rewrite Hother by done.
           destruct (decide (r' ∈ refs)) as [Hin|Hout].
           ++ rewrite !bool_decide_eq_true_2; [done | by right | done].
           ++ rewrite !bool_decide_eq_false_2; [done | | done].
              intros [?|?]%elem_of_cons; done.
Qed.

Lemma get_result_list_eq self fs te opts w h1 :
  ext_wait (heap w) (deref w (bind_futures fs)) true te opts = (h1, None) ->
  exists t s,
    get_result_list self fs te opts w
    = deliver (fs_truthy fs) (eligible h1 (deref w (bind_futures fs)))
              (after_clean (set_heap h1 w) t s).
Proof.
  intros Hext. destruct (wait_returns self fs te true opts w h1 Hext) as (t & s & Hw).
  exists t, s. unfold get_result_list.
  unfold mbind at 1, M_bind at 1, bind at 1. by rewrite Hw.
Qed.

Lemma get_result_list_raises self fs te opts w h1 e :
  ext_wait (heap w) (deref w (bind_futures fs)) true te opts = (h1, Some e) ->
  exists w', get_result_list self fs te opts w = (inl e, w').
Proof.
  intros Hext. destruct (wait_raises self fs te true opts w h1 e Hext) as (w' & Hw).
  exists w'. unfold get_result_list.
  unfold mbind at 1, M_bind at 1, bind at 1. by rewrite Hw.
Qed.

End DeliverFacts.

Section GetResultClaims.
Context `{Collaborators}.

Lemma elem_of_eligible h futs r :
  r ∈ eligible h futs <->
  r ∈ futs /\ f_done (h r) = true /\ f_futures (h r) = [] /\ f_produce_output (h r) = true.
Proof.
  unfold eligible, deliverable. rewrite !list_elem_of_filter.
  rewrite !Is_true_true, andb_true_iff, bool_decide_eq_true. tauto.
Qed.

Lemma get_result_list_inv self fs te opts w vs w' :
  get_result_list self fs te opts w = (inr vs, w') ->
  exists h1 t s,
    ext_wait (heap w) (deref w (bind_futures fs)) true te opts = (h1, None) /\
    deliver (fs_truthy fs) (eligible h1 (deref w (bind_futures fs)))
            (after_clean (set_heap h1 w) t s) = (inr vs, w').
Proof.
  intros Hrun.
  destruct (ext_wait (heap w) (deref w (bind_futures fs)) true te opts)
    as [h1 [e|]] eqn:Hext.
  - destruct (get_result_list_raises self fs te opts w h1 e Hext) as (w1 & Hr).
    by rewrite Hr in Hrun.
  - destruct (get_result_list_eq self fs te opts w h1 Hext) as (t & s & Hr).
    exists h1, t, s. split; [done|]. by rewrite <- Hr.
Qed.

(** [get_result] returns whenever the wait engine does not raise. *)
Lemma get_result_list_returns self fs te opts w h1 :
  ext_wait (heap w) (deref w (bind_futures fs)) true te opts = (h1, None) ->
  exists vs w', get_result_list self fs te opts w = (inr vs, w').
Proof.
  intros Hext. destruct (get_result_list_eq self fs te opts w h1 Hext) as (t & s & ->).
  destruct (fs_truthy fs).
  - rewrite deliver_given. do 2 eexists. reflexivity.
  - destruct (deliver_unread (eligible h1 (deref w (bind_futures fs)))
                (after_clean (set_heap h1 w) t s)) as (refs & h' & -> & _).
    do 2 eexists. reflexivity.
Qed.

(** Without [fs]: what is delivered and what is written. *)
Lemma get_result_list_unread self fs te opts w vs w' :
  fs_truthy fs = false ->
  get_result_list self fs te opts w = (inr vs, w') ->
  let futs := deref w (bind_futures fs) in
  let h1 := (ext_wait (heap w) futs true te opts).1 in
  exists refs,
    vs = (fun r => f_return_val (h1 r)) <$> refs /\
    NoDup refs /\
    refs `sublist_of` eligible h1 futs /\
    (forall r, r ∈ refs <-> r ∈ eligible h1 futs /\ f_read (h1 r) = false) /\
    (forall r, heap w' r = if bool_decide (r ∈ refs) then set_read true (h1 r) else h1 r) /\
    futures w' = futures w /\
    last_call w' = last_call w.
Proof.
  intros Hfs Hrun futs h1.
  destruct (get_result_list_inv _ _ _ _ _ _ _ Hrun) as (h & t & s & Hext & Hd).
  unfold h1, futs. rewrite Hext. simpl. rewrite Hfs in Hd.
  destruct (deliver_unread (eligible h (deref w (bind_futures fs)))
              (after_clean (set_heap h w) t s))
    as (refs & h' & Hrun' & Hnd & Hsub & Hmem & Hheap).
  rewrite Hrun' in Hd. injection Hd as <- <-.
  exists refs. simpl in *. split; [done|]. split; [done|]. split; [done|].
  split; [done|]. split; [done|]. done.
Qed.

(** C2 (amended). [get_result] looks only at the done futures that have
    no child futures and whose [_produce_output] is true.  When the
    caller passes no futures, those already marked [_read] are skipped,
    every delivered future is marked [_read], and a second call without
    futures delivers none of them again.  When the caller passes
    futures, every such future is delivered whether or not it is marked
    [_read], and no [_read] mark is written. *)
Theorem get_result_delivery self fs te opts w vs w' :
  get_result_list self fs te opts w = (inr vs, w') ->
  let futs := deref w (bind_futures fs) in
  let h1 := (ext_wait (heap w) futs true te opts).1 in
  (forall r, r ∈ eligible h1 futs <->
     r ∈ futs /\ f_done (h1 r) = true /\ f_futures (h1 r) = [] /\
     f_produce_output (h1 r) = true) /\
  (fs_truthy fs = true ->
     vs = (fun r => f_return_val (h1 r)) <$> eligible h1 futs /\
     forall r, heap w' r = h1 r) /\
  (fs_truthy fs = false ->
     exists refs,
       vs = (fun r => f_return_val (h1 r)) <$> refs /\
       NoDup refs /\
       refs `sublist_of` eligible h1 futs /\
       (forall r, r ∈ refs <-> r ∈ eligible h1 futs /\ f_read (h1 r) = false) /\
       (forall r, r ∈ refs -> f_read (heap w' r) = true) /\
       (forall r, r ∉ refs -> heap w' r = h1 r) /\
       (forall te2 opts2 vs2 w2,
          (forall h l d t o r, f_read ((ext_wait h l d t o).1 r) = f_read (h r)) ->
          get_result_list self fs te2 opts2 w' = (inr vs2, w2) ->
          let h2 := (ext_wait (heap w') (futures w') true te2 opts2).1 in
          exists refs2,
            vs2 = (fun r => f_return_val (h2 r)) <$> refs2 /\
            forall r, r ∈ refs -> r ∉ refs2)).
Proof.
  intros Hrun futs h1. split; [apply elem_of_eligible|]. split.
  - intros Hfs.
    destruct (get_result_list_inv _ _ _ _ _ _ _ Hrun) as (h & t & s & Hext & Hd).
    unfold h1, futs. rewrite Hext. simpl.
    rewrite Hfs, deliver_given in Hd. by injection Hd as <- <-.
  - intros Hfs.
    destruct (get_result_list_unread _ _ _ _ _ _ _ Hfs Hrun)
      as (refs & Hvs & Hnd & Hsub & Hmem & Hheap & Hfuts & _).
    exists refs. do 4 (split; [done|]). split; [|split].
    + intros r Hr. rewrite Hheap. by rewrite bool_decide_eq_true_2.
    + intros r Hr. rewrite Hheap. by rewrite bool_decide_eq_false_2.
    + intros te2 opts2 vs2 w2 Hkeep Hrun2 h2.
      destruct (get_result_list_unread _ _ _ _ _ _ _ Hfs Hrun2)
        as (refs2 & Hvs2 & _ & _ & Hmem2 & _).
      rewrite (bind_futures_falsy _ Hfs) in Hvs2, Hmem2. simpl in Hvs2, Hmem2.
      exists refs2. split; [done|].
      intros r Hr Hr2. apply Hmem2 in Hr2 as [_ Hr2].
      rewrite Hkeep, Hheap in Hr2. by rewrite bool_decide_eq_true_2 in Hr2.
Qed.

Lemma deliver_order b l w vs w' :
  deliver b l w = (inr vs, w') ->
  last_call w' = last_call w /\
  exists refs, refs `sublist_of` l /\ vs = (fun r => f_return_val (heap w r)) <$> refs.
Proof.
  destruct b.
  - rewrite deliver_given. intros [= <- <-]. split; [done|]. by exists l.
  - destruct (deliver_unread l w) as (refs & h' & Hrun & _ & Hsub & _).
    rewrite Hrun. intros [= <- <-]. split; [done|]. by exists refs.
Qed.

(** C7. When [get_result] delivers exactly one result it returns the
    bare value unless the last call was [map]; after a [map] it returns
    the list, also for one element; with any other number of results
    it returns the list.  The results are those of a sub-list of the
    futures, in the order of the futures. *)
Theorem get_result_shape self fs te opts w res w' :
  get_result self fs te opts w = (inr res, w') ->
  exists vs,
    get_result_list self fs te opts w = (inr vs, w') /\
    (forall v, vs = [v] -> last_call w ≠ Some "map"%string -> res = Bare v) /\
    (last_call w = Some "map"%string -> res = Sequence vs) /\
    (length vs ≠ 1%nat -> res = Sequence vs) /\
    (exists refs,
       refs `sublist_of` deref w (bind_futures fs) /\
       vs = (fun r => f_return_val
               ((ext_wait (heap w) (deref w (bind_futures fs)) true te opts).1 r))
            <$> refs).
Proof.
  unfold get_result. unfold mbind at 1, M_bind at 1, bind at 1.
  destruct (get_result_list self fs te opts w) as [[e|vs] w1] eqn:Hrun; [done|].
  run_m. intros [= <- <-]. exists vs. split; [done|].
  destruct (get_result_list_inv _ _ _ _ _ _ _ Hrun) as (h1 & t & s & Hext & Hd).
  destruct (deliver_order _ _ _ _ _ Hd) as (Hlast & refs & Hsub & Hvs).
  simpl in Hlast. rewrite Hlast. unfold shape_result.
  split; [|split; [|split]].
  - intros v -> Hne. by rewrite bool_decide_eq_false_2.
  - intros Hmap. rewrite bool_decide_eq_true_2 by done. by destruct vs as [|? [|]].
  - intros Hlen. by destruct vs as [|? [|]].
  - exists refs. rewrite Hext. simpl. split; [|done].
    etrans; [done|]. unfold eligible.
    etrans; apply sublist_filter.
Qed.

End GetResultClaims.

Lemma get_result_delivery_witness :
  exists vs w',
    @get_result_list Example.collaborators (Example.executor "serverless") FsNone true tt
      (Example.world Example.results 2 [0; 1]%nat) = (inr vs, w') /\
    vs = [7] /\
    f_read (heap w' 0%nat) = true.
Proof.
  destruct (@get_result_list Example.collaborators (Example.executor "serverless") FsNone
              true tt (Example.world Example.results 2 [0; 1]%nat))
    as [[e|vs] w'] eqn:Hrun; [vm_compute in Hrun; discriminate|].
  exists vs, w'. split; [reflexivity|].
  destruct (get_result_delivery _ _ _ _ _ _ _ Hrun) as (_ & _ & Hu).
  destruct (Hu eq_refl) as (refs & _ & _ & _ & Hmem & Hread & _).
  split.
  - vm_compute in Hrun. by injection Hrun as <- _.
  - apply Hread, Hmem. split; [|reflexivity].
    apply elem_of_eligible. repeat split. apply (list_elem_of_here (A := nat)).
Defined.

(** C2, as stated, fails when the caller passes the futures: a future
    already marked [_read] is delivered again, and a future delivered
    this way is not marked [_read]. *)
Lemma get_result_redelivers_given_futures :
  let self := Example.executor "serverless" in
  let w := Example.world Example.results 2 [0; 1]%nat in
  let run := @get_result_list Example.collaborators self (FsList [1; 0]%nat) true tt w in
  f_read (heap w 1%nat) = true /\
  run.1 = inr [9; 7] /\
  f_read (heap run.2 0%nat) = false /\
  (@get_result_list Example.collaborators self (FsOne 0%nat) true tt run.2).1 = inr [7].
Proof. vm_compute. repeat split. Qed.

Lemma get_result_shape_witness :
  exists res w',
    @get_result Example.collaborators (Example.executor "serverless") FsNone true tt
      (Example.world Example.results 2 [0; 1]%nat) = (inr res, w') /\
    res = Bare 7.
Proof.
  destruct (@get_result Example.collaborators (Example.executor "serverless") FsNone
              true tt (Example.world Example.results 2 [0; 1]%nat))
    as [[e|res] w'] eqn:Hrun; [vm_compute in Hrun; discriminate|].
  exists res, w'. split; [reflexivity|].
  destruct (get_result_shape _ _ _ _ _ _ _ Hrun) as (vs & Hl & Hbare & _).
  apply Hbare; [|discriminate].
  vm_compute in Hl. by injection Hl as <- _.
Defined.

Lemma wait_reraises_after_stop_and_forced_clean_witness :
  let w := Example.world_with (Some (ExternalError "remote call failed"))
                                Example.results 2 [0; 1]%nat in
  let run := @wait Example.failing (Example.executor "serverless") FsNone true false tt w in
  run.1 = inl (ExternalError "remote call failed") /\
  "a1b2c3-0-A000"%string ∈ cleaned_jobs run.2.
Proof.
  intros w run.
  destruct (wait_reraises_after_stop_and_forced_clean (H := Example.failing)
              (Example.executor "serverless") FsNone true false tt w (heap w)
              (ExternalError "remote call failed") eq_refl)
    as (Hw & _ & _ & _ & Hk).
  unfold run. rewrite Hw. split; [reflexivity|].
  apply (Hk eq_refl 0%nat). apply (list_elem_of_here (A := nat)).
Defined.

(** ** The data limit *)

Section DataLimitClaims.
Context `{Collaborators}.

Lemma submission_count_app t1 t2 :
  submission_count (t1 ++ t2) = (submission_count t1 + submission_count t2)%nat.
Proof.
  induction t1 as [|e t1 IH]; simpl; [done|].
  destruct e; rewrite ?IH; lia.
Qed.

Lemma create_map_job_exceeds config eid jid f input iterdata ppo mem et cs wp ipt w :
  map_job_input f input = inr (iterdata, ppo) ->
  exceeds_data_limit config (dumps_data <$> iterdata) = true ->
  create_map_job config eid jid f input mem et cs wp ipt w
  = (inl (DataLimitExceeded (num (data_limit_of config) * 1024 ^ 2)), w).
Proof.
  intros Hin Hx. unfold create_map_job. rewrite Hin.
  unfold mbind, M_bind, bind. by rewrite _create_job_exceeds.
Qed.

(** C1 (amended). When the data limit in force (the configured
    [data_limit], else the default maximum) is truthy and the summed
    size of the serialized data exceeds it, [_create_job] raises and
    leaves the world as it was: nothing is uploaded.  [map],
    [call_async] and [map_reduce] then raise that exception having
    only selected the runtime: no upload and no task submission is
    recorded, and the submission count is unchanged.  A limit of [0],
    [False] or [None] switches the check off. *)
Theorem data_limit_exceeded_raises_before_dispatch config iterdata :
  truthy (data_limit_of config) = true ->
  num (data_limit_of config) * 1024 ^ 2 < total_size (dumps_data <$> iterdata) ->
  let err := DataLimitExceeded (num (data_limit_of config) * 1024 ^ 2) in
  (forall eid jid func mem et cs wp ipt w,
     _create_job config eid jid func iterdata mem et cs wp ipt w = (inl err, w)) /\
  (forall self f it ppo c p m t i w,
     self_config self = config ->
     map_job_input f (iter_data it) = inr (iterdata, ppo) ->
     map self f it c p m t i w = (inl err, job_announced "M" "map" w)) /\
  (forall self f d ppo m t w,
     self_config self = config ->
     map_job_input f [d] = inr (iterdata, ppo) ->
     call_async self f d m t w = (inl err, job_announced "A" "call_async" w)) /\
  (forall self f it g ppo c p m1 m2 t i o l w,
     self_config self = config ->
     map_job_input f (iter_data it) = inr (iterdata, ppo) ->
     map_reduce self f it g c p m1 m2 t i o l w
     = (inl err, job_announced "M" "map_reduce" w)) /\
  (forall tag last w,
     submission_count (trace (job_announced tag last w)) = submission_count (trace w) /\
     futures (job_announced tag last w) = futures w /\
     forall e, e ∈ trace (job_announced tag last w) ->
       e ∈ trace w \/ (is_upload e = false /\ is_run_job e = false)).
Proof.
  intros Ht Hlt err.
  pose proof (exceeds_data_limit_true _ _ Ht Hlt) as Hx.
  split; [|split; [|split; [|split]]].
  - intros. by apply _create_job_exceeds.
  - intros self f it ppo c p m t i w <- Hin.
    unfold map, _create_job_id. run_m.
    by rewrite (create_map_job_exceeds _ _ _ _ _ _ _ _ _ _ _ _ _ Hin Hx).
  - intros self f d ppo m t w <- Hin.
    unfold call_async, _create_job_id. run_m.
    by rewrite (create_map_job_exceeds _ _ _ _ _ _ _ _ _ _ _ _ _ Hin Hx).
  - intros self f it g ppo c p m1 m2 t i o l w <- Hin.
    unfold map_reduce, _create_job_id. run_m.
    by rewrite (create_map_job_exceeds _ _ _ _ _ _ _ _ _ _ _ _ _ Hin Hx).
  - intros tag last w. simpl. split; [|split; [done|]].
    + rewrite submission_count_app. simpl. lia.
    + intros e [He|He]%elem_of_app; [by left|].
      apply list_elem_of_singleton in He as ->. by right.
Qed.

End DataLimitClaims.

Lemma data_limit_exceeded_raises_before_dispatch_witness :
  let config := Example.config "serverless" "ibm_cf" 1800 (Some (PyInt (-1))) in
  @_create_job Example.collaborators config "a1b2c3-0" "M000" "f"%string [[Byte.x41]]
    None None None None None Example.fresh
  = (inl (DataLimitExceeded (-1048576)), Example.fresh).
Proof.
  intros config.
  exact (proj1 (data_limit_exceeded_raises_before_dispatch (H := Example.collaborators)
                  config [[Byte.x41]] eq_refl eq_refl)
               "a1b2c3-0"%string "M000"%string "f"%string None None None None None
               Example.fresh).
Defined.

(** C1, as stated, fails for a configured limit of [0]: one byte of data
    exceeds it, and the job is built, its function uploaded and its task
    submitted. *)
Lemma zero_data_limit_is_not_enforced :
  let config := Example.config "serverless" "ibm_cf" 1800 (Some (PyInt 0)) in
  let self := mkExecutor config "a1b2c3-0" true false in
  let built := @_create_job Example.collaborators config "a1b2c3-0" "M000" "f"%string
                 [[Byte.x41]] None None None None None Example.fresh in
  let mapped := @map Example.collaborators self "f"%string
                  (@IterData Example.collaborators ([[Byte.x41]] : list bytes))
                  None None None None None Example.fresh in
  @num (@data_limit_of Example.collaborators config) * 1024 ^ 2
  < total_size (@dumps_data Example.collaborators <$> [[Byte.x41]]) /\
  (exists job, built.1 = inr job) /\
  trace built.2 = [EvPutFunc "lithops.jobs/a1b2c3-0-M000/func.pickle" []] /\
  mapped.1 = inr [0%nat] /\
  submission_count (trace mapped.2) = 1%nat.
Proof.
  vm_compute. split; [reflexivity|]. split; [by eexists|]. by repeat split.
Qed.

(** ** Job identifiers *)

Section Digits.

Lemma append_empty_r s : s +:+ "" = s.
Proof.
  induction s as [|c s IH]; [done|].
  change (String c (s +:+ "") = String c s). by rewrite IH.
Qed.

Lemma uint_of_string_cons c s d :
  NilEmpty.uint_of_string (String c s) = Some d ->
  (exists d', NilEmpty.uint_of_string s = Some d') /\
  Ascii.eqb c "+" = false /\ Ascii.eqb c "-" = false /\ Ascii.eqb c "M" = false.
Proof.
  simpl. destruct (NilEmpty.uint_of_string s) as [d'|]; [|done].
  intros Hc. split; [exists d'; reflexivity|].
  apply uint_of_char_spec in Hc.
  destruct Hc as [[-> _]|[[-> _]|[[-> _]|[[-> _]|[[-> _]|
                 [[-> _]|[[-> _]|[[-> _]|[[-> _]|[-> _]]]]]]]]]]; done.
Qed.

Lemma str_of_nat_digits n :
  exists d, NilEmpty.uint_of_string (str_of_nat n) = Some d /\ Nat.of_uint d = n.
Proof.
  unfold str_of_nat, NilZero.string_of_uint.
  destruct (Nat.to_uint n) as [|d|d|d|d|d|d|d|d|d|d] eqn:Hd.
  1: { exists (Decimal.D0 Decimal.Nil). split; [done|].
       by rewrite <- (Unsigned.of_to n), Hd. }
  all: rewrite <- Hd; exists (Nat.to_uint n);
    split; [apply NilEmpty.usu | apply Unsigned.of_to].
Qed.

Lemma int_of_digits_zeros k s : int_of_digits (zeros k +:+ s) = int_of_digits s.
Proof.
  induction k as [|k IH]; [done|].
  unfold int_of_digits in *. simpl.
  destruct (NilEmpty.uint_of_string (zeros k +:+ s)) as [d|];
    destruct (NilEmpty.uint_of_string s) as [d'|]; simpl in *; done.
Qed.

Lemma zfill_digits width s d :
  NilEmpty.uint_of_string s = Some d ->
  zfill width s = zeros (width - String.length s) +:+ s.
Proof.
  intros Hs. unfold zfill. destruct s as [|c s].
  - by rewrite append_empty_r.
  - destruct (uint_of_string_cons _ _ _ Hs) as (_ & -> & -> & _). done.
Qed.

(** The zero-padded counter reads back as the counter. *)
Lemma int_of_digits_zfill n : int_of_digits (zfill 3 (str_of_nat n)) = Some n.
Proof.
  destruct (str_of_nat_digits n) as (d & Hd & Hn).
  rewrite (zfill_digits _ _ _ Hd), int_of_digits_zeros.
  unfold int_of_digits. rewrite Hd. simpl. by rewrite Hn.
Qed.

Lemma zfill_inj n1 n2 :
  zfill 3 (str_of_nat n1) = zfill 3 (str_of_nat n2) -> n1 = n2.
Proof.
  intros Heq. pose proof (int_of_digits_zfill n1) as H1.
  rewrite Heq, int_of_digits_zfill in H1. by injection H1.
Qed.

Lemma replace_char_digits s d :
  NilEmpty.uint_of_string s = Some d -> replace_char "M" "R" s = s.
Proof.
  revert d. induction s as [|c s IH]; intros d Hs; [done|].
  destruct (uint_of_string_cons _ _ _ Hs) as ((d' & Hs') & _ & _ & Hc).
  simpl. by rewrite Hc, (IH d').
Qed.

Lemma uint_of_string_zeros k s d :
  NilEmpty.uint_of_string s = Some d ->
  exists d', NilEmpty.uint_of_string (zeros k +:+ s) = Some d'.
Proof.
  intros Hs. induction k as [|k [d' IH]]; [by eexists|].
  simpl. rewrite IH. by eexists.
Qed.

(** [map_job_id.replace('M', 'R')] only changes the tag. *)
Lemma reduce_job_id n :
  replace_char "M" "R" ("M" +:+ zfill 3 (str_of_nat n)) = "R" +:+ zfill 3 (str_of_nat n).
Proof.
  destruct (str_of_nat_digits n) as (d & Hd & _).
  rewrite (zfill_digits _ _ _ Hd).
  destruct (uint_of_string_zeros (3 - String.length (str_of_nat n)) _ _ Hd) as [d' Hz].
  set (z := zeros _ +:+ str_of_nat n) in *.
  change (String "R" (replace_char "M" "R" z) = String "R" z).
  by rewrite (replace_char_digits _ _ Hz).
Qed.

End Digits.

Section JobLog.

Lemma append_one c s : String c "" +:+ s = String c s.
Proof. reflexivity. Qed.

Lemma render_job_id_inj t1 k1 t2 k2 :
  t1 ∈ call_tags -> t2 ∈ call_tags ->
  render_job_id (t1, k1) = render_job_id (t2, k2) -> t1 = t2 /\ k1 = k2.
Proof.
  unfold call_tags, render_job_id. simpl.
  rewrite !elem_of_cons, !elem_of_nil.
  intros [->|[->|[->|[]]]] [->|[->|[->|[]]]] Heq;
    rewrite !append_one in Heq; injection Heq; try done;
    intros Hz%zfill_inj; done.
Qed.

Lemma job_log_NoDup log ids n : job_log log ids n -> NoDup ids.
Proof.
  intros (-> & Hall & Hinc). apply NoDup_alt. intros i j id Hi Hj.
  apply list_lookup_fmap_Some in Hi as ([t1 k1] & -> & Hi).
  apply list_lookup_fmap_Some in Hj as ([t2 k2] & Heq & Hj).
  assert (t1 ∈ call_tags) by (apply (proj1 (Forall_lookup _ _) Hall _ _ Hi)).
  assert (t2 ∈ call_tags) by (apply (proj1 (Forall_lookup _ _) Hall _ _ Hj)).
  apply render_job_id_inj in Heq as [-> ->]; [|done..].
  destruct (Nat.lt_trichotomy i j) as [Hlt|[->|Hlt]]; [|done|].
  - destruct (Hinc _ _ _ _ _ _ Hlt Hi Hj) as [_ Hk]. specialize (Hk eq_refl). lia.
  - destruct (Hinc _ _ _ _ _ _ Hlt Hj Hi) as [_ Hk]. specialize (Hk eq_refl). lia.
Qed.

(** New jobs of distinct tags, numbered with the current counter. *)
Lemma job_log_extend log ids n new :
  job_log log ids n ->
  Forall (fun entry => entry.1 ∈ call_tags /\ entry.2 = n) new ->
  NoDup (fst <$> new) ->
  job_log (log ++ new) (ids ++ (render_job_id <$> new)) (n + 1).
Proof.
  intros (-> & Hall & Hinc) Hnew Hnd. split; [by rewrite fmap_app|]. split.
  - apply Forall_app. split.
    + eapply Forall_impl; [done|]. intros [t k] [? ?]. simpl in *. split; [done|lia].
    + eapply Forall_impl; [done|]. intros [t k] [? ?]. simpl in *. split; [done|lia].
  - intros i j t1 k1 t2 k2 Hij Hi Hj.
    destruct (decide (j < length log)%nat) as [Hjl|Hjl].
    + rewrite lookup_app_l in Hi by lia. rewrite lookup_app_l in Hj by lia.
      exact (Hinc _ _ _ _ _ _ Hij Hi Hj).
    + rewrite lookup_app_r in Hj by lia.
      pose proof (proj1 (Forall_lookup _ _) Hnew _ _ Hj) as [_ Hk2]. simpl in Hk2.
      destruct (decide (i < length log)%nat) as [Hil|Hil].
      * rewrite lookup_app_l in Hi by lia.
        pose proof (proj1 (Forall_lookup _ _) Hall _ _ Hi) as [_ Hk1]. simpl in Hk1.
        lia.
      * rewrite lookup_app_r in Hi by lia.
        pose proof (proj1 (Forall_lookup _ _) Hnew _ _ Hi) as [_ Hk1]. simpl in Hk1.
        split; [lia|]. intros ->.
        assert (i - length log = j - length log)%nat; [|lia].
        eapply NoDup_lookup; [exact Hnd| |];
          rewrite list_lookup_fmap; [by rewrite Hi | by rewrite Hj].
Qed.

Lemma job_log_snoc log ids n tag :
  job_log log ids n -> tag ∈ call_tags ->
  job_log (log ++ [(tag, n)]) (ids ++ [render_job_id (tag, n)]) (n + 1).
Proof.
  intros Hlog Htag. apply (job_log_extend _ _ _ [(tag, n)] Hlog).
  - by apply Forall_singleton.
  - apply NoDup_singleton.
Qed.

Lemma job_log_snoc_map_reduce log ids n :
  job_log log ids n ->
  job_log (log ++ [("M"%string, n); ("R"%string, n)])
          (ids ++ [render_job_id ("M"%string, n); render_job_id ("R"%string, n)])
          (n + 1).
Proof.
  intros Hlog.
  apply (job_log_extend _ _ _ [("M"%string, n); ("R"%string, n)] Hlog).
  - apply Forall_cons. split; [split; [|done]|apply Forall_singleton; split; [|done]].
    + apply list_elem_of_further, list_elem_of_here.
    + do 2 apply list_elem_of_further. apply list_elem_of_here.
  - apply NoDup_cons. split; [|apply NoDup_singleton].
    by intros ?%list_elem_of_singleton.
Qed.

End JobLog.

Section JobIdFrame.
Context `{Collaborators}.

Variable ids : list string.
Variable n : nat.

Lemma job_ids_app t1 t2 : job_ids (t1 ++ t2) = job_ids t1 ++ job_ids t2.
Proof. unfold job_ids. apply omap_app. Qed.

Lemma ids_frame_emit e :
  is_select_runtime e = false -> preserves (ids_frame ids n) (emit e).
Proof.
  intros He w [Hi Hn]. split; [|done]. simpl.
  rewrite job_ids_app, Hi. destruct e; try done; simpl; by rewrite app_nil_r.
Qed.

Lemma ids_frame_modify (f : World -> World) :
  (forall w, trace (f w) = trace w) ->
  (forall w, total_jobs (f w) = total_jobs w) ->
  preserves (ids_frame ids n) (modify f).
Proof. intros Ht Hj w [Hi Hn]. split; simpl; by rewrite ?Ht, ?Hj. Qed.

Lemma job_ids_clean_events w fs cs cc sp force :
  job_ids (clean_events w fs cs cc sp force) = [].
Proof.
  unfold clean_events.
  destruct (bool_decide (cs = []));
    destruct (clean_returns_early fs cs || clean_raises fs);
    destruct (bool_decide (clean_jobs w fs cs force = ∅)); destruct sp; done.
Qed.

Lemma ids_frame_clean self fs cs cc sp force :
  preserves (ids_frame ids n) (clean self fs cs cc sp force).
Proof.
  intros w [Hi Hn]. rewrite clean_eq. split; [|done]. simpl.
  by rewrite job_ids_app, job_ids_clean_events, app_nil_r.
Qed.

Lemma ids_frame_ext_wait futs dl te opts :
  preserves (ids_frame ids n) (call_ext_wait futs dl te opts).
Proof.
  intros w Hw. unfold call_ext_wait.
  by destruct (ext_wait (heap w) futs dl te opts) as [h [e|]].
Qed.

Ltac ids_step :=
  idtac;
  lazymatch goal with
  | |- preserves _ (_store_func_and_modules _ _ _) =>
      apply preserves__store_func_and_modules; intros
  | |- preserves _ (clean _ _ _ _ _ _) => apply ids_frame_clean
  | |- preserves _ (call_ext_wait _ _ _ _) => apply ids_frame_ext_wait
  | |- preserves _ (emit _) => apply ids_frame_emit; reflexivity
  | |- preserves _ (modify _) => apply ids_frame_modify; intros; reflexivity
  end.

Lemma ids_frame__create_job config eid jid func iterdata mem et cs wp ipt :
  preserves (ids_frame ids n) (_create_job config eid jid func iterdata mem et cs wp ipt).
Proof. unfold _create_job. preserves_split ids_step. Qed.

Lemma ids_frame_run_job job : preserves (ids_frame ids n) (run_job job).
Proof. unfold run_job. preserves_split ids_step. Qed.

Lemma ids_frame_deliver b l : preserves (ids_frame ids n) (deliver b l).
Proof.
  induction l as [|r l IH]; simpl;
    preserves_split ltac:(first [apply IH | ids_step]).
Qed.

Ltac ids_call :=
  idtac;
  lazymatch goal with
  | |- preserves _ (_create_job _ _ _ _ _ _ _ _ _ _) => apply ids_frame__create_job
  | |- preserves _ (run_job _) => apply ids_frame_run_job
  | |- preserves _ (deliver _ _) => apply ids_frame_deliver
  | |- preserves _ (create_map_job _ _ _ _ _ _ _ _ _ _) => unfold create_map_job
  | |- preserves _ (create_reduce_job _ _ _ _ _ _ _ _ _) => unfold create_reduce_job
  | |- preserves _ (no_output _) => unfold no_output
  | |- preserves _ (extend_futures _) => unfold extend_futures
  | |- preserves _ (wait _ _ _ _ _) => unfold wait, wait_except, wait_finally
  | |- preserves _ (get_result_list _ _ _ _) => unfold get_result_list
  | |- _ => ids_step
  end.

Lemma ids_frame_wait self fs te dl opts :
  preserves (ids_frame ids n) (wait self fs te dl opts).
Proof. preserves_split ids_call. Qed.

Lemma ids_frame_get_result self fs te opts :
  preserves (ids_frame ids n) (get_result self fs te opts).
Proof. unfold get_result. preserves_split ids_call. Qed.

Lemma ids_frame_create_map_job config eid jid f input m t c p i :
  preserves (ids_frame ids n) (create_map_job config eid jid f input m t c p i).
Proof. preserves_split ids_call. Qed.

Lemma ids_frame_extend_futures l : preserves (ids_frame ids n) (extend_futures l).
Proof. preserves_split ids_call. Qed.

Lemma ids_frame_no_output_of it :
  preserves (ids_frame ids n)
    (match it with
     | IterFutures l => no_output l
     | IterData _ => mret tt
     end).
Proof. preserves_split ids_call. Qed.

Lemma ids_frame_wait_local self (local : bool) futs :
  preserves (ids_frame ids n)
    (if local
     then wait self (FsList futs) true false default_wait_opts;; mret tt
     else mret tt).
Proof. preserves_split ids_call. Qed.

(** The part of [call_async] that follows [select_runtime]. *)
Lemma ids_frame_call_async_rest self f d m t job_id :
  preserves (ids_frame ids n)
    (job ← create_map_job (self_config self) (self_executor_id self) job_id f [d]
                          m t None None (Some 16);
     futs ← run_job job;
     extend_futures futs;;
     match futs with
     | r :: _ => mret r
     | [] => raise IndexError
     end).
Proof. preserves_split ids_call. Qed.

(** The part of [map] that follows [select_runtime]. *)
Lemma ids_frame_map_rest self f it c p m t i job_id :
  preserves (ids_frame ids n)
    (job ← create_map_job (self_config self) (self_executor_id self) job_id f
                          (iter_data it) m t c p i;
     futs ← run_job job;
     extend_futures futs;;
     (match it with
      | IterFutures l => no_output l
      | IterData _ => mret tt
      end);;
     mret futs).
Proof. preserves_split ids_call. Qed.

(** The part of [map_reduce] that follows the second [select_runtime]. *)
Lemma ids_frame_map_reduce_rest self g map_job map_futures m2 o reduce_job_id :
  preserves (ids_frame ids n)
    (reduce_job ← create_reduce_job (self_config self) (self_executor_id self)
                                    reduce_job_id g map_job map_futures m2 o None;
     reduce_futures ← run_job reduce_job;
     extend_futures reduce_futures;;
     no_output map_futures;;
     mret (map_futures ++ reduce_futures)).
Proof. preserves_split ids_call. Qed.

End JobIdFrame.

Section JobIdClaims.
Context `{Collaborators}.

Lemma bind_frame {A B} (P Q : World -> Prop) (m : M A) (k : A -> M B) w :
  P w -> preserves P m -> (forall w', P w' -> Q w') ->
  (forall a w', P w' -> Q (k a w').2) ->
  Q ((m ≫= k) w).2.
Proof.
  intros Hw Hm HPQ Hk. specialize (Hm w Hw).
  unfold mbind, M_bind, bind. destruct (m w) as [[e|a] w']; simpl in *; auto.
Qed.

Lemma job_announced_frame tag last w :
  ids_frame (job_ids (trace w) ++ [render_job_id (tag, total_jobs w)])
            (total_jobs w + 1) (job_announced tag last w).
Proof. split; [|done]. simpl. by rewrite job_ids_app. Qed.

Lemma call_async_ids self f d m t w :
  ids_frame (job_ids (trace w) ++ [render_job_id ("A"%string, total_jobs w)])
            (total_jobs w + 1) (call_async self f d m t w).2.
Proof.
  apply (ids_frame_call_async_rest _ _ self f d m t _ (job_announced "A" "call_async" w)).
  apply job_announced_frame.
Qed.

Lemma map_ids self f it c p m t i w :
  ids_frame (job_ids (trace w) ++ [render_job_id ("M"%string, total_jobs w)])
            (total_jobs w + 1) (map self f it c p m t i w).2.
Proof.
  apply (ids_frame_map_rest _ _ self f it c p m t i _ (job_announced "M" "map" w)).
  apply job_announced_frame.
Qed.

Lemma announce_then {B} (k : string -> M B) tag last w :
  (modify (set_last_call last);;
   job_id ← _create_job_id tag;
   emit (EvSelectRuntime job_id);;
   k job_id) w
  = k (tag +:+ zfill 3 (str_of_nat (total_jobs w))) (job_announced tag last w).
Proof. reflexivity. Qed.

Lemma map_reduce_ids self f it g c p m1 m2 t i o l w :
  let w' := (map_reduce self f it g c p m1 m2 t i o l w).2 in
  let ids1 := job_ids (trace w) ++ [render_job_id ("M"%string, total_jobs w)] in
  total_jobs w' = (total_jobs w + 1)%nat /\
  (job_ids (trace w') = ids1 \/
   job_ids (trace w') = ids1 ++ [render_job_id ("R"%string, total_jobs w)]).
Proof.
  intros w' ids1.
  set (Q := fun w' : World =>
    total_jobs w' = (total_jobs w + 1)%nat /\
    (job_ids (trace w') = ids1 \/
     job_ids (trace w') = ids1 ++ [render_job_id ("R"%string, total_jobs w)])).
  assert (HPQ : forall w', ids_frame ids1 (total_jobs w + 1) w' -> Q w').
  { intros w0 [Hi Hn]. split; [done | by left]. }
  change (Q w'). unfold w', map_reduce. rewrite announce_then.
  apply (bind_frame (ids_frame ids1 (total_jobs w + 1)));
    [apply job_announced_frame | apply ids_frame_create_map_job | done |].
  intros map_job w1 Hw1.
  apply (bind_frame (ids_frame ids1 (total_jobs w + 1)));
    [done | apply ids_frame_run_job | done |].
  intros map_futures w2 Hw2.
  apply (bind_frame (ids_frame ids1 (total_jobs w + 1)));
    [done | apply ids_frame_extend_futures | done |].
  intros _ w3 Hw3.
  apply (bind_frame (ids_frame ids1 (total_jobs w + 1)));
    [done | apply ids_frame_no_output_of | done |].
  intros _ w4 Hw4.
  apply (bind_frame (ids_frame ids1 (total_jobs w + 1)));
    [done | apply ids_frame_wait_local | done |].
  intros _ w5 Hw5.
  rewrite reduce_job_id.
  assert (Hrest : ids_frame (ids1 ++ [render_job_id ("R"%string, total_jobs w)])
                            (total_jobs w + 1)
                            (emit (EvSelectRuntime ("R" +:+ zfill 3 (str_of_nat (total_jobs w))))
                                  w5).2).
  { destruct Hw5 as [Hi Hn]. split; [|done]. simpl. by rewrite job_ids_app, Hi. }
  pose proof (ids_frame_map_reduce_rest _ _ self g map_job map_futures m2 o
                ("R" +:+ zfill 3 (str_of_nat (total_jobs w))) _ Hrest) as [Hi Hn].
  split; [exact Hn | right; exact Hi].
Qed.

Lemma session_log_run_call self c w : session_log w -> session_log (run_call self c w).
Proof.
  intros [log Hlog].
  destruct c as [f d m t|f it c p m t i|f it g c p m1 m2 t i o l|fs te dl opts|fs te opts
                |fs cs cc sp force]; simpl.
  - destruct (call_async_ids self f d m t w) as [Hi Hn].
    exists (log ++ [("A"%string, total_jobs w)]). rewrite Hi, Hn.
    apply job_log_snoc; [done | apply list_elem_of_here].
  - destruct (map_ids self f it c p m t i w) as [Hi Hn].
    exists (log ++ [("M"%string, total_jobs w)]). rewrite Hi, Hn.
    apply job_log_snoc; [done | apply list_elem_of_further, list_elem_of_here].
  - destruct (map_reduce_ids self f it g c p m1 m2 t i o l w) as [Hn [Hi|Hi]].
    + exists (log ++ [("M"%string, total_jobs w)]). rewrite Hi, Hn.
      apply job_log_snoc; [done | apply list_elem_of_further, list_elem_of_here].
    + exists (log ++ [("M"%string, total_jobs w); ("R"%string, total_jobs w)]).
      rewrite Hi, Hn, <- app_assoc. by apply job_log_snoc_map_reduce.
  - destruct (ids_frame_wait _ _ self fs te dl opts w (conj eq_refl eq_refl)) as [Hi Hn].
    exists log. by rewrite Hi, Hn.
  - destruct (ids_frame_get_result _ _ self fs te opts w (conj eq_refl eq_refl)) as [Hi Hn].
    exists log. by rewrite Hi, Hn.
  - destruct (ids_frame_clean _ _ self fs cs cc sp force w (conj eq_refl eq_refl)) as [Hi Hn].
    exists log. by rewrite Hi, Hn.
Qed.

Lemma session_log_run_session self calls : forall w,
  session_log w -> session_log (run_session self calls w).
Proof.
  unfold run_session. induction calls as [|c calls IH]; intros w Hw; simpl; [done|].
  apply IH. by apply session_log_run_call.
Qed.

(** C8. [_create_job_id] returns the call-type tag followed by the
    zero-padded value of [total_jobs] and adds one to [total_jobs]; the
    padded digits read back as that value, so two ids of the same tag
    made from different counter values differ.  In a session of a new
    executor the job ids given to [select_runtime] are tags [A], [M] or
    [R] followed by counters that never decrease along the session and
    increase between ids of the same tag; the ids are pairwise
    distinct, and so are their job keys when [create_job_key] maps
    different job ids of the executor to different keys. *)
Theorem job_ids_are_unique self :
  (forall call_type w,
     _create_job_id call_type w
     = (inr (call_type +:+ zfill 3 (str_of_nat (total_jobs w))),
        set_total_jobs (total_jobs w + 1) w)) /\
  (forall n, int_of_digits (zfill 3 (str_of_nat n)) = Some n) /\
  (forall call_type n1 n2,
     n1 ≠ n2 ->
     call_type +:+ zfill 3 (str_of_nat n1) ≠ call_type +:+ zfill 3 (str_of_nat n2)) /\
  (forall calls h n,
     let w := run_session self calls (init_world h n) in
     exists log,
       job_log log (job_ids (trace w)) (total_jobs w) /\
       NoDup (job_ids (trace w)) /\
       ((forall j1 j2,
           create_job_key (self_executor_id self) j1
           = create_job_key (self_executor_id self) j2 -> j1 = j2) ->
        NoDup (create_job_key (self_executor_id self) <$> job_ids (trace w)))).
Proof.
  split; [done|]. split; [apply int_of_digits_zfill|]. split.
  - intros call_type n1 n2 Hne Heq. apply Hne.
    apply (inj (String.app call_type)) in Heq. by apply zfill_inj.
  - intros calls h n w.
    destruct (session_log_run_session self calls (init_world h n)) as [log Hlog].
    { exists []. split; [done|]. split; [constructor|]. by intros i j ? ? ? ? _ ?. }
    exists log. split; [done|].
    pose proof (job_log_NoDup _ _ _ Hlog) as Hnd. split; [done|].
    intros Hinj. apply NoDup_fmap_2_strong; [|done].
    intros j1 j2 _ _. apply Hinj.
Qed.

End JobIdClaims.

Lemma job_ids_are_unique_witness :
  let self := Example.executor "serverless" in
  let calls :=
    [@CallMap Example.collaborators "f"%string
        (@IterData Example.collaborators ([[Byte.x41]; [Byte.x42]] : list bytes))
        None None None None None;
     @CallMapReduce Example.collaborators "f"%string
        (@IterData Example.collaborators ([[Byte.x41]] : list bytes)) "g"%string
        None None None None None None false false;
     @CallAsync Example.collaborators "f"%string ([Byte.x43] : bytes) None None] in
  let w := @run_session Example.collaborators self calls Example.fresh in
  job_ids (trace w) = ["M000"; "M001"; "R001"; "A002"]%string /\
  NoDup (@create_job_key Example.collaborators (self_executor_id self)
           <$> job_ids (trace w)).
Proof.
  intros self calls w. split; [vm_compute; reflexivity|].
  destruct (proj2 (proj2 (proj2 (job_ids_are_unique (H := Example.collaborators) self)))
              calls (fun _ => Example.future "A000" false false 0) 0%nat)
    as (log & _ & _ & Hkeys).
  apply Hkeys. intros j1 j2 Heq.
  apply (inj (String.app (self_executor_id self))) in Heq.
  by apply (inj (String.app "-")) in Heq.
Defined.

(** * Further properties of the job builder *)

Section JobBuilderOutcome.
Context `{Collaborators}.

(** The budget of a job that [_create_job] returns is the one lines
    161-179 resolve. *)
Lemma _create_job_budget config eid jid func iterdata mem et cs wp ipt w job w' :
  _create_job config eid jid func iterdata mem et cs wp ipt w = (inr job, w') ->
  (invoke_pool_threads job, runtime_memory job, runtime_timeout job, execution_timeout job)
  = resolve_budget config mem et ipt.
Proof.
  intros Hrun.
  destruct (_create_job_inr _ _ _ _ _ _ _ _ _ _ _ _ _ Hrun)
    as (first & rest & _ & _ & _ & _ & ->).
  cbn [invoke_pool_threads runtime_memory runtime_timeout execution_timeout].
  by destruct (resolve_budget config mem et ipt) as [[[b1 b2] b3] b4].
Qed.

Lemma Forall_local_files dir key mods k :
  Forall (fun ev => is_local_store ev = true) (take k (local_files dir key mods)).
Proof.
  apply Forall_take. constructor; [done|].
  unfold module_events. apply Forall_fmap. by apply Forall_true.
Qed.

(** A build that raises has put nothing to storage: it leaves the world
    it started from, but for files of a customized runtime. *)
Lemma _create_job_inl_world config eid jid func iterdata mem et cs wp ipt w e w' :
  _create_job config eid jid func iterdata mem et cs wp ipt w = (inl e, w') ->
  exists t, w' = recorded w t /\
    Forall (fun ev => is_local_store ev = true) t /\
    (cfg_customized_runtime config = false -> t = []).
Proof.
  intros Hrun. apply _create_job_inl in Hrun. cbv zeta in Hrun.
  assert (Hsame : forall w0, w0 = w ->
            exists t, w0 = recorded w t /\
              Forall (fun ev => is_local_store ev = true) t /\
              (cfg_customized_runtime config = false -> t = [])).
  { intros w0 ->. exists []. by rewrite recorded_nil. }
  destruct (exceeds_data_limit config (dumps_data <$> iterdata));
    [by apply Hsame; destruct Hrun|].
  destruct iterdata as [|d iterdata]; [by apply Hsame; destruct Hrun|].
  destruct Hrun as [Hc Hrun].
  destruct (code_filename func) as [function_file|]; [|by apply Hsame; destruct Hrun].
  destruct (read_error function_file); [by apply Hsame; destruct Hrun|].
  destruct Hrun as (_ & errno & k & _ & _ & ->).
  eexists. split; [done|]. split; [apply Forall_local_files | congruence].
Qed.

(** X1. A job build returns exactly when the data is within the limit
    in force, there is at least one data element and, with a customized
    runtime, the function has a code object, its source file can be
    read and the function file and the module files can all be stored
    locally.  Otherwise it raises, and has put nothing to storage: the
    data-limit exception when the limit is exceeded; else an
    [IndexError] (from [data_strs[0]]) when the input is empty; else,
    with a customized runtime, an [AttributeError] when the function has
    no [__code__], or the [OSError] of reading its source file; in
    these cases the world is the one the build started from.  When
    storing the local files failed, the build raises that [OSError] and
    a proper prefix of the files (the function file, then the module
    files in order) has been written. *)
Theorem job_build_raises_before_any_storage_upload
    config eid jid func iterdata mem et cs wp ipt w :
  let dir := path_join CUSTOM_RUNTIME_DIR (ext_runtime_uuid_of func iterdata) in
  let mods := module_data_of func iterdata in
  match _create_job config eid jid func iterdata mem et cs wp ipt w with
  | (inr job, w') =>
      exceeds_data_limit config (dumps_data <$> iterdata) = false /\ iterdata ≠ [] /\
      (cfg_customized_runtime config = true ->
         exists function_file,
           code_filename func = Some function_file /\
           read_error function_file = None /\
           storable dir func_key_suffix mods)
  | (inl e, w') =>
      exists k,
        (k <= length mods)%nat /\
        w' = recorded w (take k (local_files dir func_key_suffix mods)) /\
        if exceeds_data_limit config (dumps_data <$> iterdata)
        then e = DataLimitExceeded (num (data_limit_of config) * 1024 ^ 2) /\ k = 0%nat
        else
          match iterdata with
          | [] => e = IndexError /\ k = 0%nat
          | _ :: _ =>
              cfg_customized_runtime config = true /\
              match code_filename func with
              | None => e = AttributeError /\ k = 0%nat
              | Some function_file =>
                  match read_error function_file with
                  | Some errno => e = OSError errno /\ k = 0%nat
                  | None =>
                      ~ storable dir func_key_suffix mods /\
                      exists errno, e = OSError errno
                  end
              end
          end
  end.
Proof.
  intros dir mods.
  destruct (_create_job config eid jid func iterdata mem et cs wp ipt w)
    as [[e|job] w'] eqn:Hrun.
  - apply _create_job_inl in Hrun. cbv zeta in Hrun. fold dir mods in Hrun.
    destruct (exceeds_data_limit config (dumps_data <$> iterdata)).
    { destruct Hrun as [-> ->]. exists 0%nat. split; [lia|]. by rewrite recorded_nil. }
    destruct iterdata as [|d iterdata].
    { destruct Hrun as [-> ->]. exists 0%nat. split; [lia|]. by rewrite recorded_nil. }
    destruct Hrun as [Hc Hrun].
    destruct (code_filename func) as [function_file|].
    2: { destruct Hrun as [-> ->]. exists 0%nat. split; [lia|]. by rewrite recorded_nil. }
    destruct (read_error function_file) as [errno|].
    { destruct Hrun as [-> ->]. exists 0%nat. split; [lia|]. by rewrite recorded_nil. }
    destruct Hrun as (Hno & errno & k & -> & Hk & ->).
    exists k. split; [done|]. split; [done|]. split; [done|]. split; [done|]. by exists errno.
  - destruct (_create_job_inr _ _ _ _ _ _ _ _ _ _ _ _ _ Hrun)
      as (first & rest & Hd & Hx & Hlocal & _ & _).
    split; [done|]. split; [|done].
    intros ->. done.
Qed.

(** X2. A job build that returns has made its uploads in this order and
    no other change to the world: first the function, to storage under
    the function key or, with a customized runtime, as the function
    file followed by the module files in the local runtime directory
    and not to storage; then the aggregated data under the job's data
    key, unless the data travels inline.  The job records the function
    key and, with a customized runtime, the runtime uuid and the local
    directory. *)
Theorem job_build_uploads_function_then_data
    config eid jid func iterdata mem et cs wp ipt w job w' :
  _create_job config eid jid func iterdata mem et cs wp ipt w = (inr job, w') ->
  let dir := path_join CUSTOM_RUNTIME_DIR (ext_runtime_uuid_of func iterdata) in
  let func_events :=
    if cfg_customized_runtime config
    then EvStoreLocal dir func_key_suffix
         :: module_events dir (module_data_of func iterdata)
    else [EvPutFunc (create_func_key JOBS_PREFIX eid jid)
                    (pickle_func_module func iterdata)] in
  let data_events :=
    match data_key job with
    | Some key => [EvPutData key (agg_data (dumps_data <$> iterdata)).1]
    | None => []
    end in
  trace w' = trace w ++ func_events ++ data_events /\
  heap w' = heap w /\ futures w' = futures w /\ cleaned_jobs w' = cleaned_jobs w /\
  total_jobs w' = total_jobs w /\ last_call w' = last_call w /\
  (cfg_customized_runtime config = true ->
     func_key job = func_key_suffix /\
     ext_runtime_uuid job = Some (ext_runtime_uuid_of func iterdata) /\
     local_tmp_dir job = Some dir) /\
  (cfg_customized_runtime config = false ->
     func_key job = create_func_key JOBS_PREFIX eid jid /\
     ext_runtime_uuid job = None /\ local_tmp_dir job = None).
Proof.
  intros Hrun dir func_events data_events.
  destruct (_create_job_inr _ _ _ _ _ _ _ _ _ _ _ _ _ Hrun)
    as (first & rest & _ & _ & _ & -> & Hjob).
  unfold data_events, func_events, dir. rewrite Hjob.
  cbn [data_key func_key ext_runtime_uuid local_tmp_dir].
  unfold recorded, local_files. cbn [trace heap futures cleaned_jobs total_jobs last_call].
  split.
  { by destruct (upload_data config (or_int cs (cfg_chunksize config)) first). }
  do 5 (split; [done|]).
  split; intros ->; done.
Qed.

End JobBuilderOutcome.

Lemma job_build_uploads_function_then_data_witness :
  (exists job w',
     @_create_job Example.collaborators
       (Example.config "serverless" "ibm_vpc" 1800 None) "a1b2c3-0" "M000" "f"%string
       [[Byte.x41]; [Byte.x42]] None None None None None Example.fresh = (inr job, w') /\
     trace w' = [EvPutFunc "lithops.jobs/a1b2c3-0-M000/func.pickle" [];
                 EvPutData "lithops.jobs/a1b2c3-0-M000/aggdata.pickle"
                           [Byte.x41; Byte.x42]]) /\
  (exists job w',
     @_create_job Example.collaborators
       (mkConfig "serverless" "ibm_vpc" 1 1 1800 None None 256 600 3600 true)
       "a1b2c3-0" "M000" "f"%string
       [[Byte.x41]; [Byte.x42]] None None None None None Example.fresh = (inr job, w') /\
     trace w' = [EvStoreLocal "/tmp/lithops/runtime/f" "func.pickle";
                 EvStoreModule "/tmp/lithops/runtime/f/modules/lib/helper.py" [Byte.x23];
                 EvPutData "lithops.jobs/a1b2c3-0-M000/aggdata.pickle"
                           [Byte.x41; Byte.x42]] /\
     local_tmp_dir job = Some "/tmp/lithops/runtime/f"%string).
Proof.
  split.
  - destruct (@_create_job Example.collaborators
        (Example.config "serverless" "ibm_vpc" 1800 None) "a1b2c3-0" "M000" "f"%string
        [[Byte.x41]; [Byte.x42]] None None None None None Example.fresh)
      as [[e|job] w'] eqn:Hrun; [vm_compute in Hrun; discriminate|].
    exists job, w'. split; [reflexivity|].
    destruct (job_build_uploads_function_then_data _ _ _ _ _ _ _ _ _ _ _ _ _ Hrun)
      as (Ht & _).
    rewrite Ht. vm_compute in Hrun. injection Hrun as <- <-. reflexivity.
  - destruct (@_create_job Example.collaborators
        (mkConfig "serverless" "ibm_vpc" 1 1 1800 None None 256 600 3600 true)
        "a1b2c3-0" "M000" "f"%string
        [[Byte.x41]; [Byte.x42]] None None None None None Example.fresh)
      as [[e|job] w'] eqn:Hrun; [vm_compute in Hrun; discriminate|].
    exists job, w'. split; [reflexivity|].
    destruct (job_build_uploads_function_then_data _ _ _ _ _ _ _ _ _ _ _ _ _ Hrun)
      as (Ht & _ & _ & _ & _ & _ & Hcustom & _).
    split; [|by apply Hcustom].
    rewrite Ht. vm_compute in Hrun. injection Hrun as <- <-. reflexivity.
Defined.

Section InlineBound.
Context `{Collaborators}.

Lemma repr_byte_len_bounds quote c : 1 <= repr_byte_len quote c <= 4.
Proof.
  unfold repr_byte_len.
  repeat match goal with |- context [if ?b then _ else _] => destruct b end; lia.
Qed.

(** The text of a bytes literal has the [b], the two quotes, and one to
    four characters per byte. *)
Lemma len_str_bytes_bounds bs :
  Z.of_nat (length bs) + 3 <= len_str_bytes bs <= 4 * Z.of_nat (length bs) + 3.
Proof.
  unfold len_str_bytes.
  generalize (if has_byte 39 bs && negb (has_byte 34 bs) then 34%N else 39%N).
  intros quote. induction bs as [|c bs IH]; simpl foldr; simpl length; [lia|].
  pose proof (repr_byte_len_bounds quote c). lia.
Qed.

(** X3. With a positive chunksize, data that travels inline has a
    first element of fewer than 9629 bytes: (its length + 3) times the
    chunksize is below 9632.  Conversely, on a FaaS backend a first
    element with (4 * length + 3) times the chunksize below 9632 always
    travels inline. *)
Theorem inline_data_size_bound
    config eid jid func iterdata mem et cs wp ipt w job w' first rest :
  _create_job config eid jid func iterdata mem et cs wp ipt w = (inr job, w') ->
  dumps_data <$> iterdata = first :: rest ->
  0 < chunksize job ->
  (data_key job = None ->
     (Z.of_nat (length first) + 3) * chunksize job < 9632 /\
     Z.of_nat (length first) < 9629) /\
  (cfg_backend config ∈ FAAS_BACKENDS ->
     (4 * Z.of_nat (length first) + 3) * chunksize job < 9632 ->
     data_key job = None).
Proof.
  intros Hrun Hd Hpos.
  destruct (_create_job_returns _ _ _ _ _ _ _ _ _ _ _ _ _ Hrun)
    as (first' & rest' & Hd' & _ & _ & _ & _ & _ & _ & _ & Hup).
  rewrite Hd in Hd'. injection Hd' as <- <-.
  pose proof (len_str_bytes_bounds first) as [Hlo Hhi].
  unfold upload_data in Hup. change (8 * 1204) with 9632 in Hup.
  split.
  - intros Hnone.
    destruct (Z.ltb_spec (len_str_bytes first * chunksize job) 9632) as [Hlt|Hge];
      simpl in Hup.
    + split; nia.
    + destruct Hup as [Hk _]. congruence.
  - intros Hb Hlt.
    destruct (Z.ltb_spec (len_str_bytes first * chunksize job) 9632) as [Hlt'|Hge];
      simpl in Hup; [|nia].
    rewrite (bool_decide_eq_true_2 _ Hb) in Hup. simpl in Hup. tauto.
Qed.

End InlineBound.

Lemma inline_data_size_bound_witness :
  exists job w',
    @_create_job Example.collaborators
      (Example.config "serverless" "ibm_cf" 1800 None) "a1b2c3-0" "M000" "f"%string
      [[Byte.x41]] None None None None None Example.fresh = (inr job, w') /\
    data_key job = None.
Proof.
  destruct (@_create_job Example.collaborators
      (Example.config "serverless" "ibm_cf" 1800 None) "a1b2c3-0" "M000" "f"%string
      [[Byte.x41]] None None None None None Example.fresh)
    as [[e|job] w'] eqn:Hrun; [vm_compute in Hrun; discriminate|].
  exists job, w'. split; [reflexivity|].
  assert (Hcs : chunksize job = 1).
  { vm_compute in Hrun. by injection Hrun as <- <-. }
  destruct (inline_data_size_bound _ _ _ _ _ _ _ _ _ _ _ _ _ [Byte.x41] [] Hrun eq_refl)
    as [_ Hinline]; [rewrite Hcs; reflexivity|].
  apply Hinline; [apply list_elem_of_here | rewrite Hcs; reflexivity].
Defined.

Section Budget.
Context `{Collaborators}.

(** X4. Outside the serverless and standalone modes the execution
    timeout is never clamped: it is the requested one, or the
    configured one when none or 0 was requested.  In localhost mode the
    job's [runtime_timeout] is the caller's argument as given, [None]
    included, and its [runtime_memory] is [None]; in any other mode the
    job has neither attribute. *)
Theorem local_job_timeout_is_not_clamped
    config eid jid func iterdata mem et cs wp ipt w job w' :
  _create_job config eid jid func iterdata mem et cs wp ipt w = (inr job, w') ->
  cfg_mode config ≠ SERVERLESS ->
  str_in (cfg_mode config) STANDALONE = false ->
  execution_timeout job = or_int et (cfg_execution_timeout config) /\
  (et = None \/ et = Some 0 -> execution_timeout job = cfg_execution_timeout config) /\
  invoke_pool_threads job = None /\
  (cfg_mode config = LOCALHOST ->
     runtime_timeout job = Some et /\ runtime_memory job = Some None) /\
  (cfg_mode config ≠ LOCALHOST ->
     runtime_timeout job = None /\ runtime_memory job = None).
Proof.
  intros Hrun Hs Hst.
  pose proof (_create_job_budget _ _ _ _ _ _ _ _ _ _ _ _ _ Hrun) as Hb.
  unfold resolve_budget, mode_branch in Hb. rewrite Hst in Hb.
  destruct (String.eqb_spec (cfg_mode config) SERVERLESS); [done|].
  destruct (String.eqb_spec (cfg_mode config) LOCALHOST) as [Hl|Hl];
    injection Hb as Hipt Hmem Hrt Het; rewrite Het.
  all: split; [done|].
  all: split; [by intros [->| ->]|].
  all: split; [done|].
  all: split; intros Hm; by try split.
Qed.

End Budget.

Lemma local_job_timeout_is_not_clamped_witness :
  exists job w',
    @_create_job Example.collaborators
      (Example.config "localhost" "localhost" 1800 None) "a1b2c3-0" "M000" "f"%string
      [[Byte.x41]] None (Some 0) None None None Example.fresh = (inr job, w') /\
    execution_timeout job = 1800 /\ runtime_timeout job = Some (Some 0).
Proof.
  destruct (@_create_job Example.collaborators
      (Example.config "localhost" "localhost" 1800 None) "a1b2c3-0" "M000" "f"%string
      [[Byte.x41]] None (Some 0) None None None Example.fresh)
    as [[e|job] w'] eqn:Hrun; [vm_compute in Hrun; discriminate|].
  exists job, w'. split; [reflexivity|].
  destruct (local_job_timeout_is_not_clamped _ _ _ _ _ _ _ _ _ _ _ _ _ Hrun)
    as (_ & Hcfg & _ & Hlocal & _);
    [vm_compute; discriminate | vm_compute; reflexivity |].
  split; [apply Hcfg; by right | by apply Hlocal].
Defined.

Section MapJob.
Context `{Collaborators}.

(** X5. A map job has one call per partition when the function
    processes objects, and one call per checked input item otherwise;
    it carries [parts_per_object] only when the partitioner returned a
    non-empty list of counts.  A map job build that raises has put
    nothing to storage: it has at most written files of a customized
    runtime to the local runtime directory, and without a customized
    runtime it leaves the world as it was. *)
Theorem map_job_has_one_call_per_partition
    config eid jid f iterdata mem et cs wp ipt w :
  match create_map_job config eid jid f iterdata mem et cs wp ipt w with
  | (inr job, w') =>
      exists items, verify_args f iterdata = inr items /\
        match create_partitions f items with
        | Some (parts, ppo) =>
            total_calls job = length parts /\
            parts_per_object job = (if bool_decide (ppo = []) then None else Some ppo)
        | None => total_calls job = length items /\ parts_per_object job = None
        end
  | (inl e, w') =>
      exists t, w' = recorded w t /\
        Forall (fun ev => is_local_store ev = true) t /\
        (cfg_customized_runtime config = false -> w' = w)
  end.
Proof.
  assert (Hfail : forall data e w',
    _create_job config eid jid f data mem et cs wp ipt w = (inl e, w') ->
    exists t, w' = recorded w t /\
      Forall (fun ev => is_local_store ev = true) t /\
      (cfg_customized_runtime config = false -> w' = w)).
  { intros data e w' Hrun.
    destruct (_create_job_inl_world _ _ _ _ _ _ _ _ _ _ _ _ _ Hrun) as (t & -> & Ht & Hnil).
    exists t. split; [done|]. split; [done|].
    intros Hc. rewrite (Hnil Hc). apply recorded_nil. }
  unfold create_map_job, map_job_input.
  destruct (verify_args f iterdata) as [e|items] eqn:Hv.
  { exists []. by rewrite recorded_nil. }
  destruct (create_partitions f items) as [[parts ppo]|] eqn:Hp.
  - unfold mbind, M_bind, bind.
    destruct (_create_job config eid jid f parts mem et cs wp ipt w) as [[e|job] w'] eqn:Hrun;
      [by eapply Hfail|].
    destruct (_create_job_returns _ _ _ _ _ _ _ _ _ _ _ _ _ Hrun)
      as (_ & _ & _ & _ & _ & _ & _ & _ & Htc & Hppo & _).
    destruct ppo as [|p ps]; simpl; exists items; rewrite Hp; done.
  - unfold mbind, M_bind, bind.
    destruct (_create_job config eid jid f items mem et cs wp ipt w) as [[e|job] w'] eqn:Hrun;
      [by eapply Hfail|].
    destruct (_create_job_returns _ _ _ _ _ _ _ _ _ _ _ _ _ Hrun)
      as (_ & _ & _ & _ & _ & _ & _ & _ & Htc & Hppo & _).
    simpl. exists items. rewrite Hp. done.
Qed.

End MapJob.

Section Reducers.
Context `{Collaborators}.

(** X6. With one reducer per object and non-negative counts, slicing
    never fails: there is one reduce input per count, the inputs taken
    in order are the first [sum(parts_per_object)] map futures, and the
    input of object [i] holds as many futures as its count asks for or
    as are left after its offset, whichever is smaller.  Futures beyond
    the sum reach no reducer; counts beyond the list give short or
    empty inputs. *)
Theorem reduce_inputs_are_a_prefix (map_job : Job) (map_futures : list nat) (ppo : list Z) :
  parts_per_object map_job = Some ppo ->
  Forall (fun t => 0 <= t) ppo ->
  let inputs := reduce_iterdata map_job map_futures true in
  length inputs = length ppo /\
  concat inputs = take (Z.to_nat (sum_Z ppo)) map_futures /\
  forall i t, ppo !! i = Some t ->
    exists input, inputs !! i = Some input /\
      length input
      = (Z.to_nat t `min` (length map_futures - Z.to_nat (partition_offset ppo i)))%nat.
Proof.
  intros Hppo Hp inputs. unfold inputs, reduce_iterdata. rewrite Hppo.
  split; [apply length_one_per_object|]. split.
  - by rewrite concat_one_per_object.
  - intros i t Hi. eexists. split.
    + by apply one_per_object_lookup.
    + rewrite length_take, length_drop. by rewrite Z.add_0_l.
Qed.

End Reducers.

Lemma reduce_inputs_are_a_prefix_witness :
  @reduce_iterdata Example.map_job [0; 1]%nat true = [[0; 1]%nat; []] /\
  concat (@reduce_iterdata Example.map_job [0; 1; 2; 3]%nat true) = [0; 1; 2]%nat.
Proof.
  split; [reflexivity|].
  destruct (reduce_inputs_are_a_prefix Example.map_job [0; 1; 2; 3]%nat [2; 1] eq_refl)
    as (_ & Hc & _); [repeat constructor; lia|].
  exact Hc.
Defined.

Section Modules.

(** X7. Resolving the modules never raises.  The excluded modules are
    those of the configuration and of the argument together.  The
    included modules are [None] when the [include_modules] argument is
    [None], or is empty while the configuration entry is [None];
    otherwise they are those of the configuration and of the argument
    together. *)
Theorem resolve_modules_never_raises
    (exclude_modules_cfg include_modules_cfg exclude_modules include_modules
       : option (list string)) :
  resolve_modules exclude_modules_cfg include_modules_cfg exclude_modules include_modules
  = Some (list_to_set (default [] exclude_modules_cfg)
            ∪ list_to_set (default [] exclude_modules),
          match include_modules, include_modules_cfg with
          | None, _ => None
          | Some [], None => None
          | Some l, _ =>
              Some (list_to_set (default [] include_modules_cfg) ∪ list_to_set l)
          end).
Proof.
  unfold resolve_modules.
  destruct exclude_modules_cfg as [[|a la]|], exclude_modules as [[|b lb]|],
           include_modules_cfg as [lc|], include_modules as [[|d ld]|];
    simpl; f_equal; f_equal;
    rewrite ?union_empty_l_L, ?union_empty_r_L; done.
Qed.

End Modules.

(** * The DAG decorator *)

Section Strip.
Import Dag.

Lemma lstrip_spec (s : pystr) :
  exists pre, s = pre ++ lstrip s /\
    Forall (fun c => is_space c = true) pre /\
    (forall c, head (lstrip s) = Some c -> is_space c = false).
Proof.
  induction s as [|c s (pre & Hs & Hpre & Hhead)]; simpl.
  - exists []. by repeat split.
  - destruct (is_space c) eqn:Hc.
    + exists (c :: pre). simpl. rewrite <- Hs. repeat split; [by constructor | done].
    + exists []. repeat split; [constructor|]. simpl. by intros ? [= <-].
Qed.

Lemma rstrip_spec (s : pystr) :
  exists post, s = rstrip s ++ post /\
    Forall (fun c => is_space c = true) post /\
    (forall c, last (rstrip s) = Some c -> is_space c = false).
Proof.
  destruct (lstrip_spec (reverse s)) as (pre & Hs & Hpre & Hhead).
  exists (reverse pre). unfold rstrip. split; [|split].
  - by rewrite <- reverse_app, <- Hs, reverse_involutive.
  - by apply Forall_reverse.
  - intros c. rewrite last_reverse. apply Hhead.
Qed.

(** X8. The key that [DAG] reads from a line is the line without its
    leading and trailing whitespace (the line terminator included): the
    line is some whitespace, the key, some whitespace, and the key
    neither starts nor ends with a whitespace character.  Hence a
    whitespace-only line gives the empty key, stripping twice changes
    nothing, and a line terminator appended to a line does not change
    its key. *)
Theorem dag_key_is_the_stripped_line (line : pystr) :
  (exists pre post,
     line = pre ++ strip line ++ post /\
     Forall (fun c => is_space c = true) pre /\
     Forall (fun c => is_space c = true) post /\
     (forall c, head (strip line) = Some c -> is_space c = false) /\
     (forall c, last (strip line) = Some c -> is_space c = false)) /\
  (Forall (fun c => is_space c = true) line -> strip line = []) /\
  strip (strip line) = strip line /\
  strip (line ++ [10%N]) = strip line.
Proof.
  assert (Hspec : forall s : pystr, exists pre post,
     s = pre ++ strip s ++ post /\
     Forall (fun c => is_space c = true) pre /\
     Forall (fun c => is_space c = true) post /\
     (forall c, head (strip s) = Some c -> is_space c = false) /\
     (forall c, last (strip s) = Some c -> is_space c = false)).
  { intros s.
    destruct (lstrip_spec s) as (pre & Hs & Hpre & Hhead).
    destruct (rstrip_spec (lstrip s)) as (post & Ht & Hpost & Hlast).
    exists pre, post. unfold strip. split; [by rewrite <- Ht|].
    do 2 (split; [done|]). split; [|done]. clear Hs Hlast.
    intros c Hc. apply Hhead. rewrite Ht.
    by destruct (rstrip (lstrip s)). }
  assert (Huniq : forall (s core : pystr) pre post,
     s = pre ++ core ++ post ->
     Forall (fun c => is_space c = true) pre ->
     Forall (fun c => is_space c = true) post ->
     (forall c, head core = Some c -> is_space c = false) ->
     (forall c, last core = Some c -> is_space c = false) ->
     strip s = core).
  { intros s core pre post -> Hpre Hpost Hhead Hlast.
    assert (Hl : forall t : pystr, (forall c, head t = Some c -> is_space c = false) ->
              lstrip (pre ++ t) = t).
    { intros t Ht. induction Hpre as [|c pre Hc _ IH]; simpl.
      - destruct t as [|c t]; [done|]. simpl. by rewrite (Ht c eq_refl).
      - by rewrite Hc. }
    unfold strip, rstrip.
    destruct core as [|c0 core].
    - simpl.
      assert (Hall : forall p : pystr, Forall (fun c => is_space c = true) p ->
                lstrip p = []).
      { intros p Hp. induction Hp as [|c' l Hc' _ IH]; simpl; [done | by rewrite Hc']. }
      rewrite (Hall (pre ++ post)) by (by apply Forall_app).
      done.
    - rewrite (Hl ((c0 :: core) ++ post)) by (simpl; apply Hhead).
      rewrite reverse_app.
      apply Forall_reverse in Hpost.
      assert (Hr : forall t : pystr, (forall c, head t = Some c -> is_space c = false) ->
                t ≠ [] -> lstrip (reverse post ++ t) = t).
      { intros t Ht Hne. induction Hpost as [|c l Hc _ IH]; simpl.
        - destruct t as [|c t]; [done|]. simpl. by rewrite (Ht c eq_refl).
        - by rewrite Hc. }
      rewrite Hr.
      + by rewrite reverse_involutive.
      + intros c. rewrite head_reverse. apply Hlast.
      + intros Hnil. apply (f_equal reverse) in Hnil.
        by rewrite reverse_involutive in Hnil. }
  split; [apply Hspec|]. split; [|split].
  - intros Hall. apply (Huniq line [] line []);
      first [done | constructor | by rewrite app_nil_r].
  - destruct (Hspec line) as (pre & post & _ & _ & _ & Hhead & Hlast).
    apply (Huniq (strip line) (strip line) [] []);
      first [done | constructor | by rewrite app_nil_r].
  - destruct (Hspec line) as (pre & post & Hs & Hpre & Hpost & Hhead & Hlast).
    apply (Huniq (line ++ [10%N]) (strip line) pre (post ++ [10%N])); try done.
    + rewrite Hs at 1. by rewrite <- !app_assoc.
    + apply Forall_app. split; [done|]. by repeat constructor.
Qed.

End Strip.

Section Dict.
Import Dag.
Context {V : Type}.
Implicit Types d bs : list (pystr * V).

Lemma dict_set_keys k v d :
  (dict_set k v d).*1 = if decide (k ∈ d.*1) then d.*1 else d.*1 ++ [k].
Proof.
  induction d as [|[k' v'] d IH]; [done|].
  cbn [dict_set fmap list_fmap fst].
  - destruct (decide (k' = k)) as [->|Hne]; cbn [fmap list_fmap fst].
    + rewrite decide_True; [done | by left].
    + rewrite IH. destruct (decide (k ∈ d.*1)) as [Hin|Hout].
      * rewrite decide_True; [done | by right].
      * rewrite decide_False; [done|].
        intros [?|?]%elem_of_cons; congruence.
Qed.

Lemma elem_of_dict_set k v d k0 v0 :
  NoDup d.*1 ->
  (k0, v0) ∈ dict_set k v d <-> (k0 = k /\ v0 = v) \/ (k0 ≠ k /\ (k0, v0) ∈ d).
Proof.
  induction d as [|[k' v'] d IH]; simpl; intros Hnd.
  - rewrite list_elem_of_singleton. split.
    + intros [= -> ->]. by left.
    + intros [[-> ->]|[_ []%elem_of_nil]]. done.
  - apply NoDup_cons in Hnd as [Hk' Hnd]. specialize (IH Hnd).
    destruct (decide (k' = k)) as [->|Hne]; rewrite !elem_of_cons.
    + split.
      * intros [[= -> ->]|Hin]; [by left|]. right. split; [|by right].
        intros ->. apply Hk'. by apply (list_elem_of_fmap_2 fst) in Hin.
      * intros [[-> ->]|[Hne [[= -> ->]|Hin]]]; [by left | done | by right].
    + rewrite IH. split.
      * intros [[= -> ->]|[[-> ->]|[Hne' Hin]]].
        -- right. split; [done | by left].
        -- by left.
        -- right. split; [done | by right].
      * intros [[-> ->]|[Hne' [[= -> ->]|Hin]]].
        -- right. by left.
        -- by left.
        -- right. right. done.
Qed.

(** A [dict] filled by the assignments [bs], in order: its keys are
    those of [bs] in the order of their first assignment, and each
    holds the value assigned last. *)
Lemma dict_of_assignments bs :
  let d := foldl (fun d b => dict_set b.1 b.2 d) [] bs in
  NoDup d.*1 /\
  (forall k, k ∈ d.*1 <-> k ∈ bs.*1) /\
  d.*1 `sublist_of` bs.*1 /\
  (forall k v, (k, v) ∈ d <->
     exists i, bs !! i = Some (k, v) /\
       forall j v', (i < j)%nat -> bs !! j ≠ Some (k, v')).
Proof.
  induction bs as [|[k1 v1] bs (Hnd & Hmem & Hsub & Hlast)] using rev_ind; simpl.
  - split; [constructor|]. split; [done|]. split; [done|].
    intros k v. split; [by intros ?%elem_of_nil | by intros (i & ? & _)].
  - rewrite foldl_app. simpl.
    set (d := foldl (fun d b => dict_set b.1 b.2 d) [] bs) in *.
    rewrite fmap_app. simpl. rewrite dict_set_keys.
    split; [|split; [|split]].
    + destruct (decide (k1 ∈ d.*1)); [done|].
      apply NoDup_app. split; [done|]. split; [|apply NoDup_singleton].
      intros x Hx ->%list_elem_of_singleton. done.
    + intros k. rewrite elem_of_app, list_elem_of_singleton, <- Hmem.
      destruct (decide (k1 ∈ d.*1)) as [Hin|Hout].
      * split; [by left | by intros [?| ->]].
      * by rewrite elem_of_app, list_elem_of_singleton.
    + destruct (decide (k1 ∈ d.*1)).
      * by apply sublist_inserts_r.
      * by apply sublist_app.
    + intros k v. rewrite (elem_of_dict_set _ _ _ _ _ Hnd), Hlast. split.
      * intros [[-> ->]|(Hne & i & Hi & Hlater)].
        -- exists (length bs). split; [by apply list_lookup_middle|].
           intros j v' Hj. rewrite lookup_ge_None_2; [done|].
           rewrite length_app. simpl. lia.
        -- exists i. pose proof (lookup_lt_Some _ _ _ Hi) as Hlt.
           split; [by rewrite lookup_app_l|].
           intros j v' Hj.
           destruct (decide (j < length bs)%nat) as [Hjl|Hjl].
           ++ rewrite lookup_app_l by done. by apply Hlater.
           ++ destruct (decide (j = length bs)) as [->|Hjn].
              ** rewrite list_lookup_middle by done. congruence.
              ** rewrite lookup_ge_None_2; [done|]. rewrite length_app. simpl. lia.
      * intros (i & Hi & Hlater).
        destruct (decide (i < length bs)%nat) as [Hil|Hil].
        -- right. rewrite lookup_app_l in Hi by done.
           split.
           ++ intros ->. apply (Hlater (length bs) v1); [done|].
              by apply list_lookup_middle.
           ++ exists i. split; [done|]. intros j v' Hj Hbs.
              apply (Hlater j v' Hj). rewrite lookup_app_l; [done|].
              by apply lookup_lt_Some in Hbs.
        -- left. apply lookup_lt_Some in Hi as Hlt. rewrite length_app in Hlt.
           simpl in Hlt. assert (i = length bs) as -> by lia.
           rewrite list_lookup_middle in Hi by done. by injection Hi as -> ->.
Qed.

Lemma first_occurrences_snoc (l : list pystr) k :
  first_occurrences (l ++ [k])
  = if decide (k ∈ l) then first_occurrences l else first_occurrences l ++ [k].
Proof.
  induction l as [|a l IH]; [done|].
  cbn [app first_occurrences]. rewrite IH. clear IH.
  destruct (decide (k ∈ a :: l)) as [Hin|Hout].
  - destruct (decide (k ∈ l)) as [Hl|Hl]; [done|].
    apply elem_of_cons in Hin as [->|Hin]; [|done].
    rewrite filter_app, filter_cons, decide_False by (by intros ?).
    by rewrite filter_nil, app_nil_r.
  - rewrite not_elem_of_cons in Hout. destruct Hout as [Hne Hout].
    rewrite decide_False by done.
    rewrite filter_app, filter_cons, decide_True by done.
    by rewrite filter_nil.
Qed.

(** The keys of a [dict] filled by the assignments [bs] are the keys
    assigned, in the order of their first assignment. *)
Lemma dict_keys_of_assignments bs :
  (foldl (fun d b => dict_set b.1 b.2 d) [] bs).*1 = first_occurrences bs.*1.
Proof.
  induction bs as [|[k1 v1] bs IH] using rev_ind; [done|].
  rewrite foldl_app, fmap_app. simpl.
  rewrite dict_set_keys, first_occurrences_snoc, IH.
  destruct (dict_of_assignments bs) as (_ & Hmem & _). simpl in Hmem.
  rewrite IH in Hmem.
  destruct (decide (k1 ∈ first_occurrences bs.*1)) as [Hin|Hout].
  - rewrite decide_True; [done | by apply Hmem].
  - rewrite decide_False; [done|]. intros Hin. by apply Hout, Hmem.
Qed.

End Dict.

Section DagWrapper.
Import Dag.
Context {Fn V E St : Type}.

Variable fn_name : Fn -> pystr.
Variable call : Fn -> list V -> Globals Fn St -> (E + V) * Globals Fn St.

(** No registered function rebinds or mutates [FUNCTIONS]. *)
Hypothesis registry_is_stable :
  forall f values g, FUNCTIONS (call f values g).2 = FUNCTIONS g.

(** The call [c] is the one made for the line [key], and it returned. *)
Let returned_call (functions : gmap pystr Fn) (values : list V) (key : pystr)
    (c : Fn * list V * (E + V)) : Prop :=
  functions !! key = Some c.1.1 /\ c.1.2 = values /\ exists v, c.2 = inr v.

Lemma dag_loop_returns keys values : forall returns log g returns' g' log' functions,
  FUNCTIONS g = Some functions ->
  dag_loop call keys values returns log g = (inr returns', g', log') ->
  exists (bs : list (pystr * V)) cs,
    bs.*1 = keys /\ log' = log ++ cs /\
    Forall2 (returned_call functions values) keys cs /\
    Forall2 (fun (b : pystr * V) (c : Fn * list V * (E + V)) => c.2 = inr b.2) bs cs /\
    returns' = foldl (fun d b => dict_set b.1 b.2 d) returns bs.
Proof.
  induction keys as [|key keys IH]; intros returns log g returns' g' log' functions Hg; simpl.
  - intros [= <- <- <-]. exists [], []. rewrite app_nil_r. by repeat split.
  - rewrite Hg. destruct (functions !! key) as [f|] eqn:Hf; [|done].
    pose proof (registry_is_stable f values g) as Hst.
    destruct (call f values g) as [[e|value] g1] eqn:Hcall; [done|]. simpl in Hst.
    intros Hloop. rewrite Hg in Hst.
    destruct (IH _ _ _ _ _ _ _ Hst Hloop) as (bs & cs & Hbs & Hlog & Hcalls & Hvals & Hret).
    exists ((key, value) :: bs), ((f, values, inr value) :: cs).
    split; [by rewrite <- Hbs|]. split; [by rewrite Hlog, <- app_assoc|].
    split; [constructor; [by repeat split; eauto | done]|].
    split; [by constructor|]. done.
Qed.

Lemma dag_loop_raises keys values : forall returns log g e g' log' functions,
  FUNCTIONS g = Some functions ->
  dag_loop call keys values returns log g = (inl e, g', log') ->
  exists pre key post cs,
    keys = pre ++ key :: post /\
    Forall2 (returned_call functions values) pre cs /\
    match e with
    | NameError => False
    | KeyError k => k = key /\ functions !! key = None /\ log' = log ++ cs
    | Raised e' =>
        exists f, functions !! key = Some f /\ log' = log ++ cs ++ [(f, values, inl e')]
    end.
Proof.
  induction keys as [|key keys IH]; intros returns log g e g' log' functions Hg; simpl;
    [done|].
  rewrite Hg. destruct (functions !! key) as [f|] eqn:Hf.
  - pose proof (registry_is_stable f values g) as Hst.
    destruct (call f values g) as [[e'|value] g1] eqn:Hcall; simpl in Hst.
    + intros [= <- <- <-]. exists [], key, keys, []. split; [done|]. split; [constructor|].
      exists f. by split.
    + intros Hloop. rewrite Hg in Hst.
      destruct (IH _ _ _ _ _ _ _ Hst Hloop) as (pre & k & post & cs & Hkeys & Hcalls & He).
      exists (key :: pre), k, post, ((f, values, inr value) :: cs).
      split; [by rewrite Hkeys|].
      split; [constructor; [by repeat split; eauto | done]|].
      destruct e as [|k'|e']; [done| |].
      * destruct He as (-> & Hnone & ->). by rewrite <- app_assoc.
      * destruct He as (f' & Hf' & ->). exists f'. by rewrite <- !app_assoc.
  - intros [= <- <- <-]. exists [], key, keys, []. split; [done|]. split; [constructor|].
    by rewrite app_nil_r.
Qed.

(** X9. When no registered function touches [FUNCTIONS] and the
    wrapper returns, it has made one call per line of the DAG file, in
    the order of the lines (a repeated line is called again): the
    callee is the function registered under the line's key, its
    positional arguments are the values of the keyword arguments, and
    it returned.  The result has one entry per distinct key, in the
    order of first appearance, holding the value of the last call made
    for that key. *)
Theorem wrapper_calls_each_line_in_order
    keys func args kwargs g functions returns g' log :
  FUNCTIONS g = Some functions ->
  wrapper_DAG call keys func args kwargs g = (inr returns, g', log) ->
  Forall2 (fun key (c : Fn * list V * (E + V)) =>
             functions !! key = Some c.1.1 /\ c.1.2 = kwargs.*2 /\ exists v, c.2 = inr v)
          keys log /\
  returns.*1 = first_occurrences keys /\
  NoDup returns.*1 /\
  (forall k, k ∈ returns.*1 <-> k ∈ keys) /\
  returns.*1 `sublist_of` keys /\
  (forall k v, (k, v) ∈ returns <->
     exists i c, keys !! i = Some k /\ log !! i = Some c /\ c.2 = inr v /\
       forall j, (i < j)%nat -> keys !! j ≠ Some k).
Proof.
  intros Hg Hrun. unfold wrapper_DAG in Hrun.
  destruct (dag_loop_returns _ _ _ _ _ _ _ _ _ Hg Hrun)
    as (bs & cs & Hbs & Hlog & Hcalls & Hvals & ->).
  simpl in Hlog. subst log.
  destruct (dict_of_assignments bs) as (Hnd & Hmem & Hsub & Hlast).
  rewrite Hbs in Hmem, Hsub.
  split; [done|]. split; [by rewrite dict_keys_of_assignments, Hbs|].
  split; [done|]. split; [done|]. split; [done|].
  intros k v. rewrite Hlast. split.
  - intros (i & Hi & Hlater).
    destruct (Forall2_lookup_l _ _ _ _ _ Hvals Hi) as (c & Hc & Hcv).
    exists i, c. split; [by rewrite <- Hbs, list_lookup_fmap, Hi|].
    split; [done|]. split; [done|].
    intros j Hj Hkj. rewrite <- Hbs, list_lookup_fmap in Hkj.
    destruct (bs !! j) as [[k' v']|] eqn:Hbj; [|done].
    injection Hkj as ->. by apply (Hlater j v' Hj).
  - intros (i & c & Hi & Hc & Hcv & Hlater).
    destruct (Forall2_lookup_r _ _ _ _ _ Hvals Hc) as ([k' v'] & Hb & Hbv).
    simpl in Hbv. rewrite Hcv in Hbv. injection Hbv as <-.
    rewrite <- Hbs, list_lookup_fmap, Hb in Hi. injection Hi as ->.
    exists i. split; [done|].
    intros j v' Hj Hbj. apply (Hlater j Hj).
    by rewrite <- Hbs, list_lookup_fmap, Hbj.
Qed.

(** X10. How the wrapper fails when no registered function touches
    [FUNCTIONS].  It raises [NameError] exactly when [FUNCTIONS] was
    never defined and the DAG file has a line, and then nothing was
    called.  It raises [KeyError] only for a line without registered
    function, after the functions of all earlier lines have been called
    and have returned; the exception of a registered function is raised
    as it is, and no later line is called.  A DAG file with an
    unregistered line never yields a result. *)
Theorem wrapper_failure_modes keys func args kwargs g outcome g' log :
  wrapper_DAG call keys func args kwargs g = (outcome, g', log) ->
  (outcome = inl NameError <-> FUNCTIONS g = None /\ keys ≠ []) /\
  (outcome = inl NameError -> g' = g /\ log = []) /\
  (forall k, outcome = inl (KeyError k) ->
     exists functions pre post,
       FUNCTIONS g = Some functions /\ functions !! k = None /\
       keys = pre ++ k :: post /\
       Forall2 (fun key (c : Fn * list V * (E + V)) =>
                  functions !! key = Some c.1.1 /\ c.1.2 = kwargs.*2 /\
                  exists v, c.2 = inr v) pre log) /\
  (forall e, outcome = inl (Raised e) ->
     exists functions pre k post f,
       FUNCTIONS g = Some functions /\ functions !! k = Some f /\
       keys = pre ++ k :: post /\
       last log = Some (f, kwargs.*2, inl e) /\ length log = S (length pre)) /\
  (forall functions k,
     FUNCTIONS g = Some functions -> k ∈ keys -> functions !! k = None ->
     exists e, outcome = inl e).
Proof.
  unfold wrapper_DAG. intros Hrun.
  destruct (FUNCTIONS g) as [functions|] eqn:Hg.
  - destruct outcome as [e|returns].
    + destruct (dag_loop_raises _ _ _ _ _ _ _ _ _ Hg Hrun)
        as (pre & key & post & cs & Hkeys & Hcalls & He).
      destruct e as [|k|e]; [done| |].
      * destruct He as (-> & Hnone & Hlog). simpl in Hlog. subst log.
        split; [split; [done | by intros [? _]]|]. split; [done|].
        split; [|split; [done | by eauto]].
        intros k [= ->]. by exists functions, pre, post.
      * destruct He as (f & Hf & Hlog). simpl in Hlog. subst log.
        split; [split; [done | by intros [? _]]|]. split; [done|].
        split; [done|]. split; [|by eauto].
        intros e' [= ->]. exists functions, pre, key, post, f.
        do 3 (split; [done|]). split; [by rewrite last_snoc|].
        rewrite length_app. simpl. apply Forall2_length in Hcalls. lia.
    + destruct (dag_loop_returns _ _ _ _ _ _ _ _ _ Hg Hrun)
        as (bs & cs & Hbs & Hlog & Hcalls & Hvals & Hret).
      split; [split; [done | by intros [? _]]|]. do 3 (split; [done|]).
      intros functions' k [= <-] Hk Hnone. exfalso.
      apply list_elem_of_lookup in Hk as (i & Hi).
      destruct (Forall2_lookup_l _ _ _ _ _ Hcalls Hi) as (c & _ & Hc & _).
      congruence.
  - destruct keys as [|key keys]; simpl in Hrun; rewrite ?Hg in Hrun;
      injection Hrun as <- <- <-.
    + split; [split; [done | by intros [_ ?]]|]. by repeat split.
    + by repeat split.
Qed.

Lemma register_all_snoc funcs f (g : Globals Fn St) :
  register_all fn_name (funcs ++ [f]) g = (register fn_name f (register_all fn_name funcs g)).2.
Proof. unfold register_all. by rewrite foldl_app. Qed.

Lemma register_functions f (g : Globals Fn St) :
  FUNCTIONS (register fn_name f g).2
  = Some (<[fn_name f := f]> (default ∅ (FUNCTIONS g))).
Proof. unfold register. by destruct (FUNCTIONS g). Qed.

(** After registering [funcs], a key names the function registered
    last under it, or what it named before. *)
Lemma register_all_lookup funcs (g : Globals Fn St) k :
  default ∅ (FUNCTIONS (register_all fn_name funcs g)) !! k
  = match last (filter (fun f => fn_name f = k) funcs) with
    | Some f => Some f
    | None => default ∅ (FUNCTIONS g) !! k
    end.
Proof.
  induction funcs as [|f funcs IH] using rev_ind; [done|].
  rewrite register_all_snoc, register_functions, filter_app. simpl.
  rewrite filter_cons, filter_nil.
  destruct (decide (fn_name f = k)) as [<-|Hne].
  - by rewrite lookup_insert_eq, last_snoc.
  - by rewrite lookup_insert_ne, app_nil_r.
Qed.

Lemma register_all_defined funcs (g : Globals Fn St) :
  funcs ≠ [] -> is_Some (FUNCTIONS (register_all fn_name funcs g)).
Proof.
  destruct funcs as [|f funcs] using rev_ind; [done|]. intros _.
  rewrite register_all_snoc, register_functions. by eexists.
Qed.

(** X11. Once every line of the DAG file is the name of a function
    passed to [register], and no registered function touches
    [FUNCTIONS], the wrapper raises neither [NameError] nor [KeyError],
    and the function it calls for a line is the one registered last
    under that name. *)
Theorem registered_lines_are_resolved
    funcs keys func args kwargs (g : Globals Fn St) outcome g' log :
  (forall k, k ∈ keys -> k ∈ fn_name <$> funcs) ->
  wrapper_DAG call keys func args kwargs (register_all fn_name funcs g)
  = (outcome, g', log) ->
  outcome ≠ inl NameError /\
  (forall k, outcome ≠ inl (KeyError k)) /\
  (forall i k c, keys !! i = Some k -> log !! i = Some c ->
     last (filter (fun f => fn_name f = k) funcs) = Some c.1.1).
Proof.
  intros Hkeys Hrun.
  destruct keys as [|key0 keys0] eqn:Hk.
  { injection Hrun as <- <- <-. by repeat split. }
  rewrite <- Hk in *. assert (Hne : keys ≠ []) by (by rewrite Hk). clear Hk.
  assert (Hfuncs : funcs ≠ []).
  { intros ->. destruct keys as [|k ks]; [done|].
    specialize (Hkeys k ltac:(by left)). by apply elem_of_nil in Hkeys. }
  destruct (register_all_defined funcs g Hfuncs) as (functions & Hg).
  assert (Hfound : forall k f, k ∈ keys -> functions !! k = Some f ->
            last (filter (fun f => fn_name f = k) funcs) = Some f).
  { intros k f Hin Hf.
    pose proof (register_all_lookup funcs g k) as Hl. rewrite Hg in Hl. simpl in Hl.
    rewrite Hf in Hl.
    destruct (last (filter (fun f0 => fn_name f0 = k) funcs)) as [f'|] eqn:Hlast;
      [congruence|].
    apply last_None in Hlast.
    apply Hkeys, list_elem_of_fmap in Hin as (f0 & -> & Hf0).
    exfalso. by apply (filter_nil_not_elem_of _ _ f0 Hlast). }
  assert (Hreg : forall k, k ∈ keys -> is_Some (functions !! k)).
  { intros k Hin.
    pose proof (register_all_lookup funcs g k) as Hl. rewrite Hg in Hl. simpl in Hl.
    destruct (last (filter (fun f0 => fn_name f0 = k) funcs)) as [f'|] eqn:Hlast;
      [by rewrite Hl|].
    apply last_None in Hlast.
    apply Hkeys, list_elem_of_fmap in Hin as (f0 & -> & Hf0).
    exfalso. by apply (filter_nil_not_elem_of _ _ f0 Hlast). }
  unfold wrapper_DAG in Hrun.
  destruct outcome as [e|returns].
  - destruct (dag_loop_raises _ _ _ _ _ _ _ _ _ Hg Hrun)
      as (pre & key & post & cs & Hks & Hcalls & He).
    assert (Hkey : key ∈ keys).
    { rewrite Hks. apply elem_of_app. right. by left. }
    destruct e as [|k|e]; [done| |].
    + destruct He as (-> & Hnone & _). destruct (Hreg key Hkey). congruence.
    + destruct He as (f & Hf & Hlog). simpl in Hlog. subst log.
      split; [done|]. split; [done|].
      intros i k c Hi Hc.
      destruct (decide (i < length pre)%nat) as [Hlt|Hge].
      * rewrite Hks, lookup_app_l in Hi by done.
        rewrite lookup_app_l in Hc by (by rewrite <- (Forall2_length _ _ _ Hcalls)).
        destruct (Forall2_lookup_lr _ _ _ _ _ _ Hcalls Hi Hc) as (Hf' & _).
        apply Hfound; [|done]. rewrite Hks.
        apply elem_of_app. left. by apply list_elem_of_lookup_2 in Hi.
      * pose proof (Forall2_length _ _ _ Hcalls) as Hlen.
        apply lookup_lt_Some in Hc as Hlt. rewrite length_app in Hlt. simpl in Hlt.
        assert (i = length pre) as -> by lia.
        rewrite Hks, list_lookup_middle in Hi by done. injection Hi as <-.
        rewrite Hlen, list_lookup_middle in Hc by done. injection Hc as <-.
        by apply Hfound.
  - destruct (dag_loop_returns _ _ _ _ _ _ _ _ _ Hg Hrun)
      as (bs & cs & Hbs & Hlog & Hcalls & Hvals & Hret).
    simpl in Hlog. subst log.
    split; [done|]. split; [done|].
    intros i k c Hi Hc.
    destruct (Forall2_lookup_lr _ _ _ _ _ _ Hcalls Hi Hc) as (Hf' & _).
    apply Hfound; [|done]. by apply list_elem_of_lookup_2 in Hi.
Qed.

End DagWrapper.

(** * Further properties of the executor *)

Section Inversion.
Context `{Collaborators}.

Lemma bind_inr {A B} (m : M A) (k : A -> M B) w b w' :
  (m ≫= k) w = (inr b, w') ->
  exists a w1, m w = (inr a, w1) /\ k a w1 = (inr b, w').
Proof.
  unfold mbind, M_bind, bind. destruct (m w) as [[e|a] w1]; [done|]. by eauto.
Qed.

Lemma preserved_at {A} (P : World -> Prop) (m : M A) w r w' :
  preserves P m -> P w -> m w = (r, w') -> P w'.
Proof. intros Hm Hw Hrun. specialize (Hm w Hw). by rewrite Hrun in Hm. Qed.

(** [no_output] clears [_produce_output] on the futures of the list
    and writes nothing else. *)
Lemma no_output_eq l : forall w,
  exists h',
    no_output l w = (inr tt, set_heap h' w) /\
    forall r, h' r = if bool_decide (r ∈ l)
                     then set_produce_output false (heap w r) else heap w r.
Proof.
  unfold no_output. induction l as [|r0 l IH]; intros w.
  - exists (heap w). split; [by destruct w|]. done.
  - simpl. run_m.
    destruct (IH (update_future r0 (set_produce_output false) w)) as (h' & Hrun & Hh).
    exists h'. split; [by rewrite Hrun|].
    intros r. rewrite Hh. simpl.
    destruct (Nat.eqb_spec r r0) as [->|Hne].
    + rewrite (bool_decide_eq_true_2 (r0 ∈ r0 :: l)) by (by left).
      by destruct (bool_decide (r0 ∈ l)).
    + destruct (decide (r ∈ l)) as [Hin|Hout].
      * rewrite !bool_decide_eq_true_2; [done | by right | done].
      * rewrite !bool_decide_eq_false_2; [done | | done].
        by intros [?|?]%elem_of_cons.
Qed.

(** A [wait] that returns: the engine did not raise, and the world is
    the one the engine left, plus the events and cleaned jobs of the
    [finally] block. *)
Lemma wait_inr self fs te dl opts w res w' :
  wait self fs te dl opts w = (inr res, w') ->
  exists h1 t s,
    ext_wait (heap w) (deref w (bind_futures fs)) dl te opts = (h1, None) /\
    res = done_futures h1 dl (deref w (bind_futures fs)) /\
    w' = after_clean (set_heap h1 w) t s.
Proof.
  intros Hrun.
  destruct (ext_wait (heap w) (deref w (bind_futures fs)) dl te opts)
    as [h1 [e|]] eqn:Hext.
  - destruct (wait_raises self fs te dl opts w h1 e Hext) as (w1 & Hr). congruence.
  - destruct (wait_returns self fs te dl opts w h1 Hext) as (t & s & Hr).
    rewrite Hr in Hrun. injection Hrun as <- <-. by exists h1, t, s.
Qed.

Lemma map_unfold self f it c p m t i w :
  map self f it c p m t i w
  = (job ← create_map_job (self_config self) (self_executor_id self)
                          ("M" +:+ zfill 3 (str_of_nat (total_jobs w))) f
                          (iter_data it) m t c p i;
     futs ← run_job job;
     extend_futures futs;;
     (match it with
      | IterFutures l => no_output l
      | IterData _ => mret tt
      end);;
     mret futs) (job_announced "M" "map" w).
Proof. reflexivity. Qed.

Lemma call_async_unfold self f d m t w :
  call_async self f d m t w
  = (job ← create_map_job (self_config self) (self_executor_id self)
                          ("A" +:+ zfill 3 (str_of_nat (total_jobs w))) f [d]
                          m t None None (Some 16);
     futs ← run_job job;
     extend_futures futs;;
     match futs with
     | r :: _ => mret r
     | [] => raise IndexError
     end) (job_announced "A" "call_async" w).
Proof. reflexivity. Qed.

Lemma map_reduce_unfold self f it g c p m1 m2 t i o l w :
  map_reduce self f it g c p m1 m2 t i o l w
  = (map_job ← create_map_job (self_config self) (self_executor_id self)
                              ("M" +:+ zfill 3 (str_of_nat (total_jobs w))) f
                              (iter_data it) m1 t c p i;
     map_futures ← run_job map_job;
     extend_futures map_futures;;
     (match it with
      | IterFutures l => no_output l
      | IterData _ => mret tt
      end);;
     (if l
      then wait self (FsList map_futures) true false default_wait_opts;; mret tt
      else mret tt);;
     emit (EvSelectRuntime
             (replace_char "M" "R" ("M" +:+ zfill 3 (str_of_nat (total_jobs w)))));;
     reduce_job ← create_reduce_job (self_config self) (self_executor_id self)
                    (replace_char "M" "R" ("M" +:+ zfill 3 (str_of_nat (total_jobs w))))
                    g map_job map_futures m2 o None;
     reduce_futures ← run_job reduce_job;
     extend_futures reduce_futures;;
     no_output map_futures;;
     mret (map_futures ++ reduce_futures)) (job_announced "M" "map_reduce" w).
Proof. reflexivity. Qed.

End Inversion.

(** ** Methods that leave the job counter, [last_call] and
       [self.futures] alone *)

Section FieldFrame.
Context `{Collaborators}.

Variable P : World -> Prop.

Hypothesis P_fields : forall w w',
  total_jobs w' = total_jobs w -> last_call w' = last_call w ->
  futures w' = futures w -> P w -> P w'.

Lemma frame_modify (f : World -> World) :
  (forall w, total_jobs (f w) = total_jobs w) ->
  (forall w, last_call (f w) = last_call w) ->
  (forall w, futures (f w) = futures w) ->
  preserves P (modify f).
Proof. intros H1 H2 H3 w Hw. apply (P_fields w); [apply H1 | apply H2 | apply H3 | done]. Qed.

Lemma frame_emit e : preserves P (emit e).
Proof. by apply frame_modify. Qed.

Lemma frame_clean self fs cs cc sp force :
  preserves P (clean self fs cs cc sp force).
Proof. intros w Hw. rewrite clean_eq. by apply (P_fields w). Qed.

Lemma frame_ext_wait futs dl te opts :
  preserves P (call_ext_wait futs dl te opts).
Proof.
  intros w Hw. unfold call_ext_wait.
  destruct (ext_wait (heap w) futs dl te opts) as [h [e|]]; by apply (P_fields w).
Qed.

Ltac frame_step :=
  idtac;
  lazymatch goal with
  | |- preserves _ (_store_func_and_modules _ _ _) =>
      apply preserves__store_func_and_modules; intros
  | |- preserves _ (clean _ _ _ _ _ _) => apply frame_clean
  | |- preserves _ (call_ext_wait _ _ _ _) => apply frame_ext_wait
  | |- preserves _ (emit _) => apply frame_emit
  | |- preserves _ (modify _) => apply frame_modify; intros; reflexivity
  end.

Lemma frame__create_job config eid jid func iterdata mem et cs wp ipt :
  preserves P (_create_job config eid jid func iterdata mem et cs wp ipt).
Proof. unfold _create_job. preserves_split frame_step. Qed.

Lemma frame_run_job job : preserves P (run_job job).
Proof. unfold run_job. preserves_split frame_step. Qed.

Lemma frame_deliver b l : preserves P (deliver b l).
Proof.
  induction l as [|r l IH]; simpl;
    preserves_split ltac:(first [apply IH | frame_step]).
Qed.

Lemma frame_no_output l : preserves P (no_output l).
Proof. unfold no_output. preserves_split frame_step. Qed.

Lemma frame_create_map_job config eid jid f input m t c p i :
  preserves P (create_map_job config eid jid f input m t c p i).
Proof.
  unfold create_map_job.
  preserves_split ltac:(first [apply frame__create_job | frame_step]).
Qed.

Lemma frame_create_reduce_job config eid jid g map_job map_futures m o t :
  preserves P (create_reduce_job config eid jid g map_job map_futures m o t).
Proof.
  unfold create_reduce_job.
  preserves_split ltac:(first [apply frame__create_job | frame_step]).
Qed.

End FieldFrame.

(** ** Methods that leave the job counter and [last_call] alone *)

Section CounterFrame.
Context `{Collaborators}.

Variable P : World -> Prop.

Hypothesis P_counters : forall w w',
  total_jobs w' = total_jobs w -> last_call w' = last_call w -> P w -> P w'.

Lemma P_counters_fields w w' :
  total_jobs w' = total_jobs w -> last_call w' = last_call w ->
  futures w' = futures w -> P w -> P w'.
Proof. intros H1 H2 _. by apply P_counters. Qed.

Lemma counter_modify (f : World -> World) :
  (forall w, total_jobs (f w) = total_jobs w) ->
  (forall w, last_call (f w) = last_call w) ->
  preserves P (modify f).
Proof. intros H1 H2 w Hw. apply (P_counters w); [apply H1 | apply H2 | done]. Qed.

Ltac counter_call :=
  idtac;
  lazymatch goal with
  | |- preserves _ (_create_job _ _ _ _ _ _ _ _ _ _) =>
      apply (frame__create_job P P_counters_fields)
  | |- preserves _ (create_map_job _ _ _ _ _ _ _ _ _ _) =>
      apply (frame_create_map_job P P_counters_fields)
  | |- preserves _ (create_reduce_job _ _ _ _ _ _ _ _ _) =>
      apply (frame_create_reduce_job P P_counters_fields)
  | |- preserves _ (run_job _) => apply (frame_run_job P P_counters_fields)
  | |- preserves _ (deliver _ _) => apply (frame_deliver P P_counters_fields)
  | |- preserves _ (no_output _) => apply (frame_no_output P P_counters_fields)
  | |- preserves _ (clean _ _ _ _ _ _) => apply (frame_clean P P_counters_fields)
  | |- preserves _ (call_ext_wait _ _ _ _) => apply (frame_ext_wait P P_counters_fields)
  | |- preserves _ (emit _) => apply (frame_emit P P_counters_fields)
  | |- preserves _ (extend_futures _) => unfold extend_futures
  | |- preserves _ (wait _ _ _ _ _) => unfold wait, wait_except, wait_finally
  | |- preserves _ (get_result_list _ _ _ _) => unfold get_result_list
  | |- preserves _ (modify _) => apply counter_modify; intros; reflexivity
  end.

Lemma counter_wait self fs te dl opts : preserves P (wait self fs te dl opts).
Proof. preserves_split counter_call. Qed.

Lemma counter_get_result_list self fs te opts :
  preserves P (get_result_list self fs te opts).
Proof. preserves_split counter_call. Qed.

Lemma counter_get_result self fs te opts : preserves P (get_result self fs te opts).
Proof. unfold get_result. preserves_split counter_call. Qed.

Lemma counter_clean self fs cs cc sp force : preserves P (clean self fs cs cc sp force).
Proof. preserves_split counter_call. Qed.

(** The part of [call_async] that follows [select_runtime]. *)
Lemma counter_call_async_rest self f d m t job_id :
  preserves P
    (job ← create_map_job (self_config self) (self_executor_id self) job_id f [d]
                          m t None None (Some 16);
     futs ← run_job job;
     extend_futures futs;;
     match futs with
     | r :: _ => mret r
     | [] => raise IndexError
     end).
Proof. preserves_split counter_call. Qed.

(** The part of [map] that follows [select_runtime]. *)
Lemma counter_map_rest self f it c p m t i job_id :
  preserves P
    (job ← create_map_job (self_config self) (self_executor_id self) job_id f
                          (iter_data it) m t c p i;
     futs ← run_job job;
     extend_futures futs;;
     (match it with
      | IterFutures l => no_output l
      | IterData _ => mret tt
      end);;
     mret futs).
Proof. preserves_split counter_call. Qed.

(** The part of [map_reduce] that follows the first [select_runtime]. *)
Lemma counter_map_reduce_rest self f it g c p m1 m2 t i o (l : bool) job_id :
  preserves P
    (map_job ← create_map_job (self_config self) (self_executor_id self) job_id f
                              (iter_data it) m1 t c p i;
     map_futures ← run_job map_job;
     extend_futures map_futures;;
     (match it with
      | IterFutures l => no_output l
      | IterData _ => mret tt
      end);;
     (if l
      then wait self (FsList map_futures) true false default_wait_opts;; mret tt
      else mret tt);;
     emit (EvSelectRuntime (replace_char "M" "R" job_id));;
     reduce_job ← create_reduce_job (self_config self) (self_executor_id self)
                    (replace_char "M" "R" job_id) g map_job map_futures m2 o None;
     reduce_futures ← run_job reduce_job;
     extend_futures reduce_futures;;
     no_output map_futures;;
     mret (map_futures ++ reduce_futures)).
Proof. preserves_split counter_call. Qed.

End CounterFrame.

Section Bookkeeping.
Context `{Collaborators}.

(** The counter is [n] and the last call is [c]. *)
Let counters (n : nat) (c : option string) (w : World) : Prop :=
  total_jobs w = n /\ last_call w = c.

Lemma counters_fields n c w w' :
  total_jobs w' = total_jobs w -> last_call w' = last_call w ->
  counters n c w -> counters n c w'.
Proof. intros H1 H2 [Hn Hc]. split; congruence. Qed.

(** X12. Whether it returns or raises, a call of [call_async], [map]
    or [map_reduce] moves the job counter by exactly one and records
    its own name in [last_call]: a job build that fails still consumes
    a job id, and [map_reduce] uses one counter value for its two
    jobs.  [wait], [get_result] and [clean] change neither. *)
Theorem every_submission_consumes_one_job_id self (c : call) w :
  let w' := run_call self c w in
  match c with
  | CallAsync _ _ _ _ =>
      total_jobs w' = (total_jobs w + 1)%nat /\ last_call w' = Some "call_async"%string
  | CallMap _ _ _ _ _ _ _ =>
      total_jobs w' = (total_jobs w + 1)%nat /\ last_call w' = Some "map"%string
  | CallMapReduce _ _ _ _ _ _ _ _ _ _ _ =>
      total_jobs w' = (total_jobs w + 1)%nat /\ last_call w' = Some "map_reduce"%string
  | CallWait _ _ _ _ | CallGetResult _ _ _ | CallClean _ _ _ _ _ =>
      total_jobs w' = total_jobs w /\ last_call w' = last_call w
  end.
Proof.
  destruct c as [f d m t|f it c p m t i|f it g c p m1 m2 t i o l|fs te dl opts|fs te opts
                |fs cs cc sp force]; simpl.
  - rewrite call_async_unfold.
    by apply (counter_call_async_rest _ (counters_fields _ _) self f d m t _
                (job_announced "A" "call_async" w)).
  - rewrite map_unfold.
    by apply (counter_map_rest _ (counters_fields _ _) self f it c p m t i _
                (job_announced "M" "map" w)).
  - rewrite map_reduce_unfold.
    by apply (counter_map_reduce_rest _ (counters_fields _ _) self f it g c p m1 m2 t i o l _
                (job_announced "M" "map_reduce" w)).
  - by apply (counter_wait _ (counters_fields (total_jobs w) (last_call w))).
  - by apply (counter_get_result _ (counters_fields (total_jobs w) (last_call w))).
  - by apply (counter_clean _ (counters_fields (total_jobs w) (last_call w))).
Qed.

End Bookkeeping.

Section Appends.
Context `{Collaborators}.

Lemma futures_fields (L : list nat) w w' :
  total_jobs w' = total_jobs w -> last_call w' = last_call w ->
  futures w' = futures w -> futures w = L -> futures w' = L.
Proof. congruence. Qed.

Lemma extend_futures_inr futs w u w' :
  extend_futures futs w = (inr u, w') -> w' = set_futures (futures w ++ futs) w.
Proof. by intros [= _ <-]. Qed.

(** X13. A [map] that returns has appended exactly the futures it
    returns to [self.futures], and, when its input was a list of
    futures, has switched [_produce_output] off on each of them.  A
    [call_async] that returns has appended the future it returns,
    followed by the other futures of the job, if any. *)
Theorem submitted_futures_are_appended self w :
  (forall f it c p m t i futs w',
     map self f it c p m t i w = (inr futs, w') ->
     futures w' = futures w ++ futs /\
     forall l, it = IterFutures l ->
       forall r, r ∈ l -> f_produce_output (heap w' r) = false) /\
  (forall f d m t r w',
     call_async self f d m t w = (inr r, w') ->
     exists rest, futures w' = futures w ++ r :: rest).
Proof.
  split.
  - intros f it c p m t i futs w'. rewrite map_unfold. intros Hrun.
    apply bind_inr in Hrun as (job & w1 & Hjob & Hrun).
    apply bind_inr in Hrun as (futs0 & w2 & Hfuts & Hrun).
    apply bind_inr in Hrun as (u & w3 & Hext & Hrun).
    apply bind_inr in Hrun as (u' & w4 & Hout & Hrun).
    injection Hrun as <- <-.
    apply extend_futures_inr in Hext as ->.
    assert (Hf2 : futures w2 = futures w).
    { apply (preserved_at _ _ _ _ _ (frame_run_job _ (futures_fields (futures w)) job))
        in Hfuts; [done|].
      by apply (preserved_at _ _ _ _ _
                  (frame_create_map_job _ (futures_fields (futures w)) _ _ _ _ _ _ _ _ _ _))
        in Hjob. }
    destruct it as [data|l].
    + injection Hout as _ <-. simpl. rewrite Hf2. split; [done | by intros l [=]].
    + destruct (no_output_eq l (set_futures (futures w2 ++ futs0) w2)) as (h' & Hno & Hh).
      rewrite Hno in Hout. injection Hout as _ <-. simpl. rewrite Hf2.
      split; [done|]. intros l' [= <-] r Hr. rewrite Hh.
      by rewrite bool_decide_eq_true_2.
  - intros f d m t r w'. rewrite call_async_unfold. intros Hrun.
    apply bind_inr in Hrun as (job & w1 & Hjob & Hrun).
    apply bind_inr in Hrun as (futs0 & w2 & Hfuts & Hrun).
    apply bind_inr in Hrun as (u & w3 & Hext & Hrun).
    apply extend_futures_inr in Hext as ->.
    assert (Hf2 : futures w2 = futures w).
    { apply (preserved_at _ _ _ _ _ (frame_run_job _ (futures_fields (futures w)) job))
        in Hfuts; [done|].
      by apply (preserved_at _ _ _ _ _
                  (frame_create_map_job _ (futures_fields (futures w)) _ _ _ _ _ _ _ _ _ _))
        in Hjob. }
    destruct futs0 as [|r0 rest]; [done|]. injection Hrun as <- <-.
    exists rest. simpl. by rewrite Hf2.
Qed.

Lemma run_job_inr job w futs w' :
  run_job job w = (inr futs, w') ->
  futs = seq (next_ref w) (total_calls job) /\ length futs = total_calls job.
Proof.
  unfold run_job. run_m. intros [= <- <-]. by rewrite length_seq.
Qed.

(** X14. A [map_reduce] that returns has built the map job with the
    job id of tag M, run it, built the reduce job from that map job and
    its futures with the job id of tag R, and run it.  It gives back the
    map futures -- the futures of the map job, one per call --
    followed by the reduce futures, has appended them in that order to
    [self.futures], and has switched [_produce_output] off on every map
    future. *)
Theorem map_reduce_silences_the_map_futures
    self f it g c p m1 m2 t i o l w futs w' :
  map_reduce self f it g c p m1 m2 t i o l w = (inr futs, w') ->
  let map_job_id := ("M" +:+ zfill 3 (str_of_nat (total_jobs w)))%string in
  exists map_job w1 map_futures w2 wr reduce_job w3 reduce_futures w4,
    create_map_job (self_config self) (self_executor_id self) map_job_id f
                   (iter_data it) m1 t c p i (job_announced "M" "map_reduce" w)
    = (inr map_job, w1) /\
    run_job map_job w1 = (inr map_futures, w2) /\
    length map_futures = total_calls map_job /\
    create_reduce_job (self_config self) (self_executor_id self)
                      (replace_char "M" "R" map_job_id) g map_job map_futures m2 o None wr
    = (inr reduce_job, w3) /\
    run_job reduce_job w3 = (inr reduce_futures, w4) /\
    length reduce_futures = total_calls reduce_job /\
    futs = map_futures ++ reduce_futures /\
    futures w' = futures w ++ map_futures ++ reduce_futures /\
    forall r, r ∈ map_futures -> f_produce_output (heap w' r) = false.
Proof.
  rewrite map_reduce_unfold. intros Hrun map_job_id. unfold map_job_id.
  set (Pf := fun L (w0 : World) => futures w0 = L).
  apply bind_inr in Hrun as (map_job & w1 & Hjob & Hrun).
  apply bind_inr in Hrun as (mf & w2 & Hmf & Hrun).
  apply bind_inr in Hrun as (u1 & w3 & Hext & Hrun).
  apply bind_inr in Hrun as (u2 & w4 & Hout & Hrun).
  apply bind_inr in Hrun as (u3 & w5 & Hwait & Hrun).
  apply bind_inr in Hrun as (u4 & w6 & Hemit & Hrun).
  apply bind_inr in Hrun as (reduce_job & w7 & Hrjob & Hrun).
  apply bind_inr in Hrun as (rf & w8 & Hrf & Hrun).
  apply bind_inr in Hrun as (u5 & w9 & Hext2 & Hrun).
  apply bind_inr in Hrun as (u6 & w10 & Hout2 & Hrun).
  injection Hrun as <- <-.
  exists map_job, w1, mf, w2, w6, reduce_job, w7, rf, w8.
  split; [done|]. split; [done|]. split; [by apply run_job_inr in Hmf as [_ ?]|].
  split; [done|]. split; [done|]. split; [by apply run_job_inr in Hrf as [_ ?]|].
  split; [done|].
  apply extend_futures_inr in Hext as ->.
  apply extend_futures_inr in Hext2 as ->.
  assert (Hf2 : futures w2 = futures w).
  { apply (preserved_at _ _ _ _ _ (frame_run_job _ (futures_fields (futures w)) map_job))
      in Hmf; [done|].
    by apply (preserved_at _ _ _ _ _
                (frame_create_map_job _ (futures_fields (futures w)) _ _ _ _ _ _ _ _ _ _))
      in Hjob. }
  assert (Hf4 : futures w4 = futures w ++ mf).
  { destruct it as [data|l0].
    - injection Hout as _ <-. simpl. by rewrite Hf2.
    - apply (preserved_at _ _ _ _ _ (frame_no_output _ (futures_fields (futures w ++ mf)) l0))
        in Hout; [done|]. simpl. by rewrite Hf2. }
  assert (Hf5 : futures w5 = futures w ++ mf).
  { destruct l.
    - apply bind_inr in Hwait as (res & w5' & Hwait & Hret). injection Hret as _ <-.
      apply wait_inr in Hwait as (h1 & t0 & s0 & _ & _ & ->). done.
    - by injection Hwait as _ <-. }
  assert (Hf8 : futures w8 = futures w ++ mf).
  { apply (preserved_at _ _ _ _ _
             (frame_run_job _ (futures_fields (futures w ++ mf)) reduce_job)) in Hrf; [done|].
    apply (preserved_at _ _ _ _ _
             (frame_create_reduce_job _ (futures_fields (futures w ++ mf)) _ _ _ _ _ _ _ _ _))
      in Hrjob; [done|].
    by apply (preserved_at _ _ _ _ _ (frame_emit _ (futures_fields (futures w ++ mf)) _))
      in Hemit. }
  destruct (no_output_eq mf (set_futures (futures w8 ++ rf) w8)) as (h' & Hno & Hh).
  rewrite Hno in Hout2. injection Hout2 as _ <-. simpl. rewrite Hf8.
  split; [by rewrite <- app_assoc|].
  intros r Hr. rewrite Hh. by rewrite bool_decide_eq_true_2.
Qed.

End Appends.

Section WaitOutcome.
Context `{Collaborators}.

Lemma clean_events_are_clean_events w fs cs cc sp force :
  Forall (fun e => is_clean_event e = true) (clean_events w fs cs cc sp force).
Proof.
  unfold clean_events.
  destruct (bool_decide (cs = []));
    destruct (clean_returns_early fs cs || clean_raises fs);
    destruct (bool_decide (clean_jobs w fs cs force = ∅)); destruct sp; simpl;
    repeat constructor.
Qed.

(** The job keys [wait] hands to the job monitor. *)
Let waited_jobs (fs : fs_arg) (w : World) : gset string :=
  list_to_set ((fun r => f_job_key (heap w r)) <$> deref w (bind_futures fs)).

(** The [finally] block of [wait]: the events it records and the jobs
    it cleans. *)
Lemma wait_finally_trace self fs w :
  exists t,
    wait_finally self fs w
    = (inr tt,
       after_clean w (EvMonitorStop (waited_jobs fs w) :: t)
         (if cleaner_on self then jobs_to_clean w FsNone false else ∅)) /\
    if cleaner_on self
    then exists t', t = EvComputeClear (waited_jobs fs w) :: t' /\
                    Forall (fun e => is_clean_event e = true) t'
    else t = [].
Proof.
  unfold wait_finally. run_m. fold (waited_jobs fs w).
  destruct (cleaner_on self).
  - rewrite clean_eq. eexists. split.
    + f_equal. unfold after_clean at 1. simpl.
      rewrite <- !app_assoc. simpl. unfold after_clean. by f_equal.
    + eexists. split; [reflexivity|]. apply clean_events_are_clean_events.
  - exists []. split; [|done]. unfold after_clean. by rewrite union_empty_r_L.
Qed.

Lemma forced_clean_trace self w :
  exists t s, forced_clean self w = after_clean w t s /\
    Forall (fun e => is_clean_event e = true) t.
Proof.
  unfold forced_clean. destruct (cleaner_on self).
  - rewrite clean_eq. simpl. do 2 eexists. split; [done|].
    apply clean_events_are_clean_events.
  - exists [], ∅. by rewrite after_clean_nil.
Qed.

Lemma wait_raises_eq self fs te dl opts w h1 e :
  ext_wait (heap w) (deref w (bind_futures fs)) dl te opts = (h1, Some e) ->
  wait self fs te dl opts w
  = (inl e, (wait_finally self fs (forced_clean self (stopped fs (set_heap h1 w)))).2).
Proof.
  intros Hext. unfold wait, try_finally, try_except.
  unfold mbind at 1, M_bind at 1, bind at 1.
  unfold mbind at 1, M_bind at 1, bind at 1.
  unfold get at 1, call_ext_wait. rewrite Hext.
  rewrite wait_except_eq.
  destruct (wait_finally_eq self fs (forced_clean self (stopped fs (set_heap h1 w))))
    as (t & s & Hf).
  by rewrite Hf.
Qed.

Lemma wait_returns_eq self fs te dl opts w h1 :
  ext_wait (heap w) (deref w (bind_futures fs)) dl te opts = (h1, None) ->
  wait self fs te dl opts w
  = (inr (done_futures h1 dl (deref w (bind_futures fs))),
     (wait_finally self fs (set_heap h1 w)).2).
Proof.
  intros Hext. unfold wait.
  unfold mbind at 1, M_bind at 1, bind at 1.
  unfold try_finally, try_except.
  unfold mbind at 1, M_bind at 1, bind at 1.
  unfold get at 1, call_ext_wait. rewrite Hext.
  destruct (wait_finally_eq self fs (set_heap h1 w)) as (t & s & Hf).
  rewrite Hf. run_m. rewrite deref_after_clean. unfold done_futures.
  by destruct dl.
Qed.

Lemma filter_done_partition (P Q : nat -> Prop)
    `{!forall r, Decision (P r)} `{!forall r, Decision (Q r)} (l : list nat) :
  (forall r, Q r <-> ~ P r) ->
  filter P l ++ filter Q l ≡ₚ l /\
  (forall r, r ∈ filter P l -> r ∉ filter Q l).
Proof.
  intros HQ. split.
  - rewrite (list_filter_iff Q (fun r => ~ P r)) by done.
    apply filter_app_complement.
  - intros r [Hp _]%list_elem_of_filter [Hq _]%list_elem_of_filter.
    by apply HQ in Hq.
Qed.

(** X15. A [wait] that returns splits the futures it waited for (the
    given ones, or [self.futures]) into [fs_done] and [fs_notdone]:
    both keep the order of the futures, together they hold every
    future as often as the list does, and no future is in both.  When
    results are downloaded a future counts as done when it is [done];
    otherwise when it is [success] or [done]. *)
Theorem wait_splits_the_futures self fs te dl opts w fs_done fs_notdone w' :
  wait self fs te dl opts w = (inr (fs_done, fs_notdone), w') ->
  let futs := deref w (bind_futures fs) in
  fs_done ++ fs_notdone ≡ₚ futs /\
  fs_done `sublist_of` futs /\
  fs_notdone `sublist_of` futs /\
  (forall r, r ∈ fs_done -> r ∉ fs_notdone) /\
  (forall r, r ∈ fs_done <->
     r ∈ futs /\
     if dl then f_done (heap w' r) = true
     else f_success (heap w' r) = true \/ f_done (heap w' r) = true).
Proof.
  intros Hrun futs.
  apply wait_inr in Hrun as (h1 & t & s & _ & Hres & ->). fold futs in Hres.
  unfold done_futures in Hres. simpl.
  destruct dl; injection Hres as -> ->.
  - destruct (filter_done_partition (fun r => Is_true (f_done (h1 r)))
                (fun r => Is_true (negb (f_done (h1 r)))) futs) as [Hperm Hdisj].
    { intros r. destruct (f_done (h1 r)); simpl; split; tauto. }
    split; [done|]. split; [apply sublist_filter|]. split; [apply sublist_filter|].
    split; [done|].
    intros r. rewrite list_elem_of_filter, Is_true_true. tauto.
  - destruct (filter_done_partition (fun r => Is_true (f_success (h1 r) || f_done (h1 r)))
                (fun r => Is_true (negb (f_success (h1 r)) && negb (f_done (h1 r)))) futs)
      as [Hperm Hdisj].
    { intros r. destruct (f_success (h1 r)), (f_done (h1 r)); simpl; split; tauto. }
    split; [done|]. split; [apply sublist_filter|]. split; [apply sublist_filter|].
    split; [done|].
    intros r. rewrite list_elem_of_filter, Is_true_true, orb_true_iff. tauto.
Qed.

(** The futures the [finally] block of a raising [wait] reads: in a
    notebook and without [fs], [self.futures] has been emptied. *)
Lemma deref_after_stopped fs h1 w t s :
  deref (after_clean (stopped fs (set_heap h1 w)) t s) (bind_futures fs)
  = if negb (fs_truthy fs) && is_notebook then [] else deref w (bind_futures fs).
Proof. destruct fs as [|[|r l]|r|[|r l]]; simpl; by destruct is_notebook. Qed.

(** X16. Whether [wait] returns or raises, it records new events only
    at the end of the trace, and among them the job monitor is stopped
    once: for the job keys of the futures waited for (the given ones, or
    [self.futures]), read when the wait engine is through; but a [wait]
    without [fs] that raises in a notebook has emptied [self.futures]
    by then, and stops the monitor for no job.  The call raises
    exactly when the wait engine does, and the same exception: an
    [Exception], the only kind the model has (an interrupt, which the
    [except] block would not catch, is outside it); the invoker is
    stopped exactly in that case.  The compute handler is cleared
    exactly when the data cleaner is on and the executor is not a
    worker, for the same jobs as the monitor is stopped for.  The
    cleaner process is started only in that same case. *)
Theorem wait_always_stops_the_job_monitor self fs te dl opts w :
  let outcome := (wait self fs te dl opts w).1 in
  let w' := (wait self fs te dl opts w).2 in
  let waited := deref w (bind_futures fs) in
  let raised := (ext_wait (heap w) waited dl te opts).2 in
  let emptied := bool_decide (raised ≠ None) && negb (fs_truthy fs) && is_notebook in
  let stopped_for : gset string :=
    if emptied then ∅ else list_to_set ((fun r => f_job_key (heap w' r)) <$> waited) in
  exists t,
    trace w' = trace w ++ t /\
    heap w' = (ext_wait (heap w) waited dl te opts).1 /\
    futures w' = (if emptied then [] else futures w) /\
    EvMonitorStop stopped_for ∈ t /\
    length (filter (fun e => Is_true (is_monitor_stop e)) t) = 1%nat /\
    (forall e, outcome = inl e <-> raised = Some e) /\
    (EvInvokerStop ∈ t <-> exists e, outcome = inl e) /\
    (forall jobs, EvComputeClear jobs ∈ t <->
       cleaner_on self = true /\ jobs = stopped_for) /\
    (EvSpawnCleaner ∈ t -> cleaner_on self = true).
Proof.
  intros outcome w' waited raised emptied stopped_for.
  unfold stopped_for, emptied, raised, waited, outcome, w'.
  clear outcome w' waited raised emptied stopped_for.
  assert (Hclean : forall t : list event, Forall (fun e => is_clean_event e = true) t ->
            filter (fun e => Is_true (is_monitor_stop e)) t = [] /\
            (EvInvokerStop ∉ t) /\ (forall jobs, EvComputeClear jobs ∉ t)).
  { intros t Ht. split; [|split].
    - induction Ht as [|e t He _ IH]; [done|].
      rewrite filter_cons, decide_False; [done|].
      destruct e; simpl in *; first [done | by intros []].
    - intros Hin. by apply (proj1 (Forall_forall _ _) Ht) in Hin.
    - intros jobs Hin. by apply (proj1 (Forall_forall _ _) Ht) in Hin. }
  assert (Hno : forall e (t : list event), is_monitor_stop e = false ->
            filter (fun e => Is_true (is_monitor_stop e)) (e :: t)
            = filter (fun e => Is_true (is_monitor_stop e)) t).
  { intros e t He. rewrite filter_cons, decide_False; [done|]. rewrite He. by intros []. }
  assert (Hyes : forall e (t : list event), is_monitor_stop e = true ->
            filter (fun e => Is_true (is_monitor_stop e)) (e :: t)
            = e :: filter (fun e => Is_true (is_monitor_stop e)) t).
  { intros e t He. rewrite filter_cons, decide_True; [done|]. by rewrite He. }
  assert (Hone : forall (e : event) (t : list event), e ∈ e :: t) by (intros; by left).
  destruct (ext_wait (heap w) (deref w (bind_futures fs)) dl te opts)
    as [h1 [e|]] eqn:Hext.
  - rewrite (wait_raises_eq _ _ _ _ _ _ _ _ Hext). cbn [fst snd].
    destruct (forced_clean_trace self (stopped fs (set_heap h1 w))) as (t2 & s2 & Hfc & Ht2).
    rewrite Hfc.
    destruct (wait_finally_trace self fs (after_clean (stopped fs (set_heap h1 w)) t2 s2))
      as (t3 & Hfin & Ht3).
    rewrite Hfin. unfold waited_jobs in Ht3 |- *. rewrite deref_after_stopped in Ht3 |- *.
    cbn [snd]. simpl.
    set (jobs := list_to_set ((fun r => f_job_key (h1 r)) <$>
                   (if negb (fs_truthy fs) && is_notebook then []
                    else deref w (bind_futures fs))) : gset string) in *.
    assert (Hjobs : (if negb (fs_truthy fs) && is_notebook then ∅
                     else list_to_set ((fun r => f_job_key (h1 r))
                                         <$> deref w (bind_futures fs))) = jobs).
    { unfold jobs. by destruct (negb (fs_truthy fs) && is_notebook). }
    rewrite Hjobs. clear Hjobs.
    destruct (Hclean t2 Ht2) as (Hm2 & Hi2 & Hc2).
    exists ([EvInvokerStop] ++ t2 ++ EvMonitorStop jobs :: t3).
    split; [by rewrite <- !app_assoc|].
    split; [done|]. split; [done|].
    split; [rewrite !elem_of_app; right; right; by left|].
    assert (Hraised : forall e0 : exn, @inl exn (list nat * list nat) e = inl e0
                                       <-> Some e = Some e0).
    { intros e0. split; by intros [= ->]. }
    destruct (cleaner_on self) eqn:Hon.
    + destruct Ht3 as (t' & -> & Ht').
      destruct (Hclean t' Ht') as (Hm' & Hi' & Hc').
      split; [|split; [done|split; [|split]]].
      * rewrite !filter_app, Hm2.
        repeat first [rewrite Hno by done | rewrite Hyes by done | rewrite filter_nil];
          simpl; rewrite ?Hm'; done.
      * split; [by eauto|]. intros _. apply elem_of_app. left. by left.
      * intros jobs'. split.
        -- intros Hin. split; [done|].
           rewrite !elem_of_app in Hin.
           destruct Hin as [Hin|[Hin|Hin]].
           ++ by apply list_elem_of_singleton in Hin.
           ++ by apply Hc2 in Hin.
           ++ apply elem_of_cons in Hin as [?|Hin]; [done|].
              apply elem_of_cons in Hin as [Hin|Hin]; [by injection Hin|].
              by apply Hc' in Hin.
        -- intros [_ ->]. rewrite !elem_of_app. right. right. right. by left.
      * done.
    + subst t3.
      split; [|split; [done|split; [|split]]].
      * rewrite !filter_app, Hm2.
        repeat first [rewrite Hno by done | rewrite Hyes by done | rewrite filter_nil];
          simpl; done.
      * split; [by eauto|]. intros _. apply elem_of_app. left. by left.
      * intros jobs'. split; [|by intros [? _]]. intros Hin. exfalso.
        rewrite !elem_of_app in Hin.
        destruct Hin as [Hin|[Hin|Hin]].
        -- by apply list_elem_of_singleton in Hin.
        -- by apply Hc2 in Hin.
        -- by apply list_elem_of_singleton in Hin.
      * intros Hin. exfalso.
        unfold forced_clean in Hfc. rewrite Hon in Hfc.
        rewrite !elem_of_app in Hin.
        destruct Hin as [Hin|[Hin|Hin]].
        -- by apply list_elem_of_singleton in Hin.
        -- apply (f_equal trace) in Hfc. simpl in Hfc.
           rewrite <- (app_nil_r (trace w ++ [EvInvokerStop])) in Hfc at 1.
           apply app_inv_head in Hfc. subst t2. by apply elem_of_nil in Hin.
        -- by apply list_elem_of_singleton in Hin.
  - rewrite (wait_returns_eq _ _ _ _ _ _ _ Hext). cbn [fst snd].
    destruct (wait_finally_trace self fs (set_heap h1 w)) as (t3 & Hfin & Ht3).
    rewrite Hfin. unfold waited_jobs in Ht3 |- *. cbn [snd]. simpl. simpl in Ht3.
    replace (deref (set_heap h1 w) (bind_futures fs)) with (deref w (bind_futures fs)) in *
      by (by destruct (bind_futures fs)).
    set (jobs := list_to_set ((fun r => f_job_key (h1 r)) <$> deref w (bind_futures fs))
                 : gset string) in *.
    exists (EvMonitorStop jobs :: t3).
    split; [done|]. split; [done|]. split; [done|]. split; [by left|].
    assert (Hraised : forall e0 : exn, @inr exn (list nat * list nat)
                        (done_futures h1 dl (deref w (bind_futures fs))) = inl e0
                                       <-> None = Some e0).
    { intros e0. split; by intros [=]. }
    destruct (cleaner_on self) eqn:Hon.
    + destruct Ht3 as (t' & -> & Ht').
      destruct (Hclean t' Ht') as (Hm' & Hi' & Hc').
      split; [|split; [done|split; [|split]]].
      * repeat first [rewrite Hno by done | rewrite Hyes by done | rewrite filter_nil];
          simpl; rewrite ?Hm'; done.
      * split; [|by intros (? & ?)]. intros Hin. exfalso.
        apply elem_of_cons in Hin as [?|Hin]; [done|].
        apply elem_of_cons in Hin as [?|Hin]; [done|]. by apply Hi' in Hin.
      * intros jobs'. split.
        -- intros Hin. split; [done|].
           apply elem_of_cons in Hin as [?|Hin]; [done|].
           apply elem_of_cons in Hin as [Hin|Hin]; [by injection Hin|].
           by apply Hc' in Hin.
        -- intros [_ ->]. right. by left.
      * done.
    + subst t3.
      split; [|split; [done|split; [|split]]].
      * repeat first [rewrite Hno by done | rewrite Hyes by done | rewrite filter_nil];
          simpl; done.
      * split; [|by intros (? & ?)]. by intros ?%list_elem_of_singleton.
      * intros jobs'. split; [|by intros [? _]]. by intros ?%list_elem_of_singleton.
      * by intros ?%list_elem_of_singleton.
Qed.

(** X17. After a [wait] that returns, with the data cleaner on and
    outside a worker, every job of [self.futures] -- not of the futures
    passed to [wait] -- that has a done future and an executor id with
    exactly one dash is in [cleaned_jobs]; [cleaned_jobs] only grows.
    With the data cleaner off, or inside a worker, [wait] cleans
    nothing. *)
Theorem wait_cleans_the_done_jobs_of_the_executor self fs te dl opts w res w' :
  wait self fs te dl opts w = (inr res, w') ->
  cleaned_jobs w ⊆ cleaned_jobs w' /\
  (cleaner_on self = true ->
   forall r, r ∈ futures w ->
     count_char "-" (f_executor_id (heap w' r)) = 1%nat ->
     f_done (heap w' r) = true ->
     create_job_key (f_executor_id (heap w' r)) (f_job_id (heap w' r)) ∈ cleaned_jobs w') /\
  (cleaner_on self = false -> cleaned_jobs w' = cleaned_jobs w).
Proof.
  intros Hrun.
  destruct (ext_wait (heap w) (deref w (bind_futures fs)) dl te opts)
    as [h1 [e|]] eqn:Hext.
  { rewrite (wait_raises_eq _ _ _ _ _ _ _ _ Hext) in Hrun. done. }
  rewrite (wait_returns_eq _ _ _ _ _ _ _ Hext) in Hrun.
  destruct (wait_finally_trace self fs (set_heap h1 w)) as (t3 & Hfin & _).
  rewrite Hfin in Hrun. injection Hrun as _ <-. simpl.
  split; [apply union_subseteq_l|].
  split.
  - intros Hon r Hr Hdash Hdone. rewrite Hon.
    set (k := create_job_key _ _).
    destruct (decide (k ∈ cleaned_jobs w)) as [Hin|Hout];
      apply elem_of_union; [by left | right].
    apply elem_of_difference. split; [|done].
    apply elem_of_present_jobs. exists r. split; [done|]. split; [done|].
    by left.
  - intros ->. by rewrite union_empty_r_L.
Qed.

End WaitOutcome.

Section CleanOutcome.
Context `{Collaborators}.

(** X18. [clean] raises exactly when [fs] is a non-empty
    [FuturesList]: an [AttributeError], after saving the cloudobjects
    if some are given, with no job cleaned and no cleaner process
    started.  With cloudobjects and no futures given it saves the
    cloudobjects and returns: no job is cleaned, even with [force], and
    the cleaner process is not started.  Otherwise the jobs of the
    futures that are not yet in [cleaned_jobs] are saved for cleaning,
    exactly when there are some, and added to [cleaned_jobs]; with
    [force] these are the jobs of all the futures, done or not.  The
    cleaner process is started at most once, exactly when
    [spawn_cleaner] is set and something was saved in this last
    case. *)
Theorem clean_saves_then_spawns self fs cs cc sp force w :
  let w' := (clean self fs cs cc sp force w).2 in
  let futs := deref w (bind_futures fs) in
  let early := negb (bool_decide (cs = [])) && negb (fs_truthy fs) in
  let raises := match fs with FsFuturesList (_ :: _) => true | _ => false end in
  exists t,
    (clean self fs cs cc sp force w).1 = (if raises then inl AttributeError else inr tt) /\
    trace w' = trace w ++ t /\
    heap w' = heap w /\ futures w' = futures w /\
    (early = true ->
       raises = false /\ t = [EvSaveCos cs] /\ cleaned_jobs w' = cleaned_jobs w) /\
    (raises = true ->
       t = (if bool_decide (cs = []) then [] else [EvSaveCos cs]) /\
       cleaned_jobs w' = cleaned_jobs w) /\
    (early = false -> raises = false ->
       cleaned_jobs w' = cleaned_jobs w ∪ present_jobs (heap w) futs force /\
       (force = true -> forall r, r ∈ futs ->
          create_job_key (f_executor_id (heap w r)) (f_job_id (heap w r))
          ∈ cleaned_jobs w') /\
       ((exists jobs c, EvSaveJobs jobs c ∈ t) <-> jobs_to_clean w fs force ≠ ∅) /\
       (EvSpawnCleaner ∈ t <->
          sp = true /\ (jobs_to_clean w fs force ≠ ∅ \/ cs ≠ []))) /\
    (length (filter (fun e => Is_true (is_spawn_cleaner e)) t) <= 1)%nat.
Proof.
  intros w' futs early raises. unfold w'. rewrite clean_eq. simpl.
  exists (clean_events w fs cs cc sp force).
  split; [done|]. split; [done|]. split; [done|]. split; [done|].
  unfold clean_events, clean_jobs, clean_returns_early.
  fold early. change (clean_raises fs) with raises.
  destruct raises eqn:Hraises.
  { assert (Hearly : early = false).
    { unfold early. destruct fs as [| | |[|r l]]; try done. simpl.
      by rewrite andb_false_r. }
    rewrite Hearly. simpl. rewrite app_nil_r, union_empty_r_L.
    split; [done|]. split; [done|]. split; [done|].
    destruct (bool_decide (cs = [])); simpl; lia. }
  rewrite orb_false_r.
  destruct early eqn:Hearly.
  - split; [|split; [done|split; [done|]]].
    + intros _. apply andb_true_iff in Hearly as [Hcs _].
      apply negb_true_iff in Hcs. rewrite Hcs. simpl.
      split; [done|]. split; [done | by rewrite union_empty_r_L].
    + destruct (bool_decide (cs = [])); simpl; lia.
  - split; [done|]. split; [done|]. split.
    + intros _ _.
      assert (Hunion : cleaned_jobs w ∪ jobs_to_clean w fs force
                       = cleaned_jobs w ∪ present_jobs (heap w) futs force).
      { unfold jobs_to_clean. fold futs. apply set_eq. intros k.
        rewrite !elem_of_union, elem_of_difference.
        destruct (decide (k ∈ cleaned_jobs w)); tauto. }
      split; [done|]. split.
      * intros -> r Hr. rewrite Hunion. apply elem_of_union. right.
        apply elem_of_present_jobs. exists r. by eauto.
      * clear Hunion.
        rewrite <- (bool_decide_eq_false (jobs_to_clean w fs force = ∅)).
        rewrite <- (bool_decide_eq_false (cs = [])).
        destruct (bool_decide (cs = [])), (bool_decide (jobs_to_clean w fs force = ∅)), sp;
          simpl;
          (split; [split; [intros (jobs & c & Hin) | intros Hb]
                  | split; [intros Hin | intros [Hs Hb]]]);
          rewrite ?elem_of_cons, ?elem_of_nil in *;
          try (intuition discriminate);
          try (eexists _, _; rewrite ?elem_of_cons; by eauto).
    + destruct (bool_decide (cs = []));
        destruct (bool_decide (jobs_to_clean w fs force = ∅)); destruct sp; simpl; lia.
Qed.

End CleanOutcome.

Section AfterSubmission.
Context `{Collaborators}.

Lemma last_call_counters (c : option string) w w' :
  total_jobs w' = total_jobs w -> last_call w' = last_call w ->
  last_call w = c -> last_call w' = c.
Proof. congruence. Qed.

(** What [get_result] returns is the shape of the list of results for
    the [last_call] the executor had when the call started. *)
Lemma get_result_inr self fs te opts w res w' :
  get_result self fs te opts w = (inr res, w') ->
  exists vs,
    get_result_list self fs te opts w = (inr vs, w') /\
    res = shape_result (last_call w) vs.
Proof.
  unfold get_result. intros Hrun.
  apply bind_inr in Hrun as (vs & w1 & Hlist & Hrun).
  run_m. injection Hrun as <- <-. exists vs. split; [done|].
  by rewrite (preserved_at _ _ _ _ _
                (counter_get_result_list _ (last_call_counters (last_call w)) self fs te opts)
                eq_refl Hlist).
Qed.

(** What the last call is once a method has run, whether it returned
    or raised. *)
Lemma run_call_last_call self (c : call) w :
  last_call (run_call self c w)
  = match c with
    | CallAsync _ _ _ _ => Some "call_async"%string
    | CallMap _ _ _ _ _ _ _ => Some "map"%string
    | CallMapReduce _ _ _ _ _ _ _ _ _ _ _ => Some "map_reduce"%string
    | CallWait _ _ _ _ | CallGetResult _ _ _ | CallClean _ _ _ _ _ => last_call w
    end.
Proof.
  destruct c as [f d m t|f it c p m t i|f it g c p m1 m2 t i o l|fs' te' dl opts'|fs' te' opts'
                |fs' cs cc sp force]; simpl.
  - rewrite call_async_unfold.
    by apply (counter_call_async_rest _ (last_call_counters _) self f d m t _
                (job_announced "A" "call_async" w)).
  - rewrite map_unfold.
    by apply (counter_map_rest _ (last_call_counters _) self f it c p m t i _
                (job_announced "M" "map" w)).
  - rewrite map_reduce_unfold.
    by apply (counter_map_reduce_rest _ (last_call_counters _) self f it g c p m1 m2 t i o l _
                (job_announced "M" "map_reduce" w)).
  - by apply (counter_wait _ (last_call_counters (last_call w))).
  - by apply (counter_get_result _ (last_call_counters (last_call w))).
  - by apply (counter_clean _ (last_call_counters (last_call w))).
Qed.

(** X19. [get_result] called after a [map] -- also one that raised --
    returns a list, even of one result, as long as no other submission
    came in between; called after a [call_async] or a [map_reduce] it
    returns the bare value when exactly one result is delivered and the
    list otherwise. *)
Theorem get_result_after_submission self (c : call) w fs te opts res w' :
  get_result self fs te opts (run_call self c w) = (inr res, w') ->
  exists vs,
    get_result_list self fs te opts (run_call self c w) = (inr vs, w') /\
    match c with
    | CallMap _ _ _ _ _ _ _ => res = Sequence vs
    | CallAsync _ _ _ _ | CallMapReduce _ _ _ _ _ _ _ _ _ _ _ =>
        res = match vs with [v] => Bare v | _ => Sequence vs end
    | CallWait _ _ _ _ | CallGetResult _ _ _ | CallClean _ _ _ _ _ =>
        res = shape_result (last_call w) vs
    end.
Proof.
  intros Hrun. apply get_result_inr in Hrun as (vs & Hlist & ->).
  exists vs. split; [done|].
  rewrite (run_call_last_call self c w).
  destruct c; try done;
    unfold shape_result; by destruct vs as [|v [|v' vs]].
Qed.

End AfterSubmission.

Section JobIdFormat.
Context `{Collaborators}.

Lemma length_zeros k : String.length (zeros k) = k.
Proof. induction k as [|k IH]; simpl; [done | by rewrite IH]. Qed.

Lemma length_append_string (s1 s2 : string) :
  String.length (s1 +:+ s2) = (String.length s1 + String.length s2)%nat.
Proof.
  induction s1 as [|c s1 IH]; [done|].
  change (S (String.length (s1 +:+ s2)) = S (String.length s1 + String.length s2)).
  by rewrite IH.
Qed.

Lemma short_counters_have_three_digits :
  forallb (fun n => String.length (str_of_nat n) <=? 3)%nat (seq 0 1000) = true.
Proof. vm_compute. reflexivity. Qed.

(** X20. [_create_job_id] never raises; it returns the call-type tag
    followed by the decimal digits of the counter, zero-padded to at
    least three characters, and advances the counter by one.  The
    counter reads back from the digits, so the padding loses nothing
    beyond 999 jobs; below 1000 jobs there are exactly three digits.
    Replacing [M] by [R] in a map job id changes the tag only. *)
Theorem job_id_reads_back_the_counter (tag : string) w :
  exists digits,
    _create_job_id tag w
    = (inr (tag +:+ digits), set_total_jobs (total_jobs w + 1) w) /\
    int_of_digits digits = Some (total_jobs w) /\
    (3 <= String.length digits)%nat /\
    ((total_jobs w < 1000)%nat -> String.length digits = 3%nat) /\
    replace_char "M" "R" ("M" +:+ digits) = "R" +:+ digits.
Proof.
  exists (zfill 3 (str_of_nat (total_jobs w))).
  split; [reflexivity|]. split; [apply int_of_digits_zfill|].
  destruct (str_of_nat_digits (total_jobs w)) as (d & Hd & _).
  rewrite (zfill_digits _ _ _ Hd), length_append_string, length_zeros.
  split; [lia|]. split; [|rewrite <- (zfill_digits _ _ _ Hd); apply reduce_job_id].
  intros Hlt.
  pose proof (proj1 (forallb_forall _ _) short_counters_have_three_digits (total_jobs w))
    as Hlen.
  assert (Hin : In (total_jobs w) (seq 0 1000)) by (apply in_seq; lia).
  apply Hlen, Nat.leb_le in Hin. lia.
Qed.

End JobIdFormat.

(** ** What a session never loses *)

Section Monotone.
Context `{Collaborators}.

Variable n : nat.
Variable cleaned : gset string.
Variable futs : list nat.

(** The job counter is at least [n], the jobs [cleaned] are cleaned
    and, outside a notebook, [futs] starts [self.futures]. *)
Let grown (w : World) : Prop :=
  (n <= total_jobs w)%nat /\ cleaned ⊆ cleaned_jobs w /\
  (is_notebook = false -> futs `prefix_of` futures w).

Lemma grown_modify (f : World -> World) :
  (forall w, (total_jobs w <= total_jobs (f w))%nat) ->
  (forall w, cleaned_jobs w ⊆ cleaned_jobs (f w)) ->
  (forall w, futures w `prefix_of` futures (f w)) ->
  preserves grown (modify f).
Proof.
  intros H1 H2 H3 w (Hn & Hc & Hf). split; [|split]; simpl.
  - specialize (H1 w). lia.
  - by etrans.
  - intros Hnb. by etrans; [apply Hf|].
Qed.

Lemma grown_after_clean w t s : grown w -> grown (after_clean w t s).
Proof.
  intros (Hn & Hc & Hf). split; [done|]. split; [|done]. simpl.
  etrans; [done|]. apply union_subseteq_l.
Qed.

Lemma grown_clean self fs cs cc sp force :
  preserves grown (clean self fs cs cc sp force).
Proof. intros w Hw. rewrite clean_eq. by apply grown_after_clean. Qed.

Lemma grown_ext_wait l dl te opts : preserves grown (call_ext_wait l dl te opts).
Proof.
  intros w Hw. unfold call_ext_wait.
  by destruct (ext_wait (heap w) l dl te opts) as [h [e|]].
Qed.

Lemma grown_wait_except self fs e : preserves grown (wait_except self fs e).
Proof.
  intros w (Hn & Hc & Hf). rewrite wait_except_eq. simpl.
  destruct (forced_clean_trace self (stopped fs w)) as (t & s & -> & _).
  apply grown_after_clean. split; [done|]. split; [done|].
  intros Hnb. simpl. rewrite Hnb, andb_false_r. by apply Hf.
Qed.

Lemma grown_wait_finally self fs : preserves grown (wait_finally self fs).
Proof.
  intros w Hw. destruct (wait_finally_eq self fs w) as (t & s & ->).
  by apply grown_after_clean.
Qed.

Lemma grown__create_job_id tag : preserves grown (_create_job_id tag).
Proof.
  intros w (Hn & Hc & Hf). split; [|split]; simpl; [lia | done | done].
Qed.

Ltac grown_step :=
  idtac;
  lazymatch goal with
  | |- preserves _ (_store_func_and_modules _ _ _) =>
      apply preserves__store_func_and_modules; intros
  | |- preserves _ (clean _ _ _ _ _ _) => apply grown_clean
  | |- preserves _ (call_ext_wait _ _ _ _) => apply grown_ext_wait
  | |- preserves _ (wait_except _ _ _) => apply grown_wait_except
  | |- preserves _ (wait_finally _ _) => apply grown_wait_finally
  | |- preserves _ (emit _) => unfold emit
  | |- preserves _ (extend_futures _) => unfold extend_futures
  | |- preserves _ (no_output _) => unfold no_output
  | |- preserves _ (_create_job_id _) => apply grown__create_job_id
  | |- preserves _ (_create_job _ _ _ _ _ _ _ _ _ _) => unfold _create_job
  | |- preserves _ (create_map_job _ _ _ _ _ _ _ _ _ _) => unfold create_map_job
  | |- preserves _ (create_reduce_job _ _ _ _ _ _ _ _ _) => unfold create_reduce_job
  | |- preserves _ (run_job _) => unfold run_job
  | |- preserves _ (wait _ _ _ _ _) => unfold wait
  | |- preserves _ (get_result_list _ _ _ _) => unfold get_result_list
  | |- preserves _ (modify _) =>
      apply grown_modify; intros ?; simpl;
      first [lia | reflexivity | by apply prefix_app_r]
  end.

Lemma grown_deliver b l : preserves grown (deliver b l).
Proof.
  induction l as [|r l IH]; simpl;
    preserves_split ltac:(first [apply IH | grown_step]).
Qed.

Lemma grown_wait self fs te dl opts : preserves grown (wait self fs te dl opts).
Proof. preserves_split grown_step. Qed.

Lemma grown_get_result self fs te opts : preserves grown (get_result self fs te opts).
Proof.
  unfold get_result.
  preserves_split ltac:(first [apply grown_deliver | grown_step]).
Qed.

Lemma grown_call_async self f d m t : preserves grown (call_async self f d m t).
Proof. unfold call_async. preserves_split grown_step. Qed.

Lemma grown_map self f it c p m t i : preserves grown (map self f it c p m t i).
Proof. unfold map. preserves_split grown_step. Qed.

Lemma grown_map_reduce self f it g c p m1 m2 t i o l :
  preserves grown (map_reduce self f it g c p m1 m2 t i o l).
Proof. unfold map_reduce. preserves_split grown_step. Qed.

Lemma grown_run_call self c w : grown w -> grown (run_call self c w).
Proof.
  destruct c; simpl.
  - apply grown_call_async.
  - apply grown_map.
  - apply grown_map_reduce.
  - apply grown_wait.
  - apply grown_get_result.
  - apply grown_clean.
Qed.

Lemma grown_run_session self calls : forall w,
  grown w -> grown (run_session self calls w).
Proof.
  induction calls as [|c calls IH]; intros w Hw; [done|].
  simpl. apply IH. by apply grown_run_call.
Qed.

End Monotone.

Section SessionGrowth.
Context `{Collaborators}.

(** X21. Along any sequence of calls of the public methods, each of
    which may return or raise, the job counter never decreases and no
    job leaves [cleaned_jobs]; outside a notebook no future is ever
    removed from [self.futures], which only grows at its end. *)
Theorem session_only_grows self (calls : list call) w :
  let w' := run_session self calls w in
  (total_jobs w <= total_jobs w')%nat /\
  cleaned_jobs w ⊆ cleaned_jobs w' /\
  (is_notebook = false -> futures w `prefix_of` futures w').
Proof.
  intros w'. apply (grown_run_session (total_jobs w) (cleaned_jobs w) (futures w)).
  by repeat split.
Qed.

End SessionGrowth.

(** ** The properties on explicit inputs *)

Lemma wrapper_calls_each_line_in_order_witness :
  exists returns g' log,
    Dag.wrapper_DAG DagExample.call
      [DagExample.f_name; DagExample.g_name; DagExample.f_name]
      (DagExample.f_name, 0) [] [([120%N], 10)] DagExample.globals
    = (inr returns, g', log) /\
    returns = [(DagExample.f_name, 13); (DagExample.g_name, 12)] /\
    returns.*1 = [DagExample.f_name; DagExample.g_name].
Proof.
  destruct (Dag.wrapper_DAG DagExample.call
      [DagExample.f_name; DagExample.g_name; DagExample.f_name]
      (DagExample.f_name, 0) [] [([120%N], 10)] DagExample.globals)
    as [[[e|returns] g'] log] eqn:Hrun; [vm_compute in Hrun; discriminate|].
  exists returns, g', log. split; [reflexivity|].
  destruct (wrapper_calls_each_line_in_order DagExample.call
              (fun _ _ _ => eq_refl) _ _ _ _ DagExample.globals
              (default ∅ (Dag.FUNCTIONS DagExample.globals)) _ _ _ eq_refl Hrun)
    as (_ & Hkeys & _).
  split; [|exact Hkeys].
  vm_compute in Hrun. injection Hrun as <- _ _. reflexivity.
Defined.

Lemma wrapper_failure_modes_witness :
  exists e g' log,
    Dag.wrapper_DAG DagExample.call
      [DagExample.g_name; [104%N]; DagExample.f_name]
      (DagExample.f_name, 0) [] [([120%N], 10)] DagExample.globals
    = (inl e, g', log) /\
    length log = 1%nat.
Proof.
  destruct (Dag.wrapper_DAG DagExample.call
      [DagExample.g_name; [104%N]; DagExample.f_name]
      (DagExample.f_name, 0) [] [([120%N], 10)] DagExample.globals)
    as [[outcome g'] log] eqn:Hrun.
  destruct (wrapper_failure_modes DagExample.call (fun _ _ _ => eq_refl)
              _ _ _ _ _ _ _ _ Hrun) as (_ & _ & _ & _ & Hfail).
  destruct (Hfail (default ∅ (Dag.FUNCTIONS DagExample.globals)) [104%N] eq_refl)
    as (e & ->); [by right; left | reflexivity |].
  exists e, g', log. split; [reflexivity|].
  vm_compute in Hrun. by injection Hrun as _ _ <-.
Defined.

Lemma registered_lines_are_resolved_witness :
  exists outcome g' log c,
    Dag.wrapper_DAG DagExample.call [DagExample.f_name]
      (DagExample.f_name, 0) [] [] DagExample.globals
    = (outcome, g', log) /\
    log !! 0%nat = Some c /\ c.1.1 = (DagExample.f_name, 3).
Proof.
  destruct (Dag.wrapper_DAG DagExample.call [DagExample.f_name]
      (DagExample.f_name, 0) [] [] DagExample.globals)
    as [[outcome g'] log] eqn:Hrun.
  destruct (registered_lines_are_resolved fst DagExample.call (fun _ _ _ => eq_refl)
              [(DagExample.f_name, 1); (DagExample.g_name, 2); (DagExample.f_name, 3)]
              [DagExample.f_name] (DagExample.f_name, 0) [] []
              (Dag.mkGlobals None 0%nat) outcome g' log)
    as (_ & _ & Hlast).
  { intros k ->%list_elem_of_singleton. by left. }
  { exact Hrun. }
  destruct (log !! 0%nat) as [c|] eqn:Hc;
    [|vm_compute in Hrun; injection Hrun as _ _ <-; discriminate].
  exists outcome, g', log, c. split; [reflexivity|]. split; [exact Hc|].
  specialize (Hlast 0%nat DagExample.f_name c eq_refl Hc).
  apply (inj Some). rewrite <- Hlast. vm_compute. reflexivity.
Defined.

Lemma submitted_futures_are_appended_witness :
  exists futs w',
    @map Example.collaborators (Example.executor "serverless") "f"%string
      (@IterData Example.collaborators ([[Byte.x41]; [Byte.x42]] : list bytes))
      None None None None None Example.fresh = (inr futs, w') /\
    futures w' = futs.
Proof.
  destruct (@map Example.collaborators (Example.executor "serverless") "f"%string
      (@IterData Example.collaborators ([[Byte.x41]; [Byte.x42]] : list bytes))
      None None None None None Example.fresh) as [[e|futs] w'] eqn:Hrun;
    [vm_compute in Hrun; discriminate|].
  exists futs, w'. split; [reflexivity|].
  destruct (submitted_futures_are_appended (Example.executor "serverless") Example.fresh)
    as [Hmap _].
  by destruct (Hmap _ _ _ _ _ _ _ _ _ Hrun) as [-> _].
Defined.

Lemma map_reduce_silences_the_map_futures_witness :
  exists futs w',
    @map_reduce Example.collaborators (Example.executor "serverless") "f"%string
      (@IterData Example.collaborators ([[Byte.x41]; [Byte.x42]] : list bytes))
      "g"%string None None None None None None false false Example.fresh
    = (inr futs, w') /\
    futures w' = futs /\
    f_produce_output (heap w' 0%nat) = false /\
    f_produce_output (heap w' 1%nat) = false.
Proof.
  destruct (@map_reduce Example.collaborators (Example.executor "serverless") "f"%string
      (@IterData Example.collaborators ([[Byte.x41]; [Byte.x42]] : list bytes))
      "g"%string None None None None None None false false Example.fresh)
    as [[e|futs] w'] eqn:Hrun; [vm_compute in Hrun; discriminate|].
  exists futs, w'. split; [reflexivity|].
  destruct (map_reduce_silences_the_map_futures _ _ _ _ _ _ _ _ _ _ _ _ _ _ _ Hrun)
    as (map_job & w1 & mf & w2 & wr & reduce_job & w3 & rf & w4 &
        Hjob & Hmf & _ & _ & _ & _ & -> & Hf & Hout).
  split; [exact Hf|].
  assert (Hmaps : mf = [0; 1]%nat).
  { apply run_job_inr in Hmf as [-> _].
    vm_compute in Hjob. injection Hjob as <- <-. reflexivity. }
  split; apply Hout; rewrite Hmaps.
  - apply list_elem_of_here.
  - apply list_elem_of_further, list_elem_of_here.
Defined.

Lemma wait_splits_the_futures_witness :
  exists fs_done fs_notdone w',
    @wait Example.collaborators (Example.executor "serverless") FsNone true true tt
      CleanExample.w = (inr (fs_done, fs_notdone), w') /\
    fs_done ++ fs_notdone ≡ₚ [0; 1]%nat.
Proof.
  destruct (@wait Example.collaborators (Example.executor "serverless") FsNone true true tt
              CleanExample.w) as [[e|[fs_done fs_notdone]] w'] eqn:Hrun;
    [vm_compute in Hrun; discriminate|].
  exists fs_done, fs_notdone, w'. split; [reflexivity|].
  by destruct (wait_splits_the_futures _ _ _ _ _ _ _ _ _ Hrun) as [Hperm _].
Defined.

Lemma wait_cleans_the_done_jobs_of_the_executor_witness :
  exists res w',
    @wait Example.collaborators (Example.executor "serverless") (FsOne 1%nat) true true tt
      CleanExample.w = (inr res, w') /\
    "a1b2c3-0-M000"%string ∈ cleaned_jobs w'.
Proof.
  destruct (@wait Example.collaborators (Example.executor "serverless") (FsOne 1%nat)
              true true tt CleanExample.w) as [[e|res] w'] eqn:Hrun;
    [vm_compute in Hrun; discriminate|].
  exists res, w'. split; [reflexivity|].
  destruct (wait_cleans_the_done_jobs_of_the_executor _ _ _ _ _ _ _ _ Hrun)
    as (_ & Hclean & _).
  assert (Hheap : heap w' 0%nat = CleanExample.h 0%nat).
  { vm_compute in Hrun. by injection Hrun as _ <-. }
  specialize (Hclean eq_refl 0%nat ltac:(by left)).
  rewrite Hheap in Hclean. by apply Hclean.
Defined.

Lemma get_result_after_submission_witness :
  exists res w',
    @get_result Example.collaborators (Example.executor "serverless") FsNone true tt
      (@run_call Example.collaborators (Example.executor "serverless")
         (@CallMap Example.collaborators "f"%string
            (@IterData Example.collaborators ([[Byte.x41]] : list bytes))
            None None None None None)
         Example.fresh)
    = (inr res, w') /\
    exists vs, res = Sequence vs.
Proof.
  destruct (@get_result Example.collaborators (Example.executor "serverless") FsNone true tt
      (@run_call Example.collaborators (Example.executor "serverless")
         (@CallMap Example.collaborators "f"%string
            (@IterData Example.collaborators ([[Byte.x41]] : list bytes))
            None None None None None)
         Example.fresh)) as [[e|res] w'] eqn:Hrun; [vm_compute in Hrun; discriminate|].
  exists res, w'. split; [reflexivity|].
  destruct (get_result_after_submission _ _ _ _ _ _ _ _ Hrun) as (vs & _ & Hres).
  by exists vs.
Defined.

